(** * Typerra: model orchestration and realtime proofreading

    A shallow embedding of the in-page script (model registry, request
    handler, liveness monitor, correction normalizer) and of the content
    script (correlation bridge, underline renderer, realtime pipeline),
    then of the editing helpers, the suggestion bubble, the script
    injection with its heartbeat, the getters' options and the earlier
    lock-free in-page script, followed by the properties established
    about them.

    Conventions.
    - A JavaScript number that is used as a text offset, a counter or a
      millisecond timestamp is an integer of [Z]; NaN, infinities and
      fractions are outside the model.
    - A JavaScript string is a [string]: a finite sequence of code units,
      with [length] and [slice] counting one unit per character.
    - [Array.prototype.sort] is the stable sort the language mandates; it
      is rendered as a stable insertion sort driven by the comparator.
    - A text control and a DOM range behave as the HTML and DOM standards
      describe: offsets are taken as unsigned 32-bit integers and kept
      inside the value, a control whose type has no selection reports
      [null] and throws on [setSelectionRange], and a detached element is
      not found by [getElementById]. *)

From stdpp Require Import base option list gmap strings.
From Stdlib Require Import ZArith String Ascii Lia Bool.
From Stdlib Require Import Sorting.Sorted Sorting.Permutation DecimalString.
Import ListNotations.

Open Scope string_scope.
Open Scope Z_scope.
Open Scope list_scope.

(* ===================================================================== *)
(** * JavaScript values and primitives *)
(* ===================================================================== *)

Module Js.

(** Values that travel through [postMessage] and come back from engines. *)
#[warnings="-register-all"]
Inductive JsVal : Type :=
| JUndefined
| JNull
| JBool (b : bool)
| JNum (n : Z)
| JStr (s : string)
| JArr (items : list JsVal)
| JObj (fields : list (string * JsVal)).

(** An [Error] (or [DOMException]) object: the thrown values of the model. *)
Record JsError : Type := mkError { name : string; message : string }.

Definition strlen (s : string) : Z := Z.of_nat (String.length s).

Definition is_empty (s : string) : bool :=
  match s with EmptyString => true | String _ _ => false end.

(** Truthiness, as used by [||], [!] and [if]. *)
Definition truthy (v : JsVal) : bool :=
  match v with
  | JUndefined | JNull => false
  | JBool b => b
  | JNum n => negb (n =? 0)
  | JStr s => negb (is_empty s)
  | JArr _ | JObj _ => true
  end.

(** [a || b] *)
Definition js_or (a b : JsVal) : JsVal := if truthy a then a else b.

Fixpoint assoc (k : string) (fs : list (string * JsVal)) : JsVal :=
  match fs with
  | [] => JUndefined
  | (k', v) :: fs' => if String.eqb k k' then v else assoc k fs'
  end.

(** [v.k]: [None] is the TypeError raised on [null] and [undefined]. *)
Definition get (v : JsVal) (k : string) : option JsVal :=
  match v with
  | JUndefined | JNull => None
  | JObj fs => Some (assoc k fs)
  | JStr s => Some (if String.eqb k "length" then JNum (strlen s) else JUndefined)
  | JArr l =>
      Some (if String.eqb k "length" then JNum (Z.of_nat (List.length l)) else JUndefined)
  | JBool _ | JNum _ => Some JUndefined
  end.

(** [v?.k] *)
Definition opt_get (v : JsVal) (k : string) : JsVal :=
  match get v k with Some x => x | None => JUndefined end.

(** [a[0]] on an array value. *)
Definition first_item (v : JsVal) : JsVal :=
  match v with JArr (x :: _) => x | _ => JUndefined end.

(** [String(v)] *)
Fixpoint toString (v : JsVal) : string :=
  match v with
  | JUndefined => "undefined"
  | JNull => "null"
  | JBool true => "true"
  | JBool false => "false"
  | JNum n => NilZero.string_of_int (Z.to_int n)
  | JStr s => s
  | JArr l =>
      String.concat ","
        (map (fun x => match x with
                       | JUndefined | JNull => ""
                       | _ => toString x
                       end) l)
  | JObj _ => "[object Object]"
  end.

(** [Error.prototype.toString] *)
Definition error_toString (e : JsError) : string :=
  if is_empty (name e) then message e
  else if is_empty (message e) then name e
  else name e +:+ ": " +:+ message e.

(** Lowercasing of one code unit below 256: the letters A-Z and the
    capital letters of the Latin-1 block (all of 192-222 but the
    multiplication sign, 215). *)
Definition lower_ascii (c : ascii) : ascii :=
  let n := nat_of_ascii c in
  if (((65 <=? n) && (n <=? 90))
      || ((192 <=? n) && (n <=? 222) && negb (n =? 215)))%nat
  then ascii_of_nat (n + 32)
  else c.

Fixpoint toLowerCase (s : string) : string :=
  match s with
  | EmptyString => EmptyString
  | String c s' => String (lower_ascii c) (toLowerCase s')
  end.

(** [s.includes(pat)] *)
Fixpoint includes (s pat : string) : bool :=
  String.prefix pat s
  || match s with
     | EmptyString => false
     | String _ s' => includes s' pat
     end.

Fixpoint str_take (n : nat) (s : string) : string :=
  match n, s with
  | S n', String c s' => String c (str_take n' s')
  | _, _ => EmptyString
  end.

Fixpoint str_drop (n : nat) (s : string) : string :=
  match n, s with
  | S n', String _ s' => str_drop n' s'
  | _, _ => s
  end.

(** An index argument of [slice]: negative counts from the end, and the
    result is kept inside [[0, length]]. *)
Definition slice_index (len i : Z) : Z :=
  if i <? 0 then Z.max (len + i) 0 else Z.min i len.

(** [s.slice(a, b)] *)
Definition slice (s : string) (a b : Z) : string :=
  let from := slice_index (strlen s) a in
  let to := slice_index (strlen s) b in
  str_take (Z.to_nat (to - from)) (str_drop (Z.to_nat from) s).

(** [s.slice(a)] *)
Definition slice_from (s : string) (a : Z) : string :=
  str_drop (Z.to_nat (slice_index (strlen s) a)) s.

(** [[...l].sort(cmp)]: [x] is placed before the first later element it
    does not exceed, so elements that compare equal keep their order. *)
Section Sort.
Context {A : Type} (cmp : A -> A -> Z).

Fixpoint insert_sorted (x : A) (l : list A) : list A :=
  match l with
  | [] => [x]
  | y :: l' => if cmp x y <=? 0 then x :: y :: l' else y :: insert_sorted x l'
  end.

Fixpoint sort (l : list A) : list A :=
  match l with
  | [] => []
  | x :: l' => insert_sorted x (sort l')
  end.
End Sort.

End Js.

Import Js.

(* ===================================================================== *)
(** * Correction normalizer (in-page script) *)
(* ===================================================================== *)

(** A correction span: [{ start, end, replacement? }]. *)
Record Range : Type := mkRange {
  start : Z;
  end_ : Z;
  replacement : option string
}.

(** The payload built for a proofread response. *)
Record Payload : Type := mkPayload {
  corrected : string;
  corrections : list JsVal;
  ranges : list Range;
  cancelled : bool
}.

Module Normalizer.

(** [typeof v === 'number' ? v : k] *)
Definition num_or (v : JsVal) (k : option Z) : option Z :=
  match v with JNum n => Some n | _ => k end.

(** [typeof v === 'string' ? v : k] *)
Definition str_or (v : JsVal) (k : option string) : option string :=
  match v with JStr s => Some s | _ => k end.

Definition resolve_start (c : JsVal) : option Z :=
  num_or (opt_get c "start")
    (num_or (opt_get c "offset")
       (num_or (opt_get c "startIndex")
          (num_or (opt_get (opt_get c "range") "start")
             (num_or (opt_get c "rangeStart") None)))).

Definition resolve_end (c : JsVal) (st : option Z) : option Z :=
  num_or (opt_get c "end")
    (num_or (opt_get c "endIndex")
       (match opt_get c "length", st with
        | JNum len, Some s => Some (s + len)
        | _, _ =>
            num_or (opt_get (opt_get c "range") "end")
              (num_or (opt_get c "rangeEnd") None)
        end)).

Definition resolve_repl (c : JsVal) : option string :=
  str_or (opt_get c "correction")
    (str_or (opt_get c "replacement")
       (str_or (opt_get c "replacementText")
          (str_or (opt_get c "suggestion")
             (str_or (opt_get (first_item (opt_get c "suggestions")) "replacement")
                (str_or (opt_get (first_item (opt_get c "suggestions")) "text")
                   None))))).

(** The callback of [corrections.map]: the outer [None] is the TypeError of
    reading a property of [null] or [undefined]; the inner [None] is the
    [null] that [filter(Boolean)] removes. *)
Definition resolve (c : JsVal) : option (option Range) :=
  match c with
  | JUndefined | JNull => None
  | _ =>
      let st := resolve_start c in
      let en := resolve_end c st in
      let repl := resolve_repl c in
      Some (match st, en with
            | Some s, Some e => Some (mkRange s e repl)
            | _, _ => None
            end)
  end.

(** The [try { map ... filter } catch { ranges = [] }] block. *)
Definition normalizeRanges (cs : list JsVal) : list Range :=
  match mapM resolve cs with
  | Some l => omap id l
  | None => []
  end.

Definition by_start_desc (a b : Range) : Z := start b - start a.

(** One iteration of the synthesis loop. *)
Definition splice (out : string) (corr : Range) : string :=
  let s := Z.max 0 (Z.min (strlen out) (start corr)) in
  let e := Z.max s (Z.min (strlen out) (end_ corr)) in
  slice out 0 s
  +:+ (match replacement corr with
       | Some r => r
       | None => slice out s e
       end)
  +:+ slice_from out e.

Definition synthesize (base : string) (rs : list Range) : string :=
  fold_left splice (sort by_start_desc rs) base.

Definition buildProofreadPayload (base : string) (apiResult : JsVal) : Payload :=
  let corrections :=
    match opt_get apiResult "corrections" with JArr l => l | _ => [] end in
  let corrected0 :=
    toString (js_or (js_or (opt_get apiResult "corrected") (opt_get apiResult "text"))
                (JStr "")) in
  let ranges := normalizeRanges corrections in
  let corrected1 :=
    if is_empty corrected0 && (0 <? Z.of_nat (List.length ranges))
    then synthesize base ranges
    else corrected0 in
  let corrected2 := if is_empty corrected1 then base else corrected1 in
  mkPayload corrected2 corrections ranges false.

End Normalizer.

(** Reference semantics of a set of edits, following the specification's
    words ("applying all edits left-to-right against base's original
    offsets"): the edits are visited in ascending order of start; the text
    of [base] between the previous edit's end and this edit's start is
    copied, then the replacement (or the original substring) is emitted,
    every offset being read against [base] itself. *)
Module EditSpec.

Definition by_start_asc (a b : Range) : Z := start a - start b.

Fixpoint applyLeftToRight_from (base : string) (cursor : Z) (edits : list Range)
  : string :=
  match edits with
  | [] => slice_from base cursor
  | r :: rest =>
      let s := Z.max 0 (Z.min (strlen base) (start r)) in
      let e := Z.max s (Z.min (strlen base) (end_ r)) in
      slice base cursor s
      +:+ (match replacement r with
           | Some t => t
           | None => slice base s e
           end)
      +:+ applyLeftToRight_from base e rest
  end.

Definition applyLeftToRight (base : string) (edits : list Range) : string :=
  applyLeftToRight_from base 0 (sort by_start_asc edits).

End EditSpec.

(* ===================================================================== *)
(** * Underline overlay (content script) *)
(* ===================================================================== *)

Module Overlay.

Record Segment : Type := mkSegment {
  seg_start : Z;
  seg_end : Z;
  underline : bool
}.

Definition by_start_asc (a b : Range) : Z := start a - start b.

(** The body of [for (const r of sorted)]: the accumulator is the pair
    [(segments, idx)]. *)
Definition segment_step (text : string) (acc : list Segment * Z) (r : Range)
  : list Segment * Z :=
  let '(segments, idx) := acc in
  let s := Z.max 0 (Z.min (strlen text) (start r)) in
  let e := Z.max s (Z.min (strlen text) (end_ r)) in
  let segments1 :=
    if idx <? s then segments ++ [mkSegment idx s false] else segments in
  let segments2 :=
    if s <? e then segments1 ++ [mkSegment s e true] else segments1 in
  (segments2, e).

Definition segments_of (text : string) (ranges : list Range) : list Segment :=
  let sorted := sort by_start_asc ranges in
  let '(segments, idx) := fold_left (segment_step text) sorted ([], 0) in
  if idx <? strlen text
  then segments ++ [mkSegment idx (strlen text) false]
  else segments.

(** [render(text, ranges)]: the span nodes left in the overlay; a segment
    whose slice of [text] is empty produces no span. *)
Definition render (text : string) (ranges : list Range) : list Segment :=
  if is_empty text then []
  else
    List.filter
      (fun seg => negb (is_empty (slice text (seg_start seg) (seg_end seg))))
      (segments_of text ranges).

(** The overlay object: whether it is attached to the document, and the
    spans of its content element. *)
Record t : Type := mkOverlay {
  mounted : bool;
  spanNodes : list Segment
}.

Definition create : t := mkOverlay false [].
Definition attach (o : t) : t := mkOverlay true (spanNodes o).
Definition unmount (o : t) : t := mkOverlay false (spanNodes o).
Definition render_into (o : t) (text : string) (ranges : list Range) : t :=
  mkOverlay (mounted o) (render text ranges).

End Overlay.

(* ===================================================================== *)
(** * Messages exchanged through [window.postMessage] *)
(* ===================================================================== *)

(** What [handle] returns, one constructor per shape of result. *)
Inductive HandleResult : Type :=
| RPing (t : Z)              (* { ok: true, t } *)
| ROk                        (* { ok: true } *)
| REnsured (model : string)  (* { ok: true, model } *)
| RText (s : string)
| RPayload (p : Payload).

(** [{ __gx, direction, id, method, params }]; [q_gx] holds [__gx === true]. *)
Record Request : Type := mkRequest {
  q_gx : bool;
  q_direction : string;
  q_id : Z;
  q_method : string;
  q_params : JsVal
}.

(** [{ __gx, direction, id, result, error }] *)
Record Response : Type := mkResponse {
  r_gx : bool;
  r_direction : string;
  r_id : Z;
  r_result : option HandleResult;
  r_error : option string
}.

(* ===================================================================== *)
(** * Correlation bridge (content script) *)
(* ===================================================================== *)

Module Bridge.

(** State of the promise returned by one [callInpage]. *)
Inductive Settlement : Type :=
| Unsettled
| Fulfilled (v : option HandleResult)
| Rejected (msg : string).

(** [pending] is the [Map] from request id to the [{resolve, reject}] pair
    of the call's promise; a promise is named by the id of its call.
    [timers] lists the armed timeouts as (deadline, id), in arming order; a
    timeout runs when the clock reaches its deadline. The injection of the
    in-page script, awaited at the start of [callInpage], is taken as
    done. *)
Record State : Type := mkState {
  now : Z;
  reqCounter : Z;
  pending : gmap Z Z;
  promises : gmap Z Settlement;
  timers : list (Z * Z);
  posted : list Request
}.

Definition init : State := mkState 0 1 ∅ ∅ [] [].

Definition TIMEOUT_MS : Z := 60000.

(** [resolve]/[reject] of a promise act only the first time. *)
Definition settle (p : Z) (v : Settlement) (s : State) : State :=
  match promises s !! p with
  | Some Unsettled =>
      mkState (now s) (reqCounter s) (pending s) (<[p := v]> (promises s))
        (timers s) (posted s)
  | _ => s
  end.

Definition set_pending (m : gmap Z Z) (s : State) : State :=
  mkState (now s) (reqCounter s) m (promises s) (timers s) (posted s).

Definition callInpage (method : string) (params : JsVal) (s : State) : Z * State :=
  let id := reqCounter s in
  (id,
   mkState (now s) (id + 1)
     (<[id := id]> (pending s))
     (<[id := Unsettled]> (promises s))
     (timers s ++ [(now s + TIMEOUT_MS, id)])
     (posted s ++ [mkRequest true "cs->inpage" id method params])).

(** The [message] listener of the content script. *)
Definition on_message (data : Response) (s : State) : State :=
  if negb (r_gx data) || negb (String.eqb (r_direction data) "inpage->cs") then s
  else
    match pending s !! r_id data with
    | None => s
    | Some p =>
        let s1 := set_pending (delete (r_id data) (pending s)) s in
        match r_error data with
        | Some err =>
            if is_empty err then settle p (Fulfilled (r_result data)) s1
            else settle p (Rejected err) s1
        | None => settle p (Fulfilled (r_result data)) s1
        end
    end.

(** The callback armed by [setTimeout(..., 60000)] in [callInpage]. *)
Definition on_timeout (id : Z) (s : State) : State :=
  match pending s !! id with
  | Some p =>
      settle p (Rejected "In-page call timed out")
        (set_pending (delete id (pending s)) s)
  | None => s
  end.

Definition set_clock (t : Z) (tm : list (Z * Z)) (s : State) : State :=
  mkState t (reqCounter s) (pending s) (promises s) tm (posted s).

(** Time passes: every timer whose deadline has been reached runs. *)
Definition elapse (dt : N) (s : State) : State :=
  let t := now s + Z.of_N dt in
  let due := List.filter (fun d => fst d <=? t) (timers s) in
  let rest := List.filter (fun d => negb (fst d <=? t)) (timers s) in
  fold_left (fun acc d => on_timeout (snd d) acc) due (set_clock t rest s).

Inductive Event : Type :=
| Ev_call (method : string) (params : JsVal)
| Ev_message (data : Response)
| Ev_elapse (dt : N).

Definition step (s : State) (ev : Event) : State :=
  match ev with
  | Ev_call m p => snd (callInpage m p s)
  | Ev_message d => on_message d s
  | Ev_elapse dt => elapse dt s
  end.

Definition run (tr : list Event) (s : State) : State := fold_left step tr s.



End Bridge.

(* ===================================================================== *)
(** * Model registry (in-page script) *)
(* ===================================================================== *)

Module Registry.

Inductive Kind : Type := Writer | Rewriter | Proofreader.

#[global] Instance Kind_eq_dec : EqDecision Kind.
Proof. solve_decision. Defined.

Inductive Availability : Type := available | downloadable | unavailable.

(** Progress of one creation, i.e. of the promise stored in a
    [...Creating] lock: the async body first awaits the availability
    probe, then awaits [Cls.create(...)]. *)
Inductive Task : Type :=
| Probing
| Creating
| Done (inst : Z)
| Failed (e : JsError).

(** The six module variables, the creations started so far (a creation is
    named by its position in [tasks]) and the instances handed to
    [safeDispose]. An engine instance is an opaque handle. *)
Record State : Type := mkState {
  cachedWriter : option Z;
  cachedRewriter : option Z;
  cachedProofreader : option Z;
  writerCreating : option nat;
  rewriterCreating : option nat;
  proofreaderCreating : option nat;
  tasks : list (Kind * Task);
  disposed : list Z
}.

Definition init : State := mkState None None None None None None [] [].

Definition cached (k : Kind) (s : State) : option Z :=
  match k with
  | Writer => cachedWriter s
  | Rewriter => cachedRewriter s
  | Proofreader => cachedProofreader s
  end.

Definition creating (k : Kind) (s : State) : option nat :=
  match k with
  | Writer => writerCreating s
  | Rewriter => rewriterCreating s
  | Proofreader => proofreaderCreating s
  end.

Definition set_cached (k : Kind) (v : option Z) (s : State) : State :=
  match k with
  | Writer =>
      mkState v (cachedRewriter s) (cachedProofreader s) (writerCreating s)
        (rewriterCreating s) (proofreaderCreating s) (tasks s) (disposed s)
  | Rewriter =>
      mkState (cachedWriter s) v (cachedProofreader s) (writerCreating s)
        (rewriterCreating s) (proofreaderCreating s) (tasks s) (disposed s)
  | Proofreader =>
      mkState (cachedWriter s) (cachedRewriter s) v (writerCreating s)
        (rewriterCreating s) (proofreaderCreating s) (tasks s) (disposed s)
  end.

Definition set_creating (k : Kind) (v : option nat) (s : State) : State :=
  match k with
  | Writer =>
      mkState (cachedWriter s) (cachedRewriter s) (cachedProofreader s) v
        (rewriterCreating s) (proofreaderCreating s) (tasks s) (disposed s)
  | Rewriter =>
      mkState (cachedWriter s) (cachedRewriter s) (cachedProofreader s)
        (writerCreating s) v (proofreaderCreating s) (tasks s) (disposed s)
  | Proofreader =>
      mkState (cachedWriter s) (cachedRewriter s) (cachedProofreader s)
        (writerCreating s) (rewriterCreating s) v (tasks s) (disposed s)
  end.

Definition set_tasks (ts : list (Kind * Task)) (s : State) : State :=
  mkState (cachedWriter s) (cachedRewriter s) (cachedProofreader s)
    (writerCreating s) (rewriterCreating s) (proofreaderCreating s) ts (disposed s).

Definition kind_name (k : Kind) : string :=
  match k with
  | Writer => "Writer"
  | Rewriter => "Rewriter"
  | Proofreader => "Proofreader"
  end.

(** What the caller of a getter holds: the cached instance, or a promise
    that follows the creation [p]. *)
Inductive GetResult : Type :=
| Ready (inst : Z)
| Awaiting (p : nat).

(** [getWriter], [getRewriter] and [getProofreader] share this body, up to
    the variables they read and write. *)
Definition getEngine (k : Kind) (s : State) : GetResult * State :=
  match cached k s with
  | Some inst => (Ready inst, s)
  | None =>
      match creating k s with
      | Some p => (Awaiting p, s)
      | None =>
          let p := List.length (tasks s) in
          (Awaiting p, set_creating k (Some p) (set_tasks (tasks s ++ [(k, Probing)]) s))
      end
  end.

Definition getWriter := getEngine Writer.
Definition getRewriter := getEngine Rewriter.
Definition getProofreader := getEngine Proofreader.

(** The creation body and its [.catch] failed: the lock is cleared and the
    promise rejects with [e]. *)
Definition fail_task (p : nat) (k : Kind) (e : JsError) (s : State) : State :=
  set_creating k None (set_tasks (<[p := (k, Failed e)]> (tasks s)) s).

(** [ensureAvailability] of creation [p] resolved with [a]. *)
Definition avail_resolved (p : nat) (a : Availability) (s : State) : State :=
  match tasks s !! p with
  | Some (k, Probing) =>
      match a with
      | unavailable =>
          fail_task p k
            (mkError "Error" (kind_name k +:+ " API unavailable in this browser.")) s
      | _ => set_tasks (<[p := (k, Creating)]> (tasks s)) s
      end
  | _ => s
  end.

(** [Cls.create(...)] of creation [p] resolved with [inst]. *)
Definition create_resolved (p : nat) (inst : Z) (s : State) : State :=
  match tasks s !! p with
  | Some (k, Creating) =>
      set_creating k None
        (set_cached k (Some inst) (set_tasks (<[p := (k, Done inst)]> (tasks s)) s))
  | _ => s
  end.

(** [Cls.create(...)] of creation [p] rejected with [e]. *)
Definition create_rejected (p : nat) (e : JsError) (s : State) : State :=
  match tasks s !! p with
  | Some (k, Creating) => fail_task p k e s
  | _ => s
  end.

Definition safeDispose (obj : option Z) (s : State) : State :=
  match obj with
  | Some inst =>
      mkState (cachedWriter s) (cachedRewriter s) (cachedProofreader s)
        (writerCreating s) (rewriterCreating s) (proofreaderCreating s)
        (tasks s) (disposed s ++ [inst])
  | None => s
  end.

Definition disposeModels (s : State) : State :=
  let s1 := safeDispose (cachedWriter s) s in
  let s2 := safeDispose (cachedRewriter s1) s1 in
  let s3 := safeDispose (cachedProofreader s2) s2 in
  mkState None None None None None None (tasks s3) (disposed s3).

Definition disposeNonProofreader (s : State) : State :=
  let s1 := safeDispose (cachedWriter s) s in
  let s2 := safeDispose (cachedRewriter s1) s1 in
  mkState None None (cachedProofreader s2) (writerCreating s2)
    (rewriterCreating s2) (proofreaderCreating s2) (tasks s2) (disposed s2).

Inductive Event : Type :=
| Ev_get (k : Kind)
| Ev_avail (p : nat) (a : Availability)
| Ev_created (p : nat) (inst : Z)
| Ev_failed (p : nat) (e : JsError)
| Ev_disposeModels
| Ev_disposeNonProofreader.

Definition step (s : State) (ev : Event) : State :=
  match ev with
  | Ev_get k => snd (getEngine k s)
  | Ev_avail p a => avail_resolved p a s
  | Ev_created p inst => create_resolved p inst s
  | Ev_failed p e => create_rejected p e s
  | Ev_disposeModels => disposeModels s
  | Ev_disposeNonProofreader => disposeNonProofreader s
  end.

Definition run (tr : list Event) (s : State) : State := fold_left step tr s.

Definition is_running (t : Task) : bool :=
  match t with Probing | Creating => true | _ => false end.

(** Creations of kind [k] that have not settled. *)
Definition in_flight (k : Kind) (s : State) : list (Kind * Task) :=
  List.filter (fun kt => bool_decide (fst kt = k) && is_running (snd kt)) (tasks s).

(** [create()] calls of kind [k] that are running. *)
Definition creates_running (k : Kind) (s : State) : nat :=
  List.length
    (List.filter
       (fun kt => bool_decide (fst kt = k)
                  && match snd kt with Creating => true | _ => false end)
       (tasks s)).

(** [disposeModels] is never run while a creation is in flight. *)
Fixpoint dispose_when_settled (s : State) (tr : list Event) : Prop :=
  match tr with
  | [] => True
  | ev :: tr' =>
      (match ev with
       | Ev_disposeModels => forall k, in_flight k s = []
       | _ => True
       end)
      /\ dispose_when_settled (step s ev) tr'
  end.

End Registry.

(* ===================================================================== *)
(** * Request handler and idle monitor (in-page script) *)
(* ===================================================================== *)

Module InPage.

Import Registry.

(** How an awaited promise settles; [Hangs] is a promise that never does. *)
Inductive Outcome (A : Type) : Type :=
| Resolves (a : A)
| Rejects (e : JsError)
| Hangs.
Arguments Resolves {A} a.
Arguments Rejects {A} e.
Arguments Hangs {A}.

Definition bind {A B : Type} (o : Outcome A) (k : A -> Outcome B) : Outcome B :=
  match o with
  | Resolves a => k a
  | Rejects e => Rejects e
  | Hangs => Hangs
  end.

(** The promises one request awaits: the getter of each engine (called with
    the tone and length options) and the engine calls themselves. How a
    getter drives the creation locks is the subject of [Registry]. *)
Record Env : Type := mkEnv {
  engine : Kind -> option string -> option string -> Outcome unit;
  proofread_call : string -> Outcome JsVal;
  write_call : string -> Outcome JsVal;
  rewrite_call : string -> string -> Outcome JsVal
}.

Record State : Type := mkState {
  reg : Registry.State;
  lastActivityAt : Z;
  lastPingAt : Z;
  warmupRunning : bool;
  GX_WARMUP_STARTED : bool
}.

(** The script is loaded at time [t0]. *)
Definition init (t0 : Z) : State := mkState Registry.init t0 t0 false false.

Definition touch_activity (now : Z) (s : State) : State :=
  mkState (reg s) now (lastPingAt s) (warmupRunning s) (GX_WARMUP_STARTED s).

Definition touch_ping (now : Z) (s : State) : State :=
  mkState (reg s) (lastActivityAt s) now (warmupRunning s) (GX_WARMUP_STARTED s).

Definition set_reg (r : Registry.State) (s : State) : State :=
  mkState r (lastActivityAt s) (lastPingAt s) (warmupRunning s) (GX_WARMUP_STARTED s).

Definition one_of (l : list string) (t : JsVal) : option string :=
  match t with
  | JStr s => if existsb (String.eqb s) l then Some s else None
  | _ => None
  end.

Definition mapWriterTone := one_of ["neutral"; "casual"; "formal"].
Definition mapWriterLength := one_of ["short"; "medium"; "long"].
Definition mapRewriterTone := one_of ["more-casual"; "as-is"; "more-formal"].
Definition mapRewriterLength := one_of ["shorter"; "as-is"; "longer"].

Definition is_space (c : ascii) : bool :=
  let n := nat_of_ascii c in
  (((9 <=? n) && (n <=? 13)) || (n =? 32) || (n =? 160))%nat.

Fixpoint trim_start (l : list ascii) : list ascii :=
  match l with
  | c :: l' => if is_space c then trim_start l' else l
  | [] => []
  end.

(** [s.trim()] *)
Definition trim (s : string) : string :=
  string_of_list_ascii
    (rev (trim_start (rev (trim_start (list_ascii_of_string s))))).

Definition default_instruction : string :=
  "Only rewrite the provided text according to the requested tone/length. Preserve the original meaning and information. Do not add new ideas, remove content, or include explanations. Return only the rewritten text.".

(** [(e?.message || e || '').toString().toLowerCase()] *)
Definition cancel_msg (e : JsError) : string :=
  toLowerCase (if is_empty (message e) then error_toString e else message e).

(** [(e?.name || '').toString().toLowerCase()] *)
Definition cancel_name (e : JsError) : string := toLowerCase (name e).

(** The test of the [catch] block of the proofread case. *)
Definition is_cancellation (e : JsError) : bool :=
  String.eqb (cancel_name e) "aborterror" || includes (cancel_msg e) "cancel".

Definition cancelled_payload (base : string) : Payload := mkPayload base [] [] true.

(** [warmupModels()]: each getter's failure is caught, so the call resolves
    once the three getters have settled and hangs if one of them does. *)
Definition warmupModels (env : Env) (s : State) : State * Outcome unit :=
  if warmupRunning s || GX_WARMUP_STARTED s then (s, Resolves tt)
  else
    let settled k :=
      match engine env k None None with Hangs => false | _ => true end in
    if settled Proofreader && settled Rewriter && settled Writer
    then (mkState (reg s) (lastActivityAt s) (lastPingAt s) false true, Resolves tt)
    else (mkState (reg s) (lastActivityAt s) (lastPingAt s) true true, Hangs).

(** [handle(method, params)], run at time [now]. *)
Definition handle (now : Z) (env : Env) (method : string) (params : JsVal) (s : State)
  : State * Outcome HandleResult :=
  if String.eqb method "ping" then
    (touch_ping now s, Resolves (RPing now))
  else if String.eqb method "warmup" then
    let '(s1, o) := warmupModels env (touch_activity now s) in
    (s1, bind o (fun _ => Resolves ROk))
  else if String.eqb method "ensure" then
    let which := toLowerCase (toString (js_or (opt_get params "model") (JStr ""))) in
    (touch_activity now s,
     if String.eqb which "proofreader" then
       bind (engine env Proofreader None None) (fun _ => Resolves (REnsured "proofreader"))
     else if String.eqb which "writer" then
       bind (engine env Writer None None) (fun _ => Resolves (REnsured "writer"))
     else if String.eqb which "rewriter" then
       bind (engine env Rewriter None None) (fun _ => Resolves (REnsured "rewriter"))
     else Rejects (mkError "Error" ("Unknown model: " +:+ which)))
  else if String.eqb method "dispose" then
    (set_reg (disposeModels (reg s)) s, Resolves ROk)
  else if String.eqb method "disposeNonProofreader" then
    (set_reg (disposeNonProofreader (reg s)) s, Resolves ROk)
  else if String.eqb method "write" then
    let p := js_or params (JObj []) in
    (touch_activity now s,
     bind (engine env Writer (mapWriterTone (opt_get p "tone"))
             (mapWriterLength (opt_get p "length")))
       (fun _ =>
          bind (write_call env (toString (js_or (opt_get p "prompt") (JStr ""))))
            (fun res => Resolves (RText (toString res)))))
  else if String.eqb method "rewrite" then
    let p := js_or params (JObj []) in
    (touch_activity now s,
     bind (engine env Rewriter (mapRewriterTone (opt_get p "tone"))
             (mapRewriterLength (opt_get p "length")))
       (fun _ =>
          let instruction :=
            toString (js_or (opt_get p "context") (JStr default_instruction)) in
          bind (rewrite_call env (toString (js_or (opt_get p "text") (JStr "")))
                  instruction)
            (fun res => Resolves (RText (trim (toString res))))))
  else if String.eqb method "proofread" then
    let p := js_or params (JObj []) in
    (touch_activity now s,
     bind (engine env Proofreader None None)
       (fun _ =>
          let base := toString (js_or (opt_get p "text") (JStr "")) in
          match proofread_call env base with
          | Resolves result =>
              Resolves (RPayload (Normalizer.buildProofreadPayload base result))
          | Rejects e =>
              if is_cancellation e
              then Resolves (RPayload (cancelled_payload base))
              else Rejects e
          | Hangs => Hangs
          end))
  else
    (s, Rejects (mkError "Error" ("Unknown method: " +:+ method))).

Definition postResponse (id : Z) (result : option HandleResult) (error : option string)
  : Response :=
  mkResponse true "inpage->cs" id result error.

(** [e?.message || String(e)] *)
Definition error_text (e : JsError) : string :=
  if is_empty (message e) then error_toString e else message e.

(** The [message] listener: the new state and the responses it posts. *)
Definition on_message (now : Z) (env : Env) (data : Request) (s : State)
  : State * list Response :=
  if negb (q_gx data) || negb (String.eqb (q_direction data) "cs->inpage") then (s, [])
  else
    let '(s1, o) := handle now env (q_method data) (q_params data) s in
    (s1,
     match o with
     | Resolves result => [postResponse (q_id data) (Some result) None]
     | Rejects e => [postResponse (q_id data) None (Some (error_text e))]
     | Hangs => []
     end).

Definition MODEL_IDLE_MS : Z := 30000.
Definition PING_MISS_MS : Z := 30000.
Definition HIDDEN_IDLE_MS : Z := 20000.
Definition CHECK_INTERVAL_MS : Z := 15000.

Definition shouldDispose (now : Z) (hidden : bool) (s : State) : bool :=
  let sinceActivity := now - lastActivityAt s in
  let sincePing := now - lastPingAt s in
  let activityLimit := if hidden then HIDDEN_IDLE_MS else MODEL_IDLE_MS in
  (activityLimit <? sinceActivity) || (PING_MISS_MS <? sincePing).

(** The callback of the idle monitor's [setInterval], run at time [now]
    while the page is hidden or not. *)
Definition idle_check (now : Z) (hidden : bool) (s : State) : State :=
  if shouldDispose now hidden s
  then mkState (disposeModels (reg s)) now now (warmupRunning s) (GX_WARMUP_STARTED s)
  else s.

(** A stretch of time in which only the idle monitor runs: the checks, each
    with its time and the page's visibility, in order. The result counts
    the checks that invoked [disposeModels]. *)
Fixpoint idle_checks (ticks : list (Z * bool)) (s : State) : nat * State :=
  match ticks with
  | [] => (0%nat, s)
  | (now, hidden) :: rest =>
      let '(n, s') := idle_checks rest (idle_check now hidden s) in
      ((if shouldDispose now hidden s then S n else n), s')
  end.

(** The nominal schedule: the times of the first [n] checks when every
    callback runs exactly on time after the monitor starts at [t0]. The
    callback reads the clock itself and may run late, so [idle_check] and
    [idle_checks] take the time of each check as given, and this list only
    serves to write down runs on the nominal schedule. *)
Definition check_times (t0 : Z) (n : nat) : list Z :=
  map (fun i => t0 + CHECK_INTERVAL_MS * (Z.of_nat i + 1)) (seq 0 n).

End InPage.

(* ===================================================================== *)
(** * Realtime pipeline (content script) *)
(* ===================================================================== *)

Module Realtime.

Definition MAX_REALTIME_CHARS : Z := 2000.
Definition MIN_INTERVAL_MS : Z := 700.

(** [ProofreadPayload] as the content script types it: [ranges] and
    [cancelled] are optional. *)
Record ProofreadPayload : Type := mkProofreadPayload {
  pp_corrected : string;
  pp_corrections : list JsVal;
  pp_ranges : option (list Range);
  pp_cancelled : option bool
}.

(** How the promise of [callInpage('proofread', ...)] settles: with the
    posted result (possibly [undefined]) or with an error. *)
Inductive CallOutcome : Type :=
| Returned (res : option ProofreadPayload)
| Threw (e : JsError).

(** What an armed timer runs: the debounced async callback of
    [schedule(immediate)], or [() => schedule(true)]. *)
Inductive TimerAction : Type :=
| Debounced (immediate : bool)
| Reschedule.

Record Timer : Type := mkTimer { delay : Z; action : TimerAction }.

(** The refs of [App] used by the realtime effect, the overlay the effect
    created, and the calls it has issued with the token each captured.
    [overlayRef] tells whether [overlayRef.current] still points to the
    overlay. [debounceRef] holds the armed timer; a timer that has fired
    is dropped from it (clearing a fired timer does nothing). *)
Record Session : Type := mkSession {
  overlay : Overlay.t;
  overlayRef : bool;
  debounceRef : option Timer;
  inflightRef : Z;
  lastTextRef : string;
  lastRangesRef : list Range;
  lastProofreadAtRef : Z;
  calls : list (Z * string)
}.

Definition init : Session :=
  mkSession Overlay.create false None 0 "" [] 0 [].

Definition set_debounce (d : option Timer) (s : Session) : Session :=
  mkSession (overlay s) (overlayRef s) d (inflightRef s) (lastTextRef s)
    (lastRangesRef s) (lastProofreadAtRef s) (calls s).

(** [schedule(immediate)] up to the arming of the timer. *)
Definition schedule (immediate : bool) (s : Session) : Session :=
  set_debounce (Some (mkTimer (if immediate then 0 else 350) (Debounced immediate))) s.

(** The effect body: a fresh overlay is attached and a first check is
    scheduled; the refs keep their values. *)
Definition setup (s : Session) : Session :=
  schedule true
    (mkSession (Overlay.attach Overlay.create) true (debounceRef s) (inflightRef s)
       (lastTextRef s) (lastRangesRef s) (lastProofreadAtRef s) (calls s)).

(** [if (overlayRef.current) { overlayRef.current.unmount(); overlayRef.current = null; }] *)
Definition drop_overlay (s : Session) : Session :=
  if overlayRef s
  then mkSession (Overlay.unmount (overlay s)) false (debounceRef s) (inflightRef s)
         (lastTextRef s) (lastRangesRef s) (lastProofreadAtRef s) (calls s)
  else s.

(** The debounced callback up to its [await]: [text] is the content of the
    surface and [now] the clock when it runs. *)
Definition debounced (immediate : bool) (now : Z) (text : string) (s : Session)
  : Session :=
  if MAX_REALTIME_CHARS <? strlen text then drop_overlay s
  else
    let elapsed := now - lastProofreadAtRef s in
    if (elapsed <? MIN_INTERVAL_MS) && negb immediate
    then set_debounce (Some (mkTimer (MIN_INTERVAL_MS - elapsed) Reschedule)) s
    else
      let token := inflightRef s + 1 in
      mkSession (overlay s) (overlayRef s) (debounceRef s) token (lastTextRef s)
        (lastRangesRef s) (lastProofreadAtRef s) (calls s ++ [(token, text)]).

(** The armed timer fires. *)
Definition fire (now : Z) (text : string) (s : Session) : Session :=
  match debounceRef s with
  | None => s
  | Some tm =>
      let s0 := set_debounce None s in
      match action tm with
      | Debounced immediate => debounced immediate now text s0
      | Reschedule => schedule true s0
      end
  end.

(** The [.catch] attached to the call: a benign cancellation becomes a
    cancelled payload, any other error is thrown on ([None]) and swallowed
    by the enclosing [try]. *)
Definition after_catch (text : string) (o : CallOutcome) : option (option ProofreadPayload) :=
  match o with
  | Returned res => Some res
  | Threw e =>
      let msg := toLowerCase (if is_empty (message e) then error_toString e else message e) in
      if includes msg "cancel"
      then Some (Some (mkProofreadPayload text [] (Some []) (Some true)))
      else None
  end.

(** The debounced callback after its [await], for the call that captured
    [token] and sent [text]. *)
Definition respond (token : Z) (text : string) (o : CallOutcome) (now : Z) (s : Session)
  : Session :=
  match after_catch text o with
  | None => s
  | Some res =>
      if negb (token =? inflightRef s) then s
      else if match res with
              | Some p => match pp_cancelled p with Some true => true | _ => false end
              | None => false
              end
      then s
      else
        let ranges :=
          match res with
          | Some p => match pp_ranges p with Some l => l | None => [] end
          | None => []
          end in
        mkSession (Overlay.render_into (overlay s) text ranges) (overlayRef s)
          (debounceRef s) (inflightRef s) text ranges now (calls s)
  end.

(** [proofreadNow()] after its [await] (the refresh that follows an applied
    suggestion): the response is stored without any token check; it is
    rendered when [overlayRef.current] is set, and the TypeError raised
    otherwise is swallowed after the refs have been written. *)
Definition proofreadNow_done (text : string) (o : CallOutcome) (s : Session) : Session :=
  match o with
  | Threw _ => s
  | Returned res =>
      let ranges :=
        match res with
        | Some p => match pp_ranges p with Some l => l | None => [] end
        | None => []
        end in
      mkSession
        (if overlayRef s then Overlay.render_into (overlay s) text ranges else overlay s)
        (overlayRef s) (debounceRef s) (inflightRef s) text ranges
        (lastProofreadAtRef s) (calls s)
  end.

(** The cleanup returned by the effect (session teardown). *)
Definition cleanup (s : Session) : Session :=
  mkSession (Overlay.unmount (overlay s)) false None (inflightRef s + 1)
    (lastTextRef s) (lastRangesRef s) (lastProofreadAtRef s) (calls s).

Definition is_boundary (c : ascii) : bool :=
  InPage.is_space c
  || existsb (Ascii.eqb c) ["."; ","; "!"; "?"; ";"; ":"]%char.

(** [onInput]: the last character of the surface decides the delay. *)
Definition onInput (value : string) (s : Session) : Session :=
  schedule
    (match slice_from value (-1) with
     | String c _ => is_boundary c
     | EmptyString => false
     end) s.

Inductive Event : Type :=
| Ev_schedule (immediate : bool)
| Ev_input (value : string)
| Ev_fire (now : Z) (text : string)
| Ev_respond (token : Z) (text : string) (o : CallOutcome) (now : Z)
| Ev_proofreadNow (text : string) (o : CallOutcome)
| Ev_cleanup
| Ev_setup.

Definition step (s : Session) (ev : Event) : Session :=
  match ev with
  | Ev_schedule b => schedule b s
  | Ev_input v => onInput v s
  | Ev_fire now text => fire now text s
  | Ev_respond token text o now => respond token text o now s
  | Ev_proofreadNow text o => proofreadNow_done text o s
  | Ev_cleanup => cleanup s
  | Ev_setup => setup s
  end.

Definition run (tr : list Event) (s : Session) : Session := fold_left step tr s.

(** What a response is allowed to touch: the rendered spans, the last
    observed text and ranges, and the time of the last proofread. *)
Definition applied (s : Session) : list Overlay.Segment * string * list Range * Z :=
  (Overlay.spanNodes (overlay s), lastTextRef s, lastRangesRef s, lastProofreadAtRef s).

End Realtime.

(* ===================================================================== *)
(** * Further operations of the content script *)
(* ===================================================================== *)

(** Span lookups of the overlay. The source returns the bounding box of the
    first span that passes the test; the box is identified here with the
    span it belongs to. *)
Module OverlayQueries.

Import Overlay.

(** [getRectForIndex(index)] *)
Definition getRectForIndex (spans : list Segment) (index : Z) : option Segment :=
  List.find (fun s => (seg_start s <=? index) && (index <? seg_end s)) spans.

(** [getRectForRange(start, end)] *)
Definition getRectForRange (spans : list Segment) (start end_ : Z) : option Segment :=
  List.find (fun s => (seg_start s <? end_) && (start <? seg_end s)) spans.

(** The text content of the overlay after [render(text, ...)]: the texts
    of its spans, in order. *)
Definition textContent (text : string) (spans : list Segment) : string :=
  fold_right (fun g acc => slice text (seg_start g) (seg_end g) +:+ acc) "" spans.

End OverlayQueries.

(** Editing a text control ([HTMLInputElement] or [HTMLTextAreaElement]):
    the branches of the helpers taken for such a target. The branches for
    [contentEditable] hosts work on DOM ranges and are not modelled. *)
Module Editing.

(** [clamp(v, min, max)] *)
Definition clamp (v min max : Z) : Z := Z.max min (Z.min max v).

(** A text control: its value and its selection. [selection] is [None]
    for the input types to which selection does not apply ([email], among
    those [isEditable] accepts): [selectionStart] and [selectionEnd] are
    [null] there and [setSelectionRange] throws. *)
Record TextControl : Type := mkControl {
  value : string;
  selection : option (Z * Z)
}.

(** The control and the number of [input] events dispatched on it. *)
Record Dom : Type := mkDom {
  control : TextControl;
  inputs : nat
}.

Inductive Completion : Type :=
| Normal
| Throws (e : JsError).

Definition Action : Type := Dom -> Dom * Completion.

(** [a; b]: [b] runs when [a] completes normally. *)
Definition and_then (a b : Action) : Action :=
  fun d =>
    match a d with
    | (d', Normal) => b d'
    | r => r
    end.

Definition skip : Action := fun d => (d, Normal).

Definition InvalidStateError : JsError :=
  mkError "InvalidStateError" "The input element's type does not support selection.".

(** Conversion of an argument to [unsigned long]. *)
Definition to_uint32 (x : Z) : Z := x mod 2 ^ 32.

(** [el.setSelectionRange(start, end)]: both offsets are kept inside the
    value, and a start beyond the end is moved to the end. *)
Definition setSelectionRange (start end_ : Z) : Action :=
  fun d =>
    let el := control d in
    match selection el with
    | None => (d, Throws InvalidStateError)
    | Some _ =>
        let len := strlen (value el) in
        let e := Z.min (to_uint32 end_) len in
        let s := Z.min (Z.min (to_uint32 start) len) e in
        (mkDom (mkControl (value el) (Some (s, e))) (inputs d), Normal)
    end.

(** [el.dispatchEvent(new Event('input', { bubbles: true }))] *)
Definition dispatch_input : Action :=
  fun d => (mkDom (control d) (S (inputs d)), Normal).

(** [s.substring(a, b)] *)
Definition substring (s : string) (a b : Z) : string :=
  let a' := Z.max 0 (Z.min a (strlen s)) in
  let b' := Z.max 0 (Z.min b (strlen s)) in
  slice s (Z.min a' b') (Z.max a' b').

(** [getEditableText(el)] *)
Definition getEditableText (el : TextControl) : string := value el.

(** [getSelectionText(el)] *)
Definition getSelectionText (el : TextControl) : string :=
  let start := match selection el with Some (s, _) => s | None => 0 end in
  let end_ := match selection el with Some (_, e) => e | None => 0 end in
  substring (value el) start end_.

(** [captureSelection()]: the [{ kind: 'input', start, end }] it stores. *)
Definition captureSelection (el : TextControl) : Z * Z :=
  let start := match selection el with Some (s, _) => s | None => strlen (value el) end in
  let end_ := match selection el with Some (_, e) => e | None => start end in
  (start, end_).

(** The [suggest] state of [App] as [applySuggestion] reads it: whether the
    bubble is open, its text and its range ([None] is [null]). *)
Record Suggest : Type := mkSuggest {
  sg_open : bool;
  sg_text : string;
  sg_range : option (Z * Z)
}.

Section Control.

(** The value sanitization of the control's type: what the control keeps of
    an assigned string (a single-line field drops line breaks). *)
Variable sanitize : string -> string.

(** [el.value = v]: when the value changes, the cursor moves to its end. *)
Definition set_value (v : string) : Action :=
  fun d =>
    let el := control d in
    let v' := sanitize v in
    (mkDom
       (mkControl v'
          (match selection el with
           | Some sel =>
               if String.eqb v' (value el) then Some sel
               else Some (strlen v', strlen v')
           | None => None
           end))
       (inputs d),
     Normal).

(** [replaceSelection(el, replacement)] *)
Definition replaceSelection (replacement : string) : Action :=
  fun d =>
    let el := control d in
    let start :=
      match selection el with Some (s, _) => s | None => strlen (value el) end in
    let end_ :=
      match selection el with Some (_, e) => e | None => strlen (value el) end in
    let before := slice (value el) 0 start in
    let after := slice_from (value el) end_ in
    let newVal := before +:+ replacement +:+ after in
    let newCursor := strlen before + strlen replacement in
    and_then (set_value newVal)
      (and_then (setSelectionRange newCursor newCursor) dispatch_input) d.

(** [replaceWhole(el, text, emitInput)] *)
Definition replaceWhole (text : string) (emitInput : bool) : Action :=
  and_then (set_value text)
    (fun d =>
       let pos := strlen (value (control d)) in
       and_then (setSelectionRange pos pos)
         (if emitInput then dispatch_input else skip) d).

(** [applySuggestion()] up to the call of [replaceSelection]; a closed
    bubble, or one without a range, makes it return at once. *)
Definition applySuggestion (suggest : Suggest) : Action :=
  fun d =>
    if negb (sg_open suggest) then (d, Normal)
    else
      match sg_range suggest with
      | None => (d, Normal)
      | Some (start, end_) =>
          let replacement := sg_text suggest in
          let len := strlen (value (control d)) in
          let s := clamp start 0 len in
          let e := clamp end_ s len in
          and_then (setSelectionRange s e) (replaceSelection replacement) d
      end.

(** [applyWrite()] with result [wResult]; [saved] is [lastSelRef.current],
    a saved selection of kind ['input'] or nothing. *)
Definition applyWrite (saved : option (Z * Z)) (wResult : string) : Action :=
  fun d =>
    if is_empty wResult then (d, Normal)
    else
      match saved with
      | Some (saved_start, saved_end) =>
          let target := control d in
          let start := Z.max 0 (Z.min saved_start (strlen (value target))) in
          let end_ := Z.max 0 (Z.min saved_end (strlen (value target))) in
          let before := slice (value target) 0 start in
          let after := slice_from (value target) end_ in
          let caret := strlen before + strlen wResult in
          and_then (set_value (before +:+ wResult +:+ after))
            (and_then (setSelectionRange caret caret) dispatch_input) d
      | None => replaceSelection wResult d
      end.

End Control.

(** The selection of a control lies inside its value. *)
Definition well_formed (el : TextControl) : Prop :=
  match selection el with
  | Some (s, e) => 0 <= s <= e /\ e <= strlen (value el)
  | None => True
  end.

End Editing.

(** The suggestion bubble of the word under the caret. *)
Module Suggestion.

Import Overlay OverlayQueries Realtime.

(** The open bubble: [suggest.text], [suggest.range] and the span whose
    bounding box positions it. *)
Record Bubble : Type := mkBubble {
  b_text : string;
  b_start : Z;
  b_end : Z;
  b_anchor : Segment
}.

(** [idx >= rr.start && idx < rr.end] *)
Definition contains (idx : Z) (rr : Range) : bool :=
  (start rr <=? idx) && (idx <? end_ rr).

(** [updateSuggestionForCaret()]: [text] is the content of the target,
    [idx] the caret index ([None] when there is none) and [suggest] the
    bubble before the call ([None] when closed). [captured_open] is the
    [suggest.open] the function reads: the value held by the closure that
    runs it (the listeners and the response callback are created when their
    effect runs and keep the [suggest] of that render). The closing
    branches close the bubble only when that captured value is true. *)
Definition updateSuggestionForCaret (text : string) (idx : option Z) (s : Session)
    (captured_open : bool) (suggest : option Bubble) : option Bubble :=
  let close := if captured_open then None else suggest in
  if negb (overlayRef s) then suggest
  else if negb (String.eqb text (lastTextRef s)) then suggest
  else
    match idx with
    | None => close
    | Some i =>
        match List.find (contains i) (lastRangesRef s) with
        | None => close
        | Some r =>
            match replacement r with
            | None => close
            | Some t =>
                if is_empty t then close
                else
                  let spans := spanNodes (overlay s) in
                  let rect :=
                    match getRectForRange spans (start r) (end_ r) with
                    | Some g => Some g
                    | None => getRectForIndex spans i
                    end in
                  match rect with
                  | None => close
                  | Some g => Some (mkBubble t (start r) (end_ r) g)
                  end
            end
        end
    end.

End Suggestion.

(** The Apply button of the proofread tab and the ['gx:clear'] listener. *)
Module Panel.

Import Editing Realtime Suggestion.

(** The listener of ['gx:clear']: the overlay is detached and forgotten,
    and the bubble is closed. *)
Definition onClear (s : Session) (suggest : option Bubble) : Session * option Bubble :=
  (drop_overlay s, None).

(** [applyProofread()] on a text control, with [pResult] the corrected
    text shown in the panel. *)
Definition applyProofread (sanitize : string -> string) (pResult : string)
    (d : Dom) (s : Session) (suggest : option Bubble)
  : Dom * (Session * option Bubble) * Completion :=
  if is_empty pResult then (d, (s, suggest), Normal)
  else
    match replaceWhole sanitize pResult false d with
    | (d', Normal) => (d', onClear s suggest, Normal)
    | (d', Throws e) => (d', (s, suggest), Throws e)
    end.

End Panel.

(** Injection of the in-page script and the guards that look for its
    element (content script). *)
Module Injector.

(** [script_in_document]: [document.getElementById('typerra-inpage')] finds
    the script element. [inpageReady]: [None] is [null], [Some b] the
    promise, settled or not. The counters record the script elements
    appended, the heartbeat pings posted and the [dispose] calls made by
    the client idle timer. *)
Record State : Type := mkState {
  script_in_document : bool;
  inpageReady : option bool;
  loaded : bool;
  injections : nat;
  pings : nat;
  idle_disposals : nat
}.

Definition init : State := mkState false None false 0 0 0.

(** [ensureInpage()] *)
Definition ensureInpage (s : State) : State :=
  if script_in_document s then s
  else
    match inpageReady s with
    | Some _ => s
    | None =>
        mkState true (Some false) (loaded s) (S (injections s)) (pings s)
          (idle_disposals s)
    end.

(** [script.onload]: the element is removed and the promise resolved. The
    event comes once, for a script whose promise is unsettled. *)
Definition onload (s : State) : State :=
  match inpageReady s with
  | Some false =>
      mkState false (Some true) true (injections s) (pings s) (idle_disposals s)
  | _ => s
  end.

(** [script.onerror]: the promise is resolved, the element stays. *)
Definition onerror (s : State) : State :=
  match inpageReady s with
  | Some false =>
      mkState (script_in_document s) (Some true) (loaded s) (injections s) (pings s)
        (idle_disposals s)
  | _ => s
  end.

(** The callback of the heartbeat's [setInterval]. *)
Definition heartbeat (s : State) : State :=
  if script_in_document s
  then mkState (script_in_document s) (inpageReady s) (loaded s) (injections s)
         (S (pings s)) (idle_disposals s)
  else s.

(** The callback of the client idle timer of [App]; [idle] holds
    [noTarget && noUI && noOverlay && longSinceProofread]. *)
Definition client_idle (idle : bool) (s : State) : State :=
  if idle && script_in_document s
  then mkState (script_in_document s) (inpageReady s) (loaded s) (injections s)
         (pings s) (S (idle_disposals s))
  else s.

Inductive Event : Type :=
| Ev_ensure
| Ev_load
| Ev_error
| Ev_heartbeat
| Ev_client_idle (idle : bool).

Definition step (s : State) (ev : Event) : State :=
  match ev with
  | Ev_ensure => ensureInpage s
  | Ev_load => onload s
  | Ev_error => onerror s
  | Ev_heartbeat => heartbeat s
  | Ev_client_idle idle => client_idle idle s
  end.

Definition run (tr : list Event) (s : State) : State := fold_left step tr s.

End Injector.

(** What the in-page script sees over time: messages and idle checks. *)
Module Page.

Import InPage.

Inductive Input : Type :=
| In_message (now : Z) (data : Request)
| In_check (now : Z) (hidden : bool).

Definition step (env : Env) (s : State) (i : Input) : State :=
  match i with
  | In_message now data => fst (on_message now env data s)
  | In_check now hidden => idle_check now hidden s
  end.

Definition run (env : Env) (tr : list Input) (s : State) : State :=
  fold_left (step env) tr s.

(** A message whose method is ['ping'] (the heartbeat). *)
Definition is_ping (i : Input) : bool :=
  match i with
  | In_message _ data => String.eqb (q_method data) "ping"
  | In_check _ _ => false
  end.

(** A message whose method is not ['ping']. *)
Definition is_request (i : Input) : bool :=
  match i with
  | In_message _ data => negb (String.eqb (q_method data) "ping")
  | In_check _ _ => false
  end.

End Page.

(** The getters with the options they are called with (in-page script).
    [getWriter(options)] and [getRewriter(options)] pass their argument on
    to [create({ ...options, ... })]; the state records, for each creation
    started, its kind and the options its closure holds. *)
Module EngineOptions.

Import Registry.

(** [{ tone, length }]; [None] is [undefined]. *)
Record Options : Type := mkOptions {
  tone : option string;
  length_ : option string
}.

(** The default argument [{}]. *)
Definition no_options : Options := mkOptions None None.

Record State : Type := mkState {
  registry : Registry.State;
  captured : list (Kind * Options)
}.

Definition init : State := mkState Registry.init [].

(** [getWriter(options)], [getRewriter(options)], [getProofreader(options)] *)
Definition getEngine (k : Kind) (options : Options) (s : State) : GetResult * State :=
  match cached k (registry s) with
  | Some inst => (Ready inst, s)
  | None =>
      match creating k (registry s) with
      | Some p => (Awaiting p, s)
      | None =>
          let p := List.length (tasks (registry s)) in
          (Awaiting p,
           mkState
             (set_creating k (Some p)
                (set_tasks (tasks (registry s) ++ [(k, Probing)]) (registry s)))
             (captured s ++ [(k, options)]))
      end
  end.

Definition lift (f : Registry.State -> Registry.State) (s : State) : State :=
  mkState (f (registry s)) (captured s).

Inductive Event : Type :=
| Ev_get (k : Kind) (options : Options)
| Ev_avail (p : nat) (a : Availability)
| Ev_created (p : nat) (inst : Z)
| Ev_failed (p : nat) (e : JsError)
| Ev_disposeModels
| Ev_disposeNonProofreader.

Definition step (s : State) (ev : Event) : State :=
  match ev with
  | Ev_get k o => snd (getEngine k o s)
  | Ev_avail p a => lift (avail_resolved p a) s
  | Ev_created p inst => lift (create_resolved p inst) s
  | Ev_failed p e => lift (create_rejected p e) s
  | Ev_disposeModels => lift disposeModels s
  | Ev_disposeNonProofreader => lift disposeNonProofreader s
  end.

Definition run (tr : list Event) (s : State) : State := fold_left step tr s.

(** The options of the creations of kind [k], in the order they started. *)
Definition options_used (k : Kind) (s : State) : list Options :=
  map snd (List.filter (fun ko => bool_decide (fst ko = k)) (captured s)).

(** Events during which nothing is disposed and no creation fails. *)
Definition quiet (ev : Event) : bool :=
  match ev with
  | Ev_get _ _ => true
  | Ev_avail _ a => match a with unavailable => false | _ => true end
  | Ev_created _ _ => true
  | _ => false
  end.

(** The kind has a cached instance or a creation under way. *)
Definition held (k : Kind) (r : Registry.State) : bool :=
  match cached k r, creating k r with
  | None, None => false
  | _, _ => true
  end.

End EngineOptions.

(** The earlier in-page script: getters without creation locks. A getter
    that finds nothing cached runs its own probe and its own [create()],
    and a finished creation stores its instance. *)
Module Legacy.

Record State : Type := mkState {
  cachedWriter : option Z;
  cachedRewriter : option Z;
  cachedProofreader : option Z;
  tasks : list (Registry.Kind * Registry.Task);
  disposed : list Z
}.

Definition init : State := mkState None None None [] [].

Definition cached (k : Registry.Kind) (s : State) : option Z :=
  match k with
  | Registry.Writer => cachedWriter s
  | Registry.Rewriter => cachedRewriter s
  | Registry.Proofreader => cachedProofreader s
  end.

Definition set_cached (k : Registry.Kind) (v : option Z) (s : State) : State :=
  match k with
  | Registry.Writer =>
      mkState v (cachedRewriter s) (cachedProofreader s) (tasks s) (disposed s)
  | Registry.Rewriter =>
      mkState (cachedWriter s) v (cachedProofreader s) (tasks s) (disposed s)
  | Registry.Proofreader =>
      mkState (cachedWriter s) (cachedRewriter s) v (tasks s) (disposed s)
  end.

Definition set_tasks (ts : list (Registry.Kind * Registry.Task)) (s : State) : State :=
  mkState (cachedWriter s) (cachedRewriter s) (cachedProofreader s) ts (disposed s).

(** [getWriter], [getRewriter] and [getProofreader] up to their first
    [await]: the caller holds the cached instance or its own async body. *)
Definition getEngine (k : Registry.Kind) (s : State) : Registry.GetResult * State :=
  match cached k s with
  | Some inst => (Registry.Ready inst, s)
  | None =>
      (Registry.Awaiting (List.length (tasks s)),
       set_tasks (tasks s ++ [(k, Registry.Probing)]) s)
  end.

(** [ensureAvailability] of body [p] resolved with [a]. *)
Definition avail_resolved (p : nat) (a : Registry.Availability) (s : State) : State :=
  match tasks s !! p with
  | Some (k, Registry.Probing) =>
      match a with
      | Registry.unavailable =>
          set_tasks
            (<[p := (k, Registry.Failed
                          (mkError "Error"
                             (Registry.kind_name k +:+ " API unavailable in this browser.")))]>
               (tasks s)) s
      | _ => set_tasks (<[p := (k, Registry.Creating)]> (tasks s)) s
      end
  | _ => s
  end.

(** [Cls.create(...)] of body [p] resolved with [inst]. *)
Definition create_resolved (p : nat) (inst : Z) (s : State) : State :=
  match tasks s !! p with
  | Some (k, Registry.Creating) =>
      set_cached k (Some inst) (set_tasks (<[p := (k, Registry.Done inst)]> (tasks s)) s)
  | _ => s
  end.

(** [Cls.create(...)] of body [p] rejected with [e]. *)
Definition create_rejected (p : nat) (e : JsError) (s : State) : State :=
  match tasks s !! p with
  | Some (k, Registry.Creating) =>
      set_tasks (<[p := (k, Registry.Failed e)]> (tasks s)) s
  | _ => s
  end.

Definition safeDispose (obj : option Z) (s : State) : State :=
  match obj with
  | Some inst =>
      mkState (cachedWriter s) (cachedRewriter s) (cachedProofreader s) (tasks s)
        (disposed s ++ [inst])
  | None => s
  end.

Definition disposeModels (s : State) : State :=
  let s1 := safeDispose (cachedWriter s) s in
  let s2 := safeDispose (cachedRewriter s1) s1 in
  let s3 := safeDispose (cachedProofreader s2) s2 in
  mkState None None None (tasks s3) (disposed s3).

Definition disposeNonProofreader (s : State) : State :=
  let s1 := safeDispose (cachedWriter s) s in
  let s2 := safeDispose (cachedRewriter s1) s1 in
  mkState None None (cachedProofreader s2) (tasks s2) (disposed s2).

Definition step (s : State) (ev : Registry.Event) : State :=
  match ev with
  | Registry.Ev_get k => snd (getEngine k s)
  | Registry.Ev_avail p a => avail_resolved p a s
  | Registry.Ev_created p inst => create_resolved p inst s
  | Registry.Ev_failed p e => create_rejected p e s
  | Registry.Ev_disposeModels => disposeModels s
  | Registry.Ev_disposeNonProofreader => disposeNonProofreader s
  end.

Definition run (tr : list Registry.Event) (s : State) : State := fold_left step tr s.

(** [create()] calls of kind [k] that are running. *)
Definition creates_running (k : Registry.Kind) (s : State) : nat :=
  List.length
    (List.filter
       (fun kt => bool_decide (fst kt = k)
                  && match snd kt with Registry.Creating => true | _ => false end)
       (tasks s)).

(** [n] callers ask for an engine of kind [k] before any probe answers;
    then every probe reports the engine available. *)
Definition concurrent_calls (k : Registry.Kind) (n : nat) : list Registry.Event :=
  repeat (Registry.Ev_get k) n
  ++ map (fun p => Registry.Ev_avail p Registry.available) (seq 0 n).

End Legacy.

(** The two listeners joined by [window.postMessage]: what a call of
    [callInpage] gets back from the in-page script. *)
Module Channel.

(** The responses posted by the in-page script reach the content script's
    listener in order. *)
Definition deliver (resps : list Response) (s : Bridge.State) : Bridge.State :=
  fold_left (fun acc data => Bridge.on_message data acc) resps s.

(** The heartbeat's message: [{ __gx: true, direction: 'cs->inpage', id: 0,
    method: 'ping', params: {} }]. *)
Definition heartbeat_ping : Request := mkRequest true "cs->inpage" 0 "ping" (JObj []).

End Channel.

(** Offsets and DOM positions in a [contentEditable] host. The host is
    seen as the tree walker of the source sees it: the list of its text
    nodes in document order. A boundary point is a container and an offset
    in it. *)
Module Offsets.

Inductive Container : Type :=
| TextNode (i : nat)
| Root.

Record Boundary : Type := mkBoundary {
  container : Container;
  offset : Z
}.

(** The [while (node)] loop of [setRangeByOffsets]: [i] is the position of
    the walker, [acc] the characters passed, [sNode] the start found so
    far. The result is the pair [(sNode, eNode)] with their offsets. *)
Fixpoint walk (nodes : list string) (i : nat) (acc sOff eOff : Z)
    (sNode : option Boundary) : option Boundary * option Boundary :=
  match nodes with
  | [] => (sNode, None)
  | t :: rest =>
      let len := strlen t in
      let sNode' :=
        match sNode with
        | None =>
            if sOff <=? acc + len then Some (mkBoundary (TextNode i) (sOff - acc))
            else None
        | Some b => Some b
        end in
      if eOff <=? acc + len
      then (sNode', Some (mkBoundary (TextNode i) (eOff - acc)))
      else walk rest (S i) (acc + len) sOff eOff sNode'
  end.

(** [setStart(node, offset)] and [setEnd(node, offset)] take the offset as
    an [unsigned long] and throw ([None]) when it exceeds the length of the
    container. The root is only ever given offset 0. *)
Definition boundary (nodes : list string) (b : Boundary) : option Boundary :=
  let o := Editing.to_uint32 (offset b) in
  match container b with
  | TextNode i =>
      match nodes !! i with
      | Some t => if o <=? strlen t then Some (mkBoundary (TextNode i) o) else None
      | None => None
      end
  | Root => if o =? 0 then Some (mkBoundary Root 0) else None
  end.

(** Document order of boundary points. *)
Definition precedes (a b : Boundary) : bool :=
  match container a, container b with
  | Root, Root => offset a <? offset b
  | Root, TextNode _ => true
  | TextNode _, Root => false
  | TextNode i, TextNode j => (i <? j)%nat || ((i =? j)%nat && (offset a <? offset b))
  end.

(** [setRangeByOffsets(root, sOff, eOff)]: [None] is the [null] returned
    when [setStart] or [setEnd] throws. An end set before the start moves
    the start to it. *)
Definition setRangeByOffsets (nodes : list string) (sOff eOff : Z)
  : option (Boundary * Boundary) :=
  let '(sNode, eNode) := walk nodes 0 0 sOff eOff None in
  let s := match sNode with Some b => b | None => mkBoundary Root 0 end in
  let e := match eNode with Some b => b | None => s end in
  match boundary nodes s, boundary nodes e with
  | Some s', Some e' => Some (if precedes e' s' then (e', e') else (s', e'))
  | _, _ => None
  end.

(** The [while (node)] loop of [getCaretIndexInEditable], for a collapsed
    selection at [b] inside the host. *)
Fixpoint caret_walk (nodes : list string) (i : nat) (index : Z) (b : Boundary) : Z :=
  match nodes with
  | [] => index
  | t :: rest =>
      match container b with
      | TextNode j =>
          if (i =? j)%nat then index + offset b
          else caret_walk rest (S i) (index + strlen t) b
      | Root => caret_walk rest (S i) (index + strlen t) b
      end
  end.

Definition getCaretIndexInEditable (nodes : list string) (b : Boundary) : Z :=
  caret_walk nodes 0 0 b.

(** The characters of the host's text nodes. *)
Definition total (nodes : list string) : Z :=
  fold_right (fun t acc => strlen t + acc) 0 nodes.

End Offsets.

(* ===================================================================== *)
(** * Properties *)
(* ===================================================================== *)

(** ** Strings as character lists *)

Section StringFacts.

Local Abbreviation chars := list_ascii_of_string.

Lemma chars_inj (a b : string) : chars a = chars b -> a = b.
Proof.
  intros H.
  rewrite <- (string_of_list_ascii_of_string a), <- (string_of_list_ascii_of_string b).
  now rewrite H.
Qed.

Lemma chars_app (a b : string) : chars (a +:+ b) = chars a ++ chars b.
Proof. induction a as [|c a IH]; simpl; [reflexivity | now rewrite IH]. Qed.

Lemma chars_take (n : nat) (s : string) : chars (str_take n s) = take n (chars s).
Proof.
  revert s; induction n as [|n IH]; intros [|c s]; simpl; try reflexivity.
  now rewrite IH.
Qed.

Lemma chars_drop (n : nat) (s : string) : chars (str_drop n s) = drop n (chars s).
Proof.
  revert s; induction n as [|n IH]; intros [|c s]; simpl; try reflexivity.
  apply IH.
Qed.

Lemma strlen_chars (s : string) : strlen s = Z.of_nat (List.length (chars s)).
Proof.
  unfold strlen. f_equal.
  induction s as [|c s IH]; simpl; [reflexivity | now rewrite IH].
Qed.

Lemma strlen_nonneg (s : string) : 0 <= strlen s.
Proof. unfold strlen; lia. Qed.

Lemma is_empty_true (s : string) : is_empty s = true <-> s = "".
Proof. destruct s; simpl; split; congruence. Qed.

Lemma is_empty_strlen (s : string) : is_empty s = true <-> strlen s = 0.
Proof. destruct s; unfold strlen; simpl; split; (congruence || lia). Qed.

Lemma slice_index_in (len i : Z) : 0 <= i <= len -> slice_index len i = i.
Proof. unfold slice_index; intros H. destruct (Z.ltb_spec i 0); lia. Qed.

(** [slice] inside the bounds of the string is take-after-drop. *)
Lemma chars_slice (s : string) (a b : Z) :
  0 <= a <= strlen s -> 0 <= b <= strlen s ->
  chars (slice s a b) = take (Z.to_nat (b - a)) (drop (Z.to_nat a) (chars s)).
Proof.
  intros Ha Hb. unfold slice.
  rewrite !slice_index_in by assumption.
  now rewrite chars_take, chars_drop.
Qed.

Lemma chars_slice_from (s : string) (a : Z) :
  0 <= a <= strlen s -> chars (slice_from s a) = drop (Z.to_nat a) (chars s).
Proof.
  intros Ha. unfold slice_from.
  rewrite slice_index_in by assumption. apply chars_drop.
Qed.

Lemma strlen_slice (s : string) (a b : Z) :
  0 <= a <= b -> b <= strlen s -> strlen (slice s a b) = b - a.
Proof.
  intros Ha Hb.
  rewrite (strlen_chars (slice s a b)), chars_slice by lia.
  rewrite strlen_chars in Hb.
  rewrite length_take, length_drop. lia.
Qed.

Lemma strlen_app (a b : string) : strlen (a +:+ b) = strlen a + strlen b.
Proof. rewrite !strlen_chars, chars_app, length_app. lia. Qed.

End StringFacts.

(** ** The stable sort *)

Section SortFacts.

Context {A : Type} (cmp : A -> A -> Z).

Lemma insert_sorted_perm (x : A) (l : list A) :
  Permutation (insert_sorted cmp x l) (x :: l).
Proof.
  induction l as [|y l IH]; simpl; [reflexivity|].
  destruct (cmp x y <=? 0); [reflexivity|].
  rewrite IH. apply perm_swap.
Qed.

Lemma sort_perm (l : list A) : Permutation (sort cmp l) l.
Proof.
  induction l as [|x l IH]; simpl; [reflexivity|].
  rewrite insert_sorted_perm. now constructor.
Qed.

(** Sortedness for a comparator that subtracts keys. *)
Context (key : A -> Z) (sign : Z).
Hypothesis sign_unit : sign = 1 \/ sign = -1.
Hypothesis cmp_key : forall a b, cmp a b = sign * (key a - key b).

Let ordered (a b : A) : Prop := sign * key a <= sign * key b.

Lemma insert_sorted_sorted (x : A) (l : list A) :
  StronglySorted ordered l -> StronglySorted ordered (insert_sorted cmp x l).
Proof.
  induction 1 as [|y l Hl IH Hy]; simpl.
  - repeat constructor.
  - destruct (Z.leb_spec (cmp x y) 0) as [Hc|Hc]; rewrite cmp_key in Hc.
    + constructor; [now constructor|].
      constructor; [unfold ordered; lia|].
      eapply Forall_impl; [exact Hy|]. unfold ordered; intros z Hz; simpl in *; lia.
    + constructor; [exact IH|].
      rewrite insert_sorted_perm. constructor; [unfold ordered; lia | exact Hy].
Qed.

Lemma sort_sorted (l : list A) : StronglySorted ordered (sort cmp l).
Proof.
  induction l as [|x l IH]; simpl; [constructor | now apply insert_sorted_sorted].
Qed.

(** A symmetric relation that holds between all pairs of a list holds
    between all pairs of its sorted copy. *)
Context (R : A -> A -> Prop).
Hypothesis R_sym : forall a b, R a b -> R b a.

Lemma insert_sorted_pairs (x : A) (l : list A) :
  Forall (R x) l -> ForallOrdPairs R l -> ForallOrdPairs R (insert_sorted cmp x l).
Proof.
  induction l as [|y l IH]; simpl; intros Hx Hl.
  - constructor; [constructor | constructor].
  - destruct (cmp x y <=? 0); [now constructor|].
    inversion Hx as [|? ? Hxy Hxl]; subst.
    inversion Hl as [|? ? Hyl Hl']; subst.
    constructor; [|now apply IH].
    rewrite insert_sorted_perm. constructor; [now apply R_sym | exact Hyl].
Qed.

Lemma sort_pairs (l : list A) :
  ForallOrdPairs R l -> ForallOrdPairs R (sort cmp l).
Proof.
  induction 1 as [|x l Hx Hl IH]; simpl; [constructor|].
  apply insert_sorted_pairs; [|exact IH].
  now rewrite sort_perm.
Qed.

End SortFacts.

(** ** Correction normalizer and renderer *)

Module NormalizerFacts.

Import Normalizer EditSpec.

Definition in_bounds (base : string) (r : Range) : Prop :=
  0 <= start r /\ start r <= end_ r /\ end_ r <= strlen base.

(** Two ranges do not overlap and do not start at the same offset. *)
Definition separated (a b : Range) : Prop :=
  (end_ a <= start b /\ start a < start b)
  \/ (end_ b <= start a /\ start b < start a).

Definition well_separated (base : string) (rs : list Range) : Prop :=
  Forall (in_bounds base) rs /\ ForallOrdPairs separated rs.

(** [a] lies wholly before [b]. *)
Definition before (a b : Range) : Prop :=
  end_ a <= start b /\ start a < start b.

Lemma separated_sym (a b : Range) : separated a b -> separated b a.
Proof. unfold separated; tauto. Qed.

Lemma StronglySorted_weaken {A : Type} (R R' : A -> A -> Prop) (l : list A) :
  (forall a b, R a b -> R' a b) -> StronglySorted R l -> StronglySorted R' l.
Proof.
  intros HR; induction 1 as [|x l Hl IH Hx]; constructor; [exact IH|].
  eapply Forall_impl; [exact Hx | auto].
Qed.

Lemma sort_asc_sorted (rs : list Range) :
  StronglySorted (fun a b => start a <= start b) (sort by_start_asc rs).
Proof.
  eapply StronglySorted_weaken;
    [|apply (sort_sorted by_start_asc start 1); unfold by_start_asc; intros; lia].
  simpl; intros; lia.
Qed.

(** In a list of separated ranges sorted by start, each range lies wholly
    before the ones that follow. *)
Lemma sorted_separated_chain (l : list Range) :
  StronglySorted (fun a b => start a <= start b) l ->
  ForallOrdPairs separated l ->
  StronglySorted before l.
Proof.
  induction 1 as [|x l Hl IH Hx]; intros Hp; [constructor|].
  inversion Hp as [|? ? Hsep Hp']; subst.
  constructor; [now apply IH|].
  rewrite Forall_forall in *. intros y Hy.
  specialize (Hx y Hy). specialize (Hsep y Hy).
  unfold separated, before in *. lia.
Qed.

Lemma insert_desc_last (x : Range) (l : list Range) :
  Forall (fun y => start x < start y) l ->
  insert_sorted by_start_desc x l = l ++ [x].
Proof.
  induction 1 as [|y l Hy Hl IH]; simpl; [reflexivity|].
  unfold by_start_desc at 1.
  destruct (Z.leb_spec (start y - start x) 0); [lia | now rewrite IH].
Qed.

Lemma insert_desc_snoc (x y : Range) (l : list Range) :
  start y < start x ->
  insert_sorted by_start_desc x (l ++ [y]) = insert_sorted by_start_desc x l ++ [y].
Proof.
  intros Hyx. induction l as [|z l IH]; simpl.
  - unfold by_start_desc. destruct (Z.leb_spec (start y - start x) 0); [reflexivity | lia].
  - destruct (by_start_desc x z <=? 0); [reflexivity | now rewrite IH].
Qed.

Lemma insert_desc_rev (x : Range) (l : list Range) :
  StronglySorted (fun a b => start a <= start b) l ->
  Forall (fun y => start x <> start y) l ->
  insert_sorted by_start_desc x (rev l) = rev (insert_sorted by_start_asc x l).
Proof.
  induction 1 as [|y l Hl IH Hy]; intros Hne; simpl; [reflexivity|].
  inversion Hne as [|? ? Hxy Hne']; subst.
  unfold by_start_asc at 1.
  destruct (Z.leb_spec (start x - start y) 0) as [Hc|Hc].
  - simpl. apply insert_desc_last.
    apply Forall_app; split.
    + apply Forall_rev. eapply Forall_impl; [exact Hy|]. simpl; intros; lia.
    + repeat constructor. lia.
  - simpl. rewrite insert_desc_snoc by lia. now rewrite IH.
Qed.

(** With distinct starts, the descending sort is the ascending sort read
    backwards. *)
Lemma sort_desc_rev_asc (rs : list Range) :
  ForallOrdPairs separated rs ->
  sort by_start_desc rs = rev (sort by_start_asc rs).
Proof.
  induction 1 as [|x l Hx Hl IH]; simpl; [reflexivity|].
  rewrite IH. apply insert_desc_rev; [apply sort_asc_sorted|].
  rewrite sort_perm.
  eapply Forall_impl; [exact Hx|]. unfold separated; simpl; intros; lia.
Qed.

Section Synthesis.

Variable base : string.

(** Splicing an edit into a text that still starts with the first
    [end_ r] characters of [base]. *)
Lemma splice_on_prefix (r : Range) (tail : string) :
  in_bounds base r ->
  splice (str_take (Z.to_nat (end_ r)) base +:+ tail) r
  = str_take (Z.to_nat (start r)) base
    +:+ (match replacement r with
         | Some t => t
         | None => slice base (start r) (end_ r)
         end)
    +:+ tail.
Proof.
  intros (H0 & Hse & Hel).
  set (out := str_take (Z.to_nat (end_ r)) base +:+ tail).
  assert (Hlen : end_ r <= strlen out).
  { unfold out. rewrite strlen_app, (strlen_chars (str_take _ _)), chars_take.
    rewrite length_take. rewrite strlen_chars in Hel.
    pose proof (strlen_nonneg tail). lia. }
  unfold splice. fold out.
  replace (Z.max 0 (Z.min (strlen out) (start r))) with (start r) by lia.
  replace (Z.max (start r) (Z.min (strlen out) (end_ r))) with (end_ r) by lia.
  assert (Hpre : list_ascii_of_string out
                 = take (Z.to_nat (end_ r)) (list_ascii_of_string base)
                   ++ list_ascii_of_string tail).
  { unfold out. now rewrite chars_app, chars_take. }
  assert (Htl : List.length (take (Z.to_nat (end_ r)) (list_ascii_of_string base))
                = Z.to_nat (end_ r)).
  { rewrite length_take. rewrite strlen_chars in Hel. lia. }
  apply chars_inj. rewrite !chars_app.
  rewrite chars_slice, chars_slice_from by lia.
  rewrite Hpre, chars_take.
  f_equal; [|f_equal].
  - rewrite Z.sub_0_r. change (Z.to_nat 0) with 0%nat. rewrite drop_0.
    rewrite take_app_le by lia. rewrite take_take. f_equal. lia.
  - destruct (replacement r); [reflexivity|].
    rewrite chars_slice, chars_slice by lia.
    rewrite Hpre. rewrite drop_app_le by lia.
    rewrite take_app_le by (rewrite length_drop; lia).
    rewrite !take_drop_commute.
    rewrite take_take. do 2 f_equal. lia.
  - rewrite drop_app_length'; [reflexivity | now rewrite Htl].
Qed.

(** Right-to-left splicing of a chain of edits rebuilds the text that the
    left-to-right reading produces from any cursor not past the chain. *)
Lemma splice_chain (l : list Range) (c : Z) :
  StronglySorted before l ->
  Forall (in_bounds base) l ->
  Forall (fun r => c <= start r) l ->
  0 <= c <= strlen base ->
  fold_right (fun r out => splice out r) base l
  = str_take (Z.to_nat c) base +:+ applyLeftToRight_from base c l.
Proof.
  intros Hs; revert c; induction Hs as [|r l Hl IH Hr]; intros c Hb Hc Hc0.
  - simpl. apply chars_inj.
    rewrite chars_app, chars_take, chars_slice_from by lia.
    now rewrite take_drop.
  - inversion Hb as [|? ? Hbr Hbl]; subst.
    inversion Hc as [|? ? Hcr Hcl]; subst.
    destruct Hbr as (H0 & Hse & Hel).
    simpl fold_right.
    rewrite (IH (end_ r)); [| exact Hbl | | lia].
    2:{ eapply Forall_impl; [exact Hr|]. unfold before; simpl; intros; lia. }
    rewrite splice_on_prefix by (repeat split; lia).
    simpl applyLeftToRight_from.
    replace (Z.max 0 (Z.min (strlen base) (start r))) with (start r) by lia.
    replace (Z.max (start r) (Z.min (strlen base) (end_ r))) with (end_ r) by lia.
    apply chars_inj. rewrite !chars_app, !chars_take.
    rewrite chars_slice by lia.
    rewrite (app_assoc (take (Z.to_nat c) _)). f_equal.
    rewrite take_drop_commute.
    rewrite <- (take_drop (Z.to_nat c)
                  (take (Z.to_nat (start r)) (list_ascii_of_string base))) at 1.
    rewrite take_take. f_equal; [f_equal; lia|].
    do 2 f_equal. lia.
Qed.

Lemma synthesize_left_to_right (rs : list Range) :
  well_separated base rs ->
  synthesize base rs = applyLeftToRight base rs.
Proof.
  intros [Hb Hp]. unfold synthesize, applyLeftToRight.
  rewrite sort_desc_rev_asc by exact Hp.
  rewrite <- fold_left_rev_right, rev_involutive.
  rewrite (splice_chain _ 0).
  - reflexivity.
  - apply sorted_separated_chain; [apply sort_asc_sorted|].
    apply sort_pairs; [apply separated_sym | exact Hp].
  - now rewrite sort_perm.
  - rewrite sort_perm. eapply Forall_impl; [exact Hb|]. unfold in_bounds; simpl; intros; lia.
  - pose proof (strlen_nonneg base); lia.
Qed.

End Synthesis.

(** The string the engine supplied for the corrected text, if any. *)
Definition supplied (apiResult : JsVal) : string :=
  toString (js_or (js_or (opt_get apiResult "corrected") (opt_get apiResult "text"))
              (JStr "")).

Lemma corrected_unfold (base : string) (apiResult : JsVal) :
  corrected (buildProofreadPayload base apiResult)
  = let rs := ranges (buildProofreadPayload base apiResult) in
    let c1 := if is_empty (supplied apiResult) && (0 <? Z.of_nat (List.length rs))
              then synthesize base rs else supplied apiResult in
    if is_empty c1 then base else c1.
Proof. reflexivity. Qed.

(** A record in the direct [{start, end}] convention. *)
Definition direct_record (se : Z * Z) : JsVal :=
  JObj [("start", JNum (fst se)); ("end", JNum (snd se))].

Lemma normalizeRanges_direct (l : list (Z * Z)) :
  normalizeRanges (map direct_record l) = map (fun se => mkRange (fst se) (snd se) None) l.
Proof.
  unfold normalizeRanges.
  assert (H : mapM resolve (map direct_record l)
              = Some (map (fun se => Some (mkRange (fst se) (snd se) None)) l)).
  { induction l as [|[s e] l IH]; [reflexivity|].
    cbn [map mapM]. rewrite IH. reflexivity. }
  rewrite H. clear H.
  induction l as [|[s e] l IH]; [reflexivity|].
  cbn. f_equal. exact IH.
Qed.

(** The alternative field conventions, on concrete records. *)

Example resolve_offset_length :
  resolve (JObj [("offset", JNum 4); ("length", JNum 3);
                 ("suggestions", JArr [JObj [("replacement", JStr "cat")]])])
  = Some (Some (mkRange 4 7 (Some "cat"))).
Proof. reflexivity. Qed.

Example resolve_nested_range :
  resolve (JObj [("range", JObj [("start", JNum 1); ("end", JNum 2)]);
                 ("correction", JStr "x"); ("replacement", JStr "y")])
  = Some (Some (mkRange 1 2 (Some "x"))).
Proof. reflexivity. Qed.

Example resolve_index_names :
  resolve (JObj [("startIndex", JNum 2); ("endIndex", JNum 5);
                 ("suggestions", JArr [JObj [("text", JStr "the")]])])
  = Some (Some (mkRange 2 5 (Some "the"))).
Proof. reflexivity. Qed.

Example resolve_without_end :
  resolve (JObj [("start", JNum 1); ("replacement", JStr "y")]) = Some None.
Proof. reflexivity. Qed.

Example normalize_null_record :
  normalizeRanges [JObj [("start", JNum 0); ("end", JNum 1)]; JNull] = [].
Proof. reflexivity. Qed.

Example supplied_string_wins :
  corrected (buildProofreadPayload "Teh cat"
               (JObj [("corrected", JStr "The cat");
                      ("corrections", JArr [JObj [("start", JNum 0); ("end", JNum 3);
                                                  ("replacement", JStr "A")]])]))
  = "The cat".
Proof. reflexivity. Qed.

Section Render.

Import Overlay.

Variable text : string.

(** The underlined span a range produces, if it is not empty once clamped. *)
Definition clamp_seg (r : Range) : option Segment :=
  let s := Z.max 0 (Z.min (strlen text) (start r)) in
  let e := Z.max s (Z.min (strlen text) (end_ r)) in
  if s <? e then Some (mkSegment s e true) else None.

Definition seg_ok (g : Segment) : Prop :=
  0 <= seg_start g /\ seg_start g < seg_end g /\ seg_end g <= strlen text.

Lemma segment_loop (l : list Range) :
  forall (segs : list Segment) (idx : Z),
    0 <= idx <= strlen text ->
    Forall seg_ok segs ->
    let r := fold_left (segment_step text) l (segs, idx) in
    0 <= snd r <= strlen text
    /\ Forall seg_ok (fst r)
    /\ List.filter underline (fst r) = List.filter underline segs ++ omap clamp_seg l.
Proof.
  induction l as [|x l IH]; intros segs idx Hidx Hsegs; simpl.
  - repeat split; try lia; [exact Hsegs | now rewrite app_nil_r].
  - set (s := Z.max 0 (Z.min (strlen text) (start x))).
    set (e := Z.max s (Z.min (strlen text) (end_ x))).
    pose proof (strlen_nonneg text) as Hlen.
    specialize (IH ((if s <? e
                     then (if idx <? s then segs ++ [mkSegment idx s false] else segs)
                          ++ [mkSegment s e true]
                     else (if idx <? s then segs ++ [mkSegment idx s false] else segs)))
                   e).
    destruct IH as (Hi & Hf & Hu); [lia | |].
    { destruct (Z.ltb_spec s e), (Z.ltb_spec idx s);
        rewrite ?Forall_app; repeat split; try exact Hsegs;
        repeat constructor; simpl; lia. }
    repeat split; try (apply Hi); [exact Hf|].
    rewrite Hu. unfold clamp_seg at 2. fold s e.
    destruct (Z.ltb_spec s e), (Z.ltb_spec idx s);
      rewrite ?List.filter_app; simpl; rewrite ?app_nil_r, <- ?app_assoc; reflexivity.
Qed.

Lemma segments_of_spec (rs : list Range) :
  Forall seg_ok (segments_of text rs)
  /\ List.filter underline (segments_of text rs) = omap clamp_seg (sort by_start_asc rs).
Proof.
  unfold segments_of.
  pose proof (strlen_nonneg text) as Hlen.
  destruct (segment_loop (sort by_start_asc rs) [] 0) as (Hi & Hf & Hu);
    [lia | constructor |].
  destruct (fold_left (segment_step text) (sort by_start_asc rs) ([], 0)) as [segs idx].
  simpl in Hi, Hf, Hu.
  destruct (Z.ltb_spec idx (strlen text)).
  - split.
    + apply Forall_app; split; [exact Hf|]. repeat constructor; simpl; lia.
    + rewrite List.filter_app; simpl. now rewrite app_nil_r.
  - now split.
Qed.

Lemma seg_ok_slice (g : Segment) :
  seg_ok g -> negb (is_empty (slice text (seg_start g) (seg_end g))) = true.
Proof.
  intros (H0 & H1 & H2).
  destruct (is_empty _) eqn:E; [|reflexivity].
  apply is_empty_strlen in E. rewrite strlen_slice in E by lia. lia.
Qed.

Lemma render_segments (rs : list Range) :
  is_empty text = false -> render text rs = segments_of text rs.
Proof.
  intros Ht. unfold render. rewrite Ht.
  destruct (segments_of_spec rs) as [Hok _].
  induction Hok as [|g l Hg Hl IH]; simpl; [reflexivity|].
  now rewrite seg_ok_slice, IH.
Qed.



End Render.

(** *** Range clamp and sort *)
















(** *** Corrected-text synthesis *)

Definition teh_cat_result : JsVal :=
  JObj [("corrections",
         JArr [JObj [("start", JNum 0); ("end", JNum 3); ("replacement", JStr "The")]])].

Definition past_the_end_result : JsVal :=
  JObj [("corrections",
         JArr [JObj [("start", JNum 5); ("end", JNum 7); ("replacement", JStr "X")];
               JObj [("start", JNum 9); ("end", JNum 10); ("replacement", JStr "Z")]])].

(** C4, as stated, fails: for the text "abc" and two insertions placed
    past its end, at offsets 5 and 9, the synthesized string is "abcZX"
    (each splice is clamped to the working copy, which has grown), while
    applying the edits left-to-right against the original offsets gives
    "abcXZ". *)
Lemma C4_synthesis_differs_past_the_end :
  corrected (buildProofreadPayload "abc" past_the_end_result) = "abcZX"
  /\ applyLeftToRight "abc" (ranges (buildProofreadPayload "abc" past_the_end_result))
     = "abcXZ"
  /\ corrected (buildProofreadPayload "abc" past_the_end_result)
     <> applyLeftToRight "abc" (ranges (buildProofreadPayload "abc" past_the_end_result)).
Proof. repeat split; try reflexivity. discriminate. Qed.

(** Overlapping edits: the later edit swallows the earlier splice. *)
Example synthesis_differs_on_overlap :
  synthesize "abcdef" [mkRange 0 4 (Some "X"); mkRange 2 6 (Some "Y")] = "X"
  /\ applyLeftToRight "abcdef" [mkRange 0 4 (Some "X"); mkRange 2 6 (Some "Y")] = "XY".
Proof. split; reflexivity. Qed.

(** Two insertions at one offset come out in opposite orders. *)
Example synthesis_differs_on_equal_starts :
  synthesize "ab" [mkRange 1 1 (Some "X"); mkRange 1 1 (Some "Y")] = "aYXb"
  /\ applyLeftToRight "ab" [mkRange 1 1 (Some "X"); mkRange 1 1 (Some "Y")] = "aXYb".
Proof. split; reflexivity. Qed.

(** C4, amended: when the engine result carries no corrected string and
    its resolved ranges lie inside the text, do not overlap and start at
    distinct offsets, the string synthesized by right-to-left splicing
    equals the result of applying the edits left-to-right against the
    original offsets, and it is the corrected string returned (the text
    itself when the synthesis is empty); for "Teh cat sat" with the single
    correction (0, 3, "The") the corrected string is "The cat sat". *)
Theorem C4_synthesis_left_to_right :
  forall (base : string) (apiResult : JsVal),
    is_empty (supplied apiResult) = true ->
    ranges (buildProofreadPayload base apiResult) <> [] ->
    well_separated base (ranges (buildProofreadPayload base apiResult)) ->
    let rs := ranges (buildProofreadPayload base apiResult) in
    synthesize base rs = applyLeftToRight base rs
    /\ corrected (buildProofreadPayload base apiResult)
       = (if is_empty (applyLeftToRight base rs) then base else applyLeftToRight base rs)
    /\ corrected (buildProofreadPayload "Teh cat sat" teh_cat_result) = "The cat sat".
Proof.
  intros base apiResult Hsup Hne Hwf rs.
  assert (Heq : synthesize base rs = applyLeftToRight base rs)
    by (now apply synthesize_left_to_right).
  split; [exact Heq | split; [| reflexivity]].
  rewrite corrected_unfold. fold rs. cbv zeta. rewrite Hsup.
  destruct rs as [|r rs'] eqn:E; [contradiction|].
  replace (0 <? Z.of_nat (List.length (r :: rs'))) with true
    by (symmetry; apply Z.ltb_lt; simpl; lia).
  simpl andb. now rewrite Heq.
Qed.

Lemma C4_synthesis_left_to_right_witness :
  corrected (buildProofreadPayload "Teh cat sat" teh_cat_result)
  = applyLeftToRight "Teh cat sat" [mkRange 0 3 (Some "The")].
Proof.
  destruct (C4_synthesis_left_to_right "Teh cat sat" teh_cat_result) as (_ & H & _).
  - reflexivity.
  - discriminate.
  - split.
    + repeat constructor; cbv; discriminate.
    + repeat constructor.
  - exact H.
Defined.

(** *** Fallback to the base text *)

Definition delete_all_result : JsVal :=
  JObj [("corrections",
         JArr [JObj [("start", JNum 0); ("end", JNum 3); ("correction", JStr "")]])].

(** C9: for a non-empty text the corrected string of the payload is never
    empty; when the engine supplies no corrected string and there are no
    ranges, or the synthesis from the ranges is itself empty, the corrected
    string is the text unchanged. *)
Theorem C9_corrected_never_empty :
  forall (base : string) (apiResult : JsVal),
    is_empty base = false ->
    let p := buildProofreadPayload base apiResult in
    is_empty (corrected p) = false
    /\ (is_empty (supplied apiResult) = true ->
        ranges p = [] \/ is_empty (synthesize base (ranges p)) = true ->
        corrected p = base).
Proof.
  intros base apiResult Hbase p. unfold p.
  rewrite corrected_unfold. cbv zeta.
  set (rs := ranges (buildProofreadPayload base apiResult)).
  split.
  - match goal with
    | |- is_empty (if is_empty ?c then _ else _) = false =>
        destruct (is_empty c) eqn:E; [exact Hbase | exact E]
    end.
  - intros Hsup Hcase. rewrite Hsup.
    destruct Hcase as [Hnil | Hsyn].
    + rewrite Hnil. simpl. rewrite Hsup. reflexivity.
    + destruct (0 <? Z.of_nat (List.length rs)); simpl.
      * now rewrite Hsyn.
      * now rewrite Hsup.
Qed.

Lemma C9_corrected_never_empty_witness :
  ranges (buildProofreadPayload "abc" delete_all_result) = [mkRange 0 3 (Some "")]
  /\ corrected (buildProofreadPayload "abc" delete_all_result) = "abc".
Proof.
  split; [reflexivity|].
  apply (C9_corrected_never_empty "abc" delete_all_result); [reflexivity.. | ].
  right. reflexivity.
Defined.

End NormalizerFacts.

(** ** Correlation bridge *)

Module BridgeFacts.

Import Bridge.

Definition timed_out : Settlement := Rejected "In-page call timed out".

(** The entry stored under an id resolves the promise of that id. *)
Definition own_entries (s : State) : Prop :=
  forall j p, pending s !! j = Some p -> p = j.





Definition timeouts (l : list (Z * Z)) (s : State) : State :=
  fold_left (fun acc d => on_timeout (snd d) acc) l s.

Lemma settle_frame (p : Z) (v : Settlement) (s : State) :
  now (settle p v s) = now s
  /\ reqCounter (settle p v s) = reqCounter s
  /\ pending (settle p v s) = pending s
  /\ timers (settle p v s) = timers s.
Proof. unfold settle. destruct (promises s !! p) as [[]|]; simpl; auto. Qed.



Lemma settle_unsettled (p : Z) (v : Settlement) (s : State) :
  promises s !! p = Some Unsettled -> promises (settle p v s) !! p = Some v.
Proof. intros H. unfold settle. rewrite H. simpl. apply lookup_insert_eq. Qed.


(** *** One timeout callback *)

Lemma on_timeout_frame (j : Z) (s : State) :
  now (on_timeout j s) = now s
  /\ reqCounter (on_timeout j s) = reqCounter s
  /\ timers (on_timeout j s) = timers s.
Proof.
  unfold on_timeout. destruct (pending s !! j); [|auto].
  destruct (settle_frame z timed_out (set_pending (delete j (pending s)) s))
    as (H1 & H2 & _ & H4).
  fold timed_out. rewrite H1, H2, H4. auto.
Qed.

Lemma on_timeout_pending (j i : Z) (s : State) :
  pending (on_timeout j s) !! i = if decide (j = i) then None else pending s !! i.
Proof.
  unfold on_timeout. destruct (pending s !! j) eqn:E.
  - destruct (settle_frame z (Rejected "In-page call timed out")
                (set_pending (delete j (pending s)) s)) as (_ & _ & H3 & _).
    rewrite H3. simpl. destruct (decide (j = i)) as [->|Hji].
    + apply lookup_delete_eq.
    + now rewrite lookup_delete_ne.
  - destruct (decide (j = i)) as [->|Hji]; [exact E | reflexivity].
Qed.





(** *** The timers that fire when time passes *)

Lemma timeouts_frame (l : list (Z * Z)) (s : State) :
  now (timeouts l s) = now s
  /\ reqCounter (timeouts l s) = reqCounter s
  /\ timers (timeouts l s) = timers s.
Proof.
  revert s; induction l as [|t l IH]; intros s; simpl; [auto|].
  destruct (IH (on_timeout (snd t) s)) as (H1 & H2 & H3).
  destruct (on_timeout_frame (snd t) s) as (K1 & K2 & K3).
  rewrite H1, H2, H3, K1, K2, K3. auto.
Qed.





(** *** One event *)

Lemma elapse_unfold (dt : N) (s : State) :
  elapse dt s
  = timeouts (List.filter (fun d => fst d <=? now s + Z.of_N dt) (timers s))
      (set_clock (now s + Z.of_N dt)
         (List.filter (fun d => negb (fst d <=? now s + Z.of_N dt)) (timers s)) s).
Proof. reflexivity. Qed.





(** *** The clock *)




(** *** Reachable states *)

Definition well_formed (s : State) : Prop :=
  own_entries s /\ Forall (fun t => snd t < reqCounter s) (timers s).





Lemma late_message_dropped (data : Response) (s : State) :
  pending s !! r_id data = None -> on_message data s = s.
Proof.
  intros H. unfold on_message. rewrite H.
  now destruct (negb (r_gx data) || negb (r_direction data =? "inpage->cs")%string).
Qed.




End BridgeFacts.

(** ** Request handler *)

Module InPageFacts.

Import Registry InPage.

(** An environment in which the engines are ready and [proofread] settles
    as given. *)
Definition env_proofread (o : Outcome JsVal) : Env :=
  mkEnv (fun _ _ _ => Resolves tt) (fun _ => o) (fun _ => Hangs) (fun _ _ => Hangs).

(** The class of failures that the proofread case turns into a cancelled
    payload: the name is "AbortError" up to case, or the lowercased message
    contains "cancel", or the message is empty and the lowercased string
    form of the error contains "cancel". *)
Definition cancellation_class (e : JsError) : bool :=
  String.eqb (toLowerCase (name e)) "aborterror"
  || includes (toLowerCase (message e)) "cancel"
  || (is_empty (message e) && includes (toLowerCase (error_toString e)) "cancel").

Lemma is_cancellation_class (e : JsError) : is_cancellation e = cancellation_class e.
Proof.
  unfold is_cancellation, cancellation_class, cancel_name, cancel_msg.
  destruct (message e) as [|c m] eqn:Em; simpl is_empty; cbv iota.
  - simpl toLowerCase at 2. simpl includes at 2.
    rewrite orb_false_r, andb_true_l. reflexivity.
  - rewrite andb_false_l, orb_false_r. reflexivity.
Qed.

Lemma base_of_text (text : string) :
  toString (js_or (opt_get (js_or (JObj [("text", JStr text)]) (JObj [])) "text") (JStr ""))
  = text.
Proof. destruct text; reflexivity. Qed.

Definition nameless_cancel : JsError := mkError "OperationCancelled" "".

(** C5, as stated, fails: an engine failure named "OperationCancelled" with
    an empty message is not named "AbortError" and its message does not
    contain "cancel", yet the handler returns the cancelled payload instead
    of propagating it, because the test falls back to the string form of
    the error when the message is empty. *)
Lemma C5_nameless_cancel_is_swallowed :
  String.eqb (toLowerCase (name nameless_cancel)) "aborterror" = false
  /\ includes (toLowerCase (message nameless_cancel)) "cancel" = false
  /\ snd (handle 0 (env_proofread (Rejects nameless_cancel)) "proofread"
            (JObj [("text", JStr "abc")]) (init 0))
     = Resolves (RPayload (mkPayload "abc" [] [] true)).
Proof. repeat split. Qed.

(** C5, amended: when the engine's proofread call fails, the handler
    returns normally with [{corrected: text, corrections: [], ranges: [],
    cancelled: true}] exactly when the error is named "AbortError" up to
    case, or its lowercased message contains "cancel", or its message is
    empty and its lowercased string form contains "cancel"; every other
    failure of the call propagates. *)
Theorem C5_cancellation_passthrough :
  forall (now : Z) (env : Env) (text : string) (st : State) (e : JsError),
    engine env Proofreader None None = Resolves tt ->
    proofread_call env text = Rejects e ->
    let out := snd (handle now env "proofread" (JObj [("text", JStr text)]) st) in
    (cancellation_class e = true ->
     out = Resolves (RPayload (mkPayload text [] [] true)))
    /\ (cancellation_class e = false -> out = Rejects e).
Proof.
  intros now env text st e Hengine Hcall out.
  assert (Hout : out = if is_cancellation e
                       then Resolves (RPayload (cancelled_payload text))
                       else Rejects e).
  { unfold out, handle. cbn [String.eqb Ascii.eqb Bool.eqb snd].
    rewrite Hengine. cbn [bind]. rewrite base_of_text, Hcall. reflexivity. }
  rewrite Hout, is_cancellation_class.
  split; intros ->; reflexivity.
Qed.

Definition abort_error : JsError := mkError "AbortError" "The operation was aborted.".

Lemma C5_cancellation_passthrough_witness :
  snd (handle 7 (env_proofread (Rejects abort_error)) "proofread"
         (JObj [("text", JStr "Teh cat")]) (init 0))
  = Resolves (RPayload (mkPayload "Teh cat" [] [] true)).
Proof.
  apply (C5_cancellation_passthrough 7 (env_proofread (Rejects abort_error)) "Teh cat"
           (init 0) abort_error); reflexivity.
Defined.

(** *** Responses *)

Definition known_method (m : string) : bool :=
  existsb (String.eqb m)
    ["ping"; "warmup"; "ensure"; "dispose"; "disposeNonProofreader";
     "write"; "rewrite"; "proofread"].

Definition known_model (which : string) : bool :=
  existsb (String.eqb which) ["proofreader"; "writer"; "rewriter"].

(** The model name as [ensure] reads it. *)
Definition requested_model (params : JsVal) : string :=
  toLowerCase (toString (js_or (opt_get params "model") (JStr ""))).

Definition matching (data : Request) : Prop :=
  q_gx data = true /\ q_direction data = "cs->inpage".

Lemma on_message_matching (now : Z) (env : Env) (data : Request) (st : State) :
  matching data ->
  snd (on_message now env data st)
  = match snd (handle now env (q_method data) (q_params data) st) with
    | Resolves result => [postResponse (q_id data) (Some result) None]
    | Rejects e => [postResponse (q_id data) None (Some (error_text e))]
    | Hangs => []
    end.
Proof.
  intros [Hgx Hdir]. unfold on_message. rewrite Hgx, Hdir. simpl.
  now destruct (handle now env (q_method data) (q_params data) st).
Qed.

Lemma handle_unknown_method (now : Z) (env : Env) (m : string) (params : JsVal) (st : State) :
  known_method m = false ->
  handle now env m params st = (st, Rejects (mkError "Error" ("Unknown method: " +:+ m))).
Proof.
  unfold known_method. cbn [existsb]. rewrite !orb_false_iff.
  intros (H1 & H2 & H3 & H4 & H5 & H6 & H7 & H8 & _).
  unfold handle. now rewrite H1, H2, H3, H4, H5, H6, H7, H8.
Qed.

Lemma handle_unknown_model (now : Z) (env : Env) (params : JsVal) (st : State) :
  known_model (requested_model params) = false ->
  snd (handle now env "ensure" params st)
  = Rejects (mkError "Error" ("Unknown model: " +:+ requested_model params)).
Proof.
  unfold known_model. cbn [existsb]. rewrite !orb_false_iff.
  intros (H1 & H2 & H3 & _).
  unfold handle. cbn [String.eqb Ascii.eqb Bool.eqb snd].
  fold (requested_model params). now rewrite H1, H2, H3.
Qed.

Definition ensure_gpt : Request :=
  mkRequest true "cs->inpage" 4 "ensure" (JObj [("model", JStr "GPT")]).

Definition proofread_hello : Request :=
  mkRequest true "cs->inpage" 5 "proofread" (JObj [("text", JStr "hello")]).

(** C10, as stated, fails twice. An [ensure] request for the model "GPT" is
    answered with the error "Unknown model: gpt", which does not contain
    "Unknown model: GPT": the model name is lowercased before it is
    reported. And a matching [proofread] request whose engine call never
    settles is left without any response. *)
Lemma C10_lowercased_model_and_unanswered_request :
  (snd (on_message 0 (env_proofread Hangs) ensure_gpt (init 0))
   = [mkResponse true "inpage->cs" 4 None (Some "Unknown model: gpt")]
   /\ includes "Unknown model: gpt" "Unknown model: GPT" = false)
  /\ snd (on_message 0 (env_proofread Hangs) proofread_hello (init 0)) = [].
Proof. repeat split. Qed.

(** C10, amended: a matching request is answered at most once, and exactly
    once, under its own id, whenever the promises its handler awaits
    settle; a request whose awaited engine promise never settles gets no
    response. An unrecognized method is answered with the error
    "Unknown method: <method>", and [ensure] with an unrecognized model
    with the error "Unknown model: " followed by the lowercased string
    form of the model parameter. *)
Theorem C10_one_response_per_settled_request :
  forall (now : Z) (env : Env) (data : Request) (st : State),
    matching data ->
    let posts := snd (on_message now env data st) in
    let out := snd (handle now env (q_method data) (q_params data) st) in
    (List.length posts <= 1)%nat
    /\ (out <> Hangs ->
        exists r, posts = [r] /\ r_id r = q_id data /\ r_direction r = "inpage->cs")
    /\ (out = Hangs -> posts = [])
    /\ (known_method (q_method data) = false ->
        posts = [postResponse (q_id data) None
                   (Some ("Unknown method: " +:+ q_method data))])
    /\ (q_method data = "ensure" ->
        known_model (requested_model (q_params data)) = false ->
        posts = [postResponse (q_id data) None
                   (Some ("Unknown model: " +:+ requested_model (q_params data)))]).
Proof.
  intros now env data st Hm posts out.
  assert (Hposts : posts = match out with
                           | Resolves result => [postResponse (q_id data) (Some result) None]
                           | Rejects e => [postResponse (q_id data) None (Some (error_text e))]
                           | Hangs => []
                           end)
    by (now apply on_message_matching).
  split; [|split; [|split; [|split]]].
  - rewrite Hposts. destruct out; simpl; lia.
  - intros Hsettles. rewrite Hposts. destruct out as [r | e |]; [| |contradiction].
    + now eexists.
    + now eexists.
  - intros Hhangs. now rewrite Hposts, Hhangs.
  - intros Hunknown. rewrite Hposts. unfold out.
    now rewrite handle_unknown_method.
  - intros Hensure Hunknown. rewrite Hposts. unfold out.
    rewrite Hensure. now rewrite handle_unknown_model.
Qed.

Definition unknown_method_request : Request :=
  mkRequest true "cs->inpage" 9 "translate" JNull.

Lemma C10_one_response_per_settled_request_witness :
  snd (on_message 0 (env_proofread Hangs) unknown_method_request (init 0))
  = [mkResponse true "inpage->cs" 9 None (Some "Unknown method: translate")].
Proof.
  apply (C10_one_response_per_settled_request 0 (env_proofread Hangs)
           unknown_method_request (init 0)).
  - split; reflexivity.
  - reflexivity.
Defined.

End InPageFacts.

(** ** Idle monitor *)

Module LivenessFacts.

Import Registry InPage.

Definition visible_checks (t0 : Z) (n : nat) : list (Z * bool) :=
  map (fun t => (t, false)) (check_times t0 n).

Definition hidden_checks (t0 : Z) (n : nat) : list (Z * bool) :=
  map (fun t => (t, true)) (check_times t0 n).

(** The state right after a disposal at time [t]. *)
Definition disposed_at (t : Z) (s : State) : State :=
  mkState (disposeModels (reg s)) t t (warmupRunning s) (GX_WARMUP_STARTED s).

(** C7, as stated, fails: the script is loaded at time 0 and receives no
    request and no ping; the page stays visible. Over the first six checks
    of the monitor (15 s to 90 s), one unbroken idle episode, full disposal
    is invoked twice, by the third check (45 s) and again by the sixth
    (90 s), not exactly once. *)
Lemma C7_two_disposals_in_one_idle_episode :
  check_times 0 6 = [15000; 30000; 45000; 60000; 75000; 90000]
  /\ fst (idle_checks (visible_checks 0 2) (init 0)) = 0%nat
  /\ fst (idle_checks (visible_checks 0 3) (init 0)) = 1%nat
  /\ fst (idle_checks (visible_checks 0 5) (init 0)) = 1%nat
  /\ fst (idle_checks (visible_checks 0 6) (init 0)) = 2%nat.
Proof. repeat split. Qed.

Lemma check_times_succ (t0 : Z) (m : nat) :
  check_times t0 (S m)
  = (t0 + CHECK_INTERVAL_MS) :: check_times (t0 + CHECK_INTERVAL_MS) m.
Proof.
  unfold check_times. cbn [seq map]. f_equal; try (unfold CHECK_INTERVAL_MS; lia).
  rewrite <- List.seq_shift, List.map_map.
  apply List.map_ext. intros i. unfold CHECK_INTERVAL_MS. lia.
Qed.

Lemma shouldDispose_spec (now : Z) (hidden : bool) (s : State) :
  shouldDispose now hidden s = true
  <-> (if hidden then 20000 else 30000) < now - lastActivityAt s
      \/ 30000 < now - lastPingAt s.
Proof.
  unfold shouldDispose, HIDDEN_IDLE_MS, MODEL_IDLE_MS, PING_MISS_MS.
  rewrite orb_true_iff, !Z.ltb_lt. now destruct hidden.
Qed.

Lemma shouldDispose_fresh (now t : Z) (hidden : bool) (s : State) :
  lastActivityAt s = t -> lastPingAt s = t -> now - t <= 20000 ->
  shouldDispose now hidden s = false.
Proof.
  intros Ha Hp Hd. apply not_true_is_false. rewrite shouldDispose_spec, Ha, Hp.
  destruct hidden; lia.
Qed.

Lemma idle_check_fresh (now t : Z) (hidden : bool) (s : State) :
  lastActivityAt s = t -> lastPingAt s = t -> now - t <= 20000 ->
  idle_check now hidden s = s.
Proof.
  intros Ha Hp Hd. unfold idle_check.
  now rewrite (shouldDispose_fresh now t hidden s).
Qed.

Lemma idle_checks_keep (now : Z) (hidden : bool) (rest : list (Z * bool)) (s : State) :
  shouldDispose now hidden s = false ->
  idle_checks ((now, hidden) :: rest) s = idle_checks rest s.
Proof.
  intros H. cbn [idle_checks]. unfold idle_check. rewrite H.
  now destruct (idle_checks rest s).
Qed.

Lemma idle_checks_fire (now : Z) (hidden : bool) (rest : list (Z * bool)) (s : State) :
  shouldDispose now hidden s = true ->
  idle_checks ((now, hidden) :: rest) s
  = (S (fst (idle_checks rest (disposed_at now s))),
     snd (idle_checks rest (disposed_at now s))).
Proof.
  intros H. cbn [idle_checks]. unfold idle_check. rewrite H.
  fold (disposed_at now s). now destruct (idle_checks rest (disposed_at now s)).
Qed.

(** On the nominal schedule, with no request and no ping, a visible page
    is disposed by every third check. *)
Lemma visible_recurrence (n : nat) :
  forall (t : Z) (s : State),
    lastActivityAt s = t -> lastPingAt s = t ->
    fst (idle_checks (visible_checks t (3 * n)) s) = n.
Proof.
  induction n as [|n IH]; intros t s Ha Hp; [reflexivity|].
  replace (3 * S n)%nat with (S (S (S (3 * n)))) by lia.
  unfold visible_checks. rewrite !check_times_succ. cbn [map].
  rewrite idle_checks_keep
    by (apply (shouldDispose_fresh _ t); auto; unfold CHECK_INTERVAL_MS; lia).
  rewrite idle_checks_keep
    by (apply not_true_is_false; rewrite shouldDispose_spec, Ha, Hp;
        unfold CHECK_INTERVAL_MS; lia).
  rewrite idle_checks_fire
    by (rewrite shouldDispose_spec, Ha, Hp; unfold CHECK_INTERVAL_MS; lia).
  cbn [fst]. f_equal. now apply IH.
Qed.

(** On the nominal schedule a hidden page is disposed by every second
    check. *)
Lemma hidden_recurrence (n : nat) :
  forall (t : Z) (s : State),
    lastActivityAt s = t -> lastPingAt s = t ->
    fst (idle_checks (hidden_checks t (2 * n)) s) = n.
Proof.
  induction n as [|n IH]; intros t s Ha Hp; [reflexivity|].
  replace (2 * S n)%nat with (S (S (2 * n))) by lia.
  unfold hidden_checks. rewrite !check_times_succ. cbn [map].
  rewrite idle_checks_keep
    by (apply (shouldDispose_fresh _ t); auto; unfold CHECK_INTERVAL_MS; lia).
  rewrite idle_checks_fire
    by (rewrite shouldDispose_spec, Ha, Hp; unfold CHECK_INTERVAL_MS; lia).
  cbn [fst]. f_equal. now apply IH.
Qed.

(** The activity threshold that applies to a check, by the visibility of
    the page when the check runs. *)
Definition activity_limit (hidden : bool) : Z :=
  if hidden then HIDDEN_IDLE_MS else MODEL_IDLE_MS.

(** Reference count of the disposals of an idle stretch, in the words of
    the amended claim: after a disposal at time [last], a check disposes
    when it runs more than the activity threshold of its visibility after
    [last], and its time then becomes the time of the last disposal. *)
Fixpoint disposals_since (last : Z) (ticks : list (Z * bool)) : nat :=
  match ticks with
  | [] => 0%nat
  | (t, hidden) :: rest =>
      if activity_limit hidden <? t - last
      then S (disposals_since t rest)
      else disposals_since last rest
  end.

(** When both timestamps are equal, the activity threshold alone decides. *)
Lemma shouldDispose_since (later t : Z) (hidden : bool) (s : State) :
  lastActivityAt s = t -> lastPingAt s = t ->
  shouldDispose later hidden s = (activity_limit hidden <? later - t).
Proof.
  intros Ha Hp. unfold shouldDispose, activity_limit. rewrite Ha, Hp.
  unfold HIDDEN_IDLE_MS, MODEL_IDLE_MS, PING_MISS_MS.
  destruct hidden.
  - destruct (Z.ltb_spec 20000 (later - t)); [reflexivity|].
    cbn [orb]. apply Z.ltb_ge. lia.
  - now rewrite orb_diag.
Qed.

(** With no request and no ping, the checks of the monitor dispose as the
    reference count says, whenever the checks run. *)
Lemma idle_checks_since (ticks : list (Z * bool)) :
  forall (t : Z) (s : State),
    lastActivityAt s = t -> lastPingAt s = t ->
    fst (idle_checks ticks s) = disposals_since t ticks.
Proof.
  induction ticks as [|[now hidden] rest IH]; intros t s Ha Hp; [reflexivity|].
  cbn [disposals_since]. rewrite <- (shouldDispose_since now t hidden s Ha Hp).
  destruct (shouldDispose now hidden s) eqn:E.
  - rewrite idle_checks_fire by exact E. cbn [fst]. f_equal. now apply IH.
  - rewrite idle_checks_keep by exact E. now apply IH.
Qed.

(** The requests that count as model activity. *)
Definition activity_methods : list string :=
  ["warmup"; "ensure"; "write"; "rewrite"; "proofread"].

Lemma activity_sets_lastActivityAt (t : Z) (env : Env) (m : string) (params : JsVal)
    (s : State) :
  In m activity_methods ->
  lastActivityAt (fst (handle t env m params s)) = t
  /\ lastPingAt (fst (handle t env m params s)) = lastPingAt s.
Proof.
  unfold activity_methods. intros Hin.
  destruct Hin as [<-|[<-|[<-|[<-|[<-|[]]]]]]; try (split; reflexivity).
  unfold handle. cbn [String.eqb Ascii.eqb Bool.eqb].
  unfold warmupModels. cbn [touch_activity warmupRunning GX_WARMUP_STARTED].
  destruct (warmupRunning s || GX_WARMUP_STARTED s); [split; reflexivity|].
  destruct (_ && _); split; reflexivity.
Qed.

(** C7, amended: a check of the monitor, whenever it runs, disposes
    exactly when more than 20 s (hidden page) or 30 s (visible page) have
    passed since the last activity, or more than 30 s since the last ping;
    it then runs [disposeModels] and sets both timestamps to the current
    time. After a disposal, with no request and no ping in between, a later
    check disposes again exactly when it runs more than the activity
    threshold of its visibility after that disposal: a check within the
    threshold does not dispose, the first check beyond it does, and so on
    for as long as the idle episode lasts, whenever the checks run. Each of
    the requests warmup, ensure, write, rewrite and proofread sets
    [lastActivityAt], and a ping sets [lastPingAt], to the time it is
    handled. *)
Theorem C7_idle_disposal_recurs :
  forall (now : Z) (hidden : bool) (s : State),
    (shouldDispose now hidden s = true
     <-> (if hidden then HIDDEN_IDLE_MS else MODEL_IDLE_MS) < now - lastActivityAt s
         \/ PING_MISS_MS < now - lastPingAt s)
    /\ (shouldDispose now hidden s = false -> idle_check now hidden s = s)
    /\ (shouldDispose now hidden s = true ->
        idle_check now hidden s = disposed_at now s
        /\ reg (idle_check now hidden s) = disposeModels (reg s)
        /\ lastActivityAt (idle_check now hidden s) = now
        /\ lastPingAt (idle_check now hidden s) = now
        /\ (forall later hidden',
              shouldDispose later hidden' (idle_check now hidden s) = true
              <-> (if hidden' then HIDDEN_IDLE_MS else MODEL_IDLE_MS) < later - now)
        /\ (forall ticks,
              fst (idle_checks ticks (idle_check now hidden s))
              = disposals_since now ticks))
    /\ (forall t env m params,
          In m activity_methods ->
          lastActivityAt (fst (handle t env m params s)) = t
          /\ lastPingAt (fst (handle t env m params s)) = lastPingAt s)
    /\ (forall t env params,
          lastPingAt (fst (handle t env "ping" params s)) = t
          /\ lastActivityAt (fst (handle t env "ping" params s)) = lastActivityAt s).
Proof.
  intros now hidden s. split; [apply shouldDispose_spec|]. split; [|split; [|split]].
  - intros H. unfold idle_check. now rewrite H.
  - intros H.
    assert (E : idle_check now hidden s = disposed_at now s)
      by (unfold idle_check; now rewrite H).
    rewrite E. split; [reflexivity|]. split; [reflexivity|].
    split; [reflexivity|]. split; [reflexivity|]. split.
    + intros later hidden'.
      rewrite (shouldDispose_since later now hidden' (disposed_at now s)) by reflexivity.
      unfold activity_limit. apply Z.ltb_lt.
    + intros ticks. now apply idle_checks_since.
  - intros t env m params Hin. now apply activity_sets_lastActivityAt.
  - intros t env params. split; reflexivity.
Qed.

Lemma C7_idle_disposal_recurs_witness :
  idle_check 45000 false (init 0) = disposed_at 45000 (init 0)
  /\ shouldDispose 75000 false (idle_check 45000 false (init 0)) = false
  /\ shouldDispose 75001 false (idle_check 45000 false (init 0)) = true
  /\ fst (idle_checks [(60000, false); (75001, false); (96000, true)]
            (idle_check 45000 false (init 0))) = 2%nat.
Proof.
  destruct (C7_idle_disposal_recurs 45000 false (init 0)) as (_ & _ & H & _).
  destruct H as (H1 & _ & _ & _ & H5 & H6); [reflexivity|].
  split; [exact H1|]. split; [|split].
  - apply not_true_is_false. rewrite (H5 75000 false). vm_compute. discriminate.
  - apply (H5 75001 false). reflexivity.
  - exact (H6 [(60000, false); (75001, false); (96000, true)]).
Defined.

(** On the nominal schedule (checks exactly 15 s apart) the second check
    after a disposal falls exactly on the 30 s threshold of a visible page
    and does not dispose; a check that runs one millisecond late does. On a
    hidden page whose timers are throttled to 25 s, every check disposes. *)
Example late_checks_dispose_sooner :
  fst (idle_checks [(60000, false); (75000, false)] (idle_check 45000 false (init 0)))
  = 0%nat
  /\ fst (idle_checks [(60000, false); (75001, false)] (idle_check 45000 false (init 0)))
     = 1%nat
  /\ fst (idle_checks [(25000, true); (50000, true); (75000, true)] (init 0)) = 3%nat.
Proof. repeat split. Qed.

End LivenessFacts.

(** ** Realtime pipeline *)

Module RealtimeFacts.

Import Realtime.

(** Whether the firing of the armed timer at time [now], with [text] in the
    surface, issues a proofread call. *)
Definition issues (now : Z) (text : string) (s : Session) : bool :=
  match debounceRef s with
  | Some tm =>
      match action tm with
      | Debounced immediate =>
          negb (MAX_REALTIME_CHARS <? strlen text)
          && negb ((now - lastProofreadAtRef s <? MIN_INTERVAL_MS) && negb immediate)
      | Reschedule => false
      end
  | None => false
  end.

(** The session after a call has been issued: the counter is bumped, the
    call is recorded with the token it captured, the timer is consumed. *)
Definition issued (text : string) (s : Session) : Session :=
  mkSession (overlay s) (overlayRef s) None (inflightRef s + 1) (lastTextRef s)
    (lastRangesRef s) (lastProofreadAtRef s) (calls s ++ [(inflightRef s + 1, text)]).

Lemma fire_issues (now : Z) (text : string) (s : Session) :
  issues now text s = true -> fire now text s = issued text s.
Proof.
  unfold issues, fire. destruct (debounceRef s) as [[d [imm|]]|]; try discriminate.
  simpl. unfold debounced. simpl.
  destruct (MAX_REALTIME_CHARS <? strlen text); [discriminate|].
  destruct ((now - lastProofreadAtRef s <? MIN_INTERVAL_MS) && negb imm); [discriminate|].
  reflexivity.
Qed.

Lemma fire_quiet (now : Z) (text : string) (s : Session) :
  issues now text s = false ->
  inflightRef (fire now text s) = inflightRef s
  /\ calls (fire now text s) = calls s
  /\ applied (fire now text s) = applied s.
Proof.
  unfold issues, fire. destruct (debounceRef s) as [[d [imm|]]|]; simpl; auto.
  unfold debounced. simpl.
  destruct (MAX_REALTIME_CHARS <? strlen text); simpl.
  - intros _. unfold drop_overlay. simpl. now destruct (overlayRef s).
  - destruct ((now - lastProofreadAtRef s <? MIN_INTERVAL_MS) && negb imm);
      [auto | discriminate].
Qed.

(** A response whose token is not the current counter changes nothing. *)
Lemma respond_stale (token : Z) (text : string) (o : CallOutcome) (now : Z) (s : Session) :
  token <> inflightRef s -> respond token text o now s = s.
Proof.
  intros H. unfold respond. destruct (after_catch text o); [|reflexivity].
  apply Z.eqb_neq in H. now rewrite H.
Qed.

Lemma respond_frame (token : Z) (text : string) (o : CallOutcome) (now : Z) (s : Session) :
  inflightRef (respond token text o now s) = inflightRef s
  /\ calls (respond token text o now s) = calls s.
Proof.
  unfold respond. destruct (after_catch text o) as [res|]; [|auto].
  destruct (negb (token =? inflightRef s)); [auto|].
  destruct (match res with
            | Some p => match pp_cancelled p with Some true => true | _ => false end
            | None => false
            end); auto.
Qed.

(** The counter never decreases, and every recorded call captured a token
    that the counter has reached. *)
Definition tokens_bounded (s : Session) : Prop :=
  Forall (fun c => fst c <= inflightRef s) (calls s).

Lemma step_inflight (s : Session) (ev : Event) :
  inflightRef s <= inflightRef (step s ev)
  /\ (tokens_bounded s -> tokens_bounded (step s ev)).
Proof.
  destruct ev as [b | v | now text | token text o now | text o | |].
  - split; [simpl; lia | auto].
  - split; [simpl; lia | auto].
  - cbn [step]. destruct (issues now text s) eqn:E.
    + rewrite fire_issues by exact E. simpl. split; [lia|].
      unfold tokens_bounded. simpl. intros H. apply Forall_app. split.
      * eapply Forall_impl; [exact H|]. simpl; intros; lia.
      * repeat constructor. simpl. lia.
    + destruct (fire_quiet now text s E) as (H1 & H2 & _).
      unfold tokens_bounded. rewrite H1, H2. split; [lia | auto].
  - cbn [step]. destruct (respond_frame token text o now s) as [H1 H2].
    unfold tokens_bounded. rewrite H1, H2. split; [lia | auto].
  - destruct o; (split; [simpl; lia | auto]).
  - unfold tokens_bounded. simpl. split; [lia|].
    intros H. eapply Forall_impl; [exact H|]. simpl; intros; lia.
  - split; [simpl; lia | auto].
Qed.

Lemma run_inflight (tr : list Event) (s : Session) :
  inflightRef s <= inflightRef (run tr s)
  /\ (tokens_bounded s -> tokens_bounded (run tr s)).
Proof.
  revert s; induction tr as [|ev tr IH]; intros s; [split; [simpl; lia | auto]|].
  destruct (step_inflight s ev) as [H1 H2].
  destruct (IH (step s ev)) as [H3 H4].
  change (run (ev :: tr) s) with (run tr (step s ev)).
  split; [lia | auto].
Qed.

Lemma tokens_bounded_init : tokens_bounded init.
Proof. constructor. Qed.

Definition ranges_of (p : ProofreadPayload) : list Range :=
  match pp_ranges p with Some l => l | None => [] end.

Lemma respond_current (token : Z) (text : string) (p : ProofreadPayload) (now : Z)
      (s : Session) :
  token = inflightRef s -> pp_cancelled p <> Some true ->
  respond token text (Returned (Some p)) now s
  = mkSession (Overlay.render_into (overlay s) text (ranges_of p)) (overlayRef s)
      (debounceRef s) (inflightRef s) text (ranges_of p) now (calls s).
Proof.
  intros -> Hc. unfold respond, after_catch. rewrite Z.eqb_refl. simpl.
  destruct (pp_cancelled p) as [[|]|]; [contradiction | reflexivity | reflexivity].
Qed.

Lemma issued_bounded (text : string) (s : Session) :
  tokens_bounded s -> tokens_bounded (issued text s).
Proof.
  intros Hs. unfold tokens_bounded. simpl. apply Forall_app. split.
  - eapply Forall_impl; [exact Hs|]. simpl; intros; lia.
  - repeat constructor. simpl. lia.
Qed.

Lemma calls_kept (c : Z * string) (tr : list Event) (s : Session) :
  In c (calls s) -> In c (calls (run tr s)).
Proof.
  revert s; induction tr as [|ev tr IH]; intros s Hs; [exact Hs|].
  apply IH. destruct ev as [b | v | now text | token text o now | text o | |];
    try exact Hs.
  - cbn [step]. destruct (issues now text s) eqn:E.
    + rewrite fire_issues by exact E. simpl. apply in_or_app. now left.
    + destruct (fire_quiet now text s E) as (_ & H2 & _). now rewrite H2.
  - cbn [step]. destruct (respond_frame token text o now s) as [_ H2]. now rewrite H2.
  - now destruct o.
Qed.

(** X22: the calls issued by [schedule] are guarded. From any state the
    pipeline can reach, let [schedule] issue call A, then, after any
    events, call B. B captured a larger token than A, and from then on a
    response to A handled by [schedule]'s callback, whenever it arrives and
    whatever it carries, leaves the session unchanged: nothing is rendered
    and the last observed text and ranges stay as they are. B's response,
    while B is the newest call, is applied, also when A's response arrived
    first. A response handled by that callback changes something only if
    its token is the current counter, and after a teardown the response to
    any call [schedule] issued before it is discarded, whatever happens in
    between. *)
Theorem pipeline_discards_stale_responses :
  (forall (tr0 : list Event) (nowA : Z) (textA : string) (trAB : list Event)
          (nowB : Z) (textB : string) (trB : list Event),
      let s := run tr0 init in
      let tokenA := inflightRef s + 1 in
      issues nowA textA s = true ->
      let sAB := run trAB (fire nowA textA s) in
      let tokenB := inflightRef sAB + 1 in
      issues nowB textB sAB = true ->
      let sB := fire nowB textB sAB in
      In (tokenA, textA) (calls sB) /\ In (tokenB, textB) (calls sB)
      /\ tokenA < tokenB
      /\ (forall o now, respond tokenA textA o now (run trB sB) = run trB sB)
      /\ (forall oA nowA' p now,
            pp_cancelled p <> Some true ->
            let s' := respond tokenB textB (Returned (Some p)) now
                        (respond tokenA textA oA nowA' sB) in
            lastTextRef s' = textB
            /\ lastRangesRef s' = ranges_of p
            /\ Overlay.spanNodes (overlay s') = Overlay.render textB (ranges_of p)
            /\ lastProofreadAtRef s' = now))
  /\ (forall (s1 : Session) (token : Z) (text : string) (o : CallOutcome) (now : Z),
        respond token text o now s1 <> s1 -> token = inflightRef s1)
  /\ (forall (tr0 : list Event) (token : Z) (text : string) (tr : list Event)
             (o : CallOutcome) (now : Z),
        In (token, text) (calls (run tr0 init)) ->
        respond token text o now (run tr (cleanup (run tr0 init)))
        = run tr (cleanup (run tr0 init))).
Proof.
  split; [|split].
  - intros tr0 nowA textA trAB nowB textB trB s tokenA HA sAB tokenB HB sB.
    assert (EA : fire nowA textA s = issued textA s) by now apply fire_issues.
    assert (EB : sB = issued textB sAB) by now apply fire_issues.
    assert (HAB : tokenA <= inflightRef sAB).
    { unfold sAB. rewrite EA.
      destruct (run_inflight trAB (issued textA s)) as [H _]. simpl in H. exact H. }
    assert (Hcalls : In (tokenA, textA) (calls sAB)).
    { unfold sAB. rewrite EA. apply calls_kept. simpl. apply in_or_app. right. now left. }
    assert (HtB : tokenB <= inflightRef (run trB sB)).
    { destruct (run_inflight trB sB) as [H _]. rewrite EB in H at 1. simpl in H. exact H. }
    split; [rewrite EB; simpl; apply in_or_app; now left|].
    split; [rewrite EB; simpl; apply in_or_app; right; now left|].
    split; [unfold tokenB; lia|].
    split; [intros o now; apply respond_stale; unfold tokenB in *; lia|].
    intros oA nowA' p now Hp s'. unfold s'.
    rewrite (respond_stale tokenA) by (rewrite EB; simpl; unfold tokenB in *; lia).
    rewrite respond_current; [|rewrite EB; reflexivity | exact Hp].
    repeat split.
  - intros s1 token text o now Hchg.
    destruct (Z.eq_dec token (inflightRef s1)) as [E|E]; [exact E|].
    exfalso. apply Hchg. now apply respond_stale.
  - intros tr0 token text tr o now Hin.
    apply respond_stale.
    assert (Hb : tokens_bounded (run tr0 init))
      by (apply run_inflight, tokens_bounded_init).
    unfold tokens_bounded in Hb. rewrite Forall_forall in Hb.
    apply list_elem_of_In, Hb in Hin. simpl in Hin.
    destruct (run_inflight tr (cleanup (run tr0 init))) as [Hm _]. simpl in Hm. lia.
Qed.

Definition sample_payload : ProofreadPayload :=
  mkProofreadPayload "The" [] (Some [mkRange 0 3 (Some "The")]) None.

Lemma pipeline_discards_stale_responses_witness :
  let sB := run [Ev_setup; Ev_fire 1000 "Teh"; Ev_input "Teh "; Ev_fire 1100 "Teh "] init in
  calls sB = [(1, "Teh"); (2, "Teh ")]
  /\ respond 1 "Teh" (Returned (Some sample_payload)) 1200 sB = sB
  /\ respond 2 "Teh " (Returned (Some sample_payload)) 1300 (run [Ev_cleanup] sB)
     = run [Ev_cleanup] sB.
Proof.
  split; [reflexivity|].
  destruct pipeline_discards_stale_responses as (HAB & _ & Hdown).
  destruct (HAB [Ev_setup] 1000 "Teh" [Ev_input "Teh "] 1100 "Teh " [])
    as (_ & _ & _ & H & _); [reflexivity | reflexivity |].
  split; [exact (H (Returned (Some sample_payload)) 1200)|].
  apply (Hdown [Ev_setup; Ev_fire 1000 "Teh"; Ev_input "Teh "; Ev_fire 1100 "Teh "]
           2 "Teh " [] (Returned (Some sample_payload)) 1300).
  simpl. right. now left.
Defined.

(** *** The refresh after an applied suggestion *)

Definition first_fix : ProofreadPayload :=
  mkProofreadPayload "The cat" [] (Some [mkRange 0 3 (Some "The")]) None.

Definition refresh_reply : ProofreadPayload :=
  mkProofreadPayload "The cat" [] (Some [mkRange 4 7 (Some "cot")]) None.

Definition newest_reply : ProofreadPayload :=
  mkProofreadPayload "The cat sat." [] (Some []) None.

(** The session in which the suggestion for "Teh cat" has been applied (the
    refresh [proofreadNow] is then called with the text "The cat"), the
    user has typed on, and [schedule] has issued call 2 for the new text;
    the reply to the refresh has not arrived yet. *)
Definition refresh_in_flight : Session :=
  run [Ev_setup; Ev_fire 1000 "Teh cat";
       Ev_respond 1 "Teh cat" (Returned (Some first_fix)) 1100;
       Ev_input "The cat";
       Ev_input "The cat sat."; Ev_fire 1500 "The cat sat."] init.

(** C1 fails on the code: the refresh issued by [proofreadNow] after an
    applied suggestion captures no token. Its call for "The cat" is older
    than call 2, the newest call of the pipeline, issued for
    "The cat sat."; yet when the reply to the refresh arrives after the
    reply to call 2 has been applied, it is applied too: the last observed
    text and ranges go back to those of the older call and its ranges are
    rendered. The same reply handled by the guarded callback, under any
    token but the current one, would change nothing. Teardown does not
    discard it either: after the cleanup the reply still overwrites the
    last observed text and ranges, and once the effect has run again it is
    rendered into the overlay of the new session. *)
Theorem C1_refresh_applies_a_stale_response :
  calls refresh_in_flight = [(1, "Teh cat"); (2, "The cat sat.")]
  /\ inflightRef refresh_in_flight = 2
  /\ (let s2 := respond 2 "The cat sat." (Returned (Some newest_reply)) 1600
                  refresh_in_flight in
      applied s2 = (Overlay.render "The cat sat." [], "The cat sat.", [], 1600)
      /\ applied (proofreadNow_done "The cat" (Returned (Some refresh_reply)) s2)
         = (Overlay.render "The cat" [mkRange 4 7 (Some "cot")], "The cat",
            [mkRange 4 7 (Some "cot")], 1600)
      /\ Overlay.mounted
           (overlay (proofreadNow_done "The cat" (Returned (Some refresh_reply)) s2))
         = true
      /\ (forall token now,
            token <> 2 ->
            respond token "The cat" (Returned (Some refresh_reply)) now s2 = s2))
  /\ (let s3 := run [Ev_cleanup; Ev_proofreadNow "The cat" (Returned (Some refresh_reply))]
                  refresh_in_flight in
      lastTextRef s3 = "The cat" /\ lastRangesRef s3 = [mkRange 4 7 (Some "cot")])
  /\ (let s4 := run [Ev_cleanup; Ev_setup;
                     Ev_proofreadNow "The cat" (Returned (Some refresh_reply))]
                  refresh_in_flight in
      Overlay.mounted (overlay s4) = true
      /\ Overlay.spanNodes (overlay s4)
         = Overlay.render "The cat" [mkRange 4 7 (Some "cot")]).
Proof.
  split; [reflexivity|]. split; [reflexivity|]. split; [|split].
  - cbv zeta. split; [reflexivity|]. split; [reflexivity|]. split; [reflexivity|].
    intros token now Hne. apply respond_stale. exact Hne.
  - cbv zeta. split; reflexivity.
  - cbv zeta. split; reflexivity.
Qed.

(** *** Throttle *)

Definition first_result : ProofreadPayload := mkProofreadPayload "a" [] (Some []) None.

(** The session after a first proofread completed at time 1000 and the
    user then typed a space. *)
Definition after_space : Session :=
  run [Ev_setup; Ev_fire 1000 "a"; Ev_respond 1 "a" (Returned (Some first_result)) 1000;
       Ev_input "a "] init.

(** C8, as stated, fails: the last proofread completed at time 1000; the
    user types a space, which schedules an immediate check; when its timer
    fires at time 1100, only 100 ms after the last completed proofread, the
    call is issued all the same: the throttle does not apply to immediate
    checks. *)
Lemma C8_immediate_call_bypasses_throttle :
  lastProofreadAtRef after_space = 1000
  /\ debounceRef after_space = Some (mkTimer 0 (Debounced true))
  /\ 1100 - lastProofreadAtRef after_space < MIN_INTERVAL_MS
  /\ calls (fire 1100 "a " after_space) = [(1, "a"); (2, "a ")].
Proof. repeat split. Qed.

(** C8, amended: when the debounce timer of a non-immediate check fires
    less than 700 ms after the last applied proofread, no call is issued
    and none is dropped: a timer is armed for exactly the remaining wait,
    and when it fires an immediate check is scheduled, whose firing issues
    the call with the text the surface then holds, unless that text is
    longer than 2000 characters: then the check issues nothing, arms no
    timer and detaches the overlay. A non-immediate check
    that fires 700 ms or more after the last applied proofread issues its
    call at once, and so does every immediate check (boundary character,
    Enter or Space, first check of a session, rescheduled check), however
    little time has elapsed. *)
Theorem C8_throttle_applies_to_delayed_checks :
  forall (s : Session) (d : Z) (imm : bool) (now : Z) (text : string),
    debounceRef s = Some (mkTimer d (Debounced imm)) ->
    strlen text <= MAX_REALTIME_CHARS ->
    let elapsed := now - lastProofreadAtRef s in
    (imm = false -> elapsed < MIN_INTERVAL_MS ->
     let s1 := fire now text s in
     calls s1 = calls s
     /\ inflightRef s1 = inflightRef s
     /\ debounceRef s1 = Some (mkTimer (MIN_INTERVAL_MS - elapsed) Reschedule)
     /\ (forall now1 text1,
           debounceRef (fire now1 text1 s1) = Some (mkTimer 0 (Debounced true))
           /\ calls (fire now1 text1 s1) = calls s)
     /\ (forall now1 text1 now2 text2,
           strlen text2 <= MAX_REALTIME_CHARS ->
           calls (fire now2 text2 (fire now1 text1 s1))
           = calls s ++ [(inflightRef s + 1, text2)])
     /\ (forall now1 text1 now2 text2,
           MAX_REALTIME_CHARS < strlen text2 ->
           let s3 := fire now2 text2 (fire now1 text1 s1) in
           calls s3 = calls s
           /\ inflightRef s3 = inflightRef s
           /\ debounceRef s3 = None
           /\ overlayRef s3 = false
           /\ (overlayRef s = true -> Overlay.mounted (overlay s3) = false)))
    /\ (imm = false -> MIN_INTERVAL_MS <= elapsed -> fire now text s = issued text s)
    /\ (imm = true -> fire now text s = issued text s).
Proof.
  intros s d imm now text Hd Hlen elapsed.
  assert (Hmax : forall t, strlen t <= MAX_REALTIME_CHARS ->
                           (MAX_REALTIME_CHARS <? strlen t) = false)
    by (intros t Ht; now apply Z.ltb_ge).
  split; [|split].
  - intros -> Hearly s1.
    assert (E1 : s1 = set_debounce (Some (mkTimer (MIN_INTERVAL_MS - elapsed) Reschedule)) s).
    { unfold s1, fire. rewrite Hd. simpl. unfold debounced. simpl.
      rewrite (Hmax text Hlen).
      fold elapsed. replace (elapsed <? MIN_INTERVAL_MS) with true
        by (symmetry; now apply Z.ltb_lt).
      reflexivity. }
    rewrite E1. simpl.
    split; [reflexivity|]. split; [reflexivity|]. split; [reflexivity|].
    split; [now split|]. split.
    + intros now1 text1 now2 text2 Hlen2.
      unfold fire at 2. simpl. unfold fire. simpl. unfold debounced. simpl.
      rewrite (Hmax text2 Hlen2). now rewrite andb_false_r.
    + intros now1 text1 now2 text2 Hlong.
      unfold fire at 2. simpl. unfold fire. simpl. unfold debounced. simpl.
      apply Z.ltb_lt in Hlong. rewrite Hlong.
      unfold drop_overlay. simpl.
      destruct (overlayRef s) eqn:Eo; simpl; repeat split; try assumption;
        try reflexivity; intros; congruence.
  - intros -> Hlate. apply fire_issues. unfold issues. rewrite Hd. simpl.
    rewrite (Hmax text Hlen). fold elapsed.
    replace (elapsed <? MIN_INTERVAL_MS) with false
      by (symmetry; now apply Z.ltb_ge).
    reflexivity.
  - intros ->. apply fire_issues. unfold issues. rewrite Hd. simpl.
    rewrite (Hmax text Hlen). now rewrite andb_false_r.
Qed.

(** The session after a first proofread completed at time 1000 and the
    user then typed a letter. *)
Definition after_letter : Session :=
  run [Ev_setup; Ev_fire 1000 "a"; Ev_respond 1 "a" (Returned (Some first_result)) 1000;
       Ev_input "ab"] init.

Lemma C8_throttle_applies_to_delayed_checks_witness :
  debounceRef after_letter = Some (mkTimer 350 (Debounced false))
  /\ calls (fire 1350 "ab" after_letter) = calls after_letter
  /\ debounceRef (fire 1350 "ab" after_letter) = Some (mkTimer 350 Reschedule).
Proof.
  split; [reflexivity|].
  destruct (C8_throttle_applies_to_delayed_checks after_letter 350 false 1350 "ab")
    as [H _]; [reflexivity | vm_compute; discriminate |].
  destruct H as (H1 & _ & H3 & _); [reflexivity | reflexivity |].
  exact (conj H1 H3).
Defined.

End RealtimeFacts.

(** ** Model registry *)

Module RegistryFacts.

Import Registry.

(** *** Reading and writing the six variables *)

Lemma cached_set_cached (k k' : Kind) (v : option Z) (s : State) :
  cached k (set_cached k' v s) = if decide (k = k') then v else cached k s.
Proof. destruct k, k'; reflexivity. Qed.

Lemma creating_set_cached (k k' : Kind) (v : option Z) (s : State) :
  creating k (set_cached k' v s) = creating k s.
Proof. destruct k, k'; reflexivity. Qed.

Lemma cached_set_creating (k k' : Kind) (v : option nat) (s : State) :
  cached k (set_creating k' v s) = cached k s.
Proof. destruct k, k'; reflexivity. Qed.

Lemma creating_set_creating (k k' : Kind) (v : option nat) (s : State) :
  creating k (set_creating k' v s) = if decide (k = k') then v else creating k s.
Proof. destruct k, k'; reflexivity. Qed.

Lemma tasks_set_cached (k : Kind) (v : option Z) (s : State) :
  tasks (set_cached k v s) = tasks s.
Proof. destruct k; reflexivity. Qed.

Lemma tasks_set_creating (k : Kind) (v : option nat) (s : State) :
  tasks (set_creating k v s) = tasks s.
Proof. destruct k; reflexivity. Qed.

Lemma cached_set_tasks (k : Kind) (ts : list (Kind * Task)) (s : State) :
  cached k (set_tasks ts s) = cached k s.
Proof. destruct k; reflexivity. Qed.

Lemma creating_set_tasks (k : Kind) (ts : list (Kind * Task)) (s : State) :
  creating k (set_tasks ts s) = creating k s.
Proof. destruct k; reflexivity. Qed.

(** *** The lock discipline *)

(** Every creation in flight is the one its kind's lock points to, and
    nothing is cached for that kind. *)
Definition locked (s : State) : Prop :=
  forall k q t,
    tasks s !! q = Some (k, t) -> is_running t = true ->
    creating k s = Some q /\ cached k s = None.

(** A lock points to a creation of its kind that is in flight. *)
Definition lock_live (s : State) : Prop :=
  forall k p,
    creating k s = Some p ->
    exists t, tasks s !! p = Some (k, t) /\ is_running t = true.

Definition coherent (s : State) : Prop := locked s /\ lock_live s.

Lemma coherent_init : coherent init.
Proof.
  split.
  - intros k q t H. simpl in H. now rewrite lookup_nil in H.
  - intros k p H. destruct k; discriminate.
Qed.

Lemma in_flight_nil (k : Kind) (s : State) (q : nat) (t : Task) :
  in_flight k s = [] -> tasks s !! q = Some (k, t) -> is_running t = false.
Proof.
  unfold in_flight. intros Hnil Hq.
  destruct (is_running t) eqn:E; [|reflexivity].
  assert (Hin : In (k, t) (List.filter
                  (fun kt => bool_decide (fst kt = k) && is_running (snd kt)) (tasks s))).
  { apply List.filter_In. split.
    - apply list_elem_of_In. eapply list_elem_of_lookup_2. exact Hq.
    - simpl. rewrite E. now rewrite bool_decide_eq_true_2. }
  rewrite Hnil in Hin. destruct Hin.
Qed.

Lemma settled_coherent (s s' : State) (p : nat) (k : Kind) (t t' : Task) :
  coherent s ->
  tasks s !! p = Some (k, t) -> is_running t = true -> is_running t' = false ->
  tasks s' = <[p := (k, t')]> (tasks s) ->
  creating k s' = None ->
  (forall k2, k2 <> k -> creating k2 s' = creating k2 s /\ cached k2 s' = cached k2 s) ->
  coherent s'.
Proof.
  intros [Hl Hv] Hp Ht Ht' Htasks Hk Hother.
  destruct (Hl _ _ _ Hp Ht) as [Hlock _].
  split.
  - intros k2 q t2 Hq Hrun. rewrite Htasks in Hq.
    destruct (decide (q = p)) as [->|Hqp].
    + rewrite list_lookup_insert_eq in Hq by (eapply lookup_lt_Some; exact Hp).
      injection Hq as <- <-. congruence.
    + rewrite list_lookup_insert_ne in Hq by congruence.
      destruct (Hl _ _ _ Hq Hrun) as [Hc1 Hc2].
      destruct (decide (k2 = k)) as [->|Hk2]; [congruence|].
      destruct (Hother k2 Hk2) as [-> ->]. now split.
  - intros k2 p2 Hc.
    destruct (decide (k2 = k)) as [->|Hk2]; [congruence|].
    destruct (Hother k2 Hk2) as [E _]. rewrite E in Hc.
    destruct (Hv _ _ Hc) as (t2 & Hp2 & Hrun). exists t2. split; [|exact Hrun].
    rewrite Htasks, list_lookup_insert_ne; [exact Hp2|].
    intros ->. congruence.
Qed.

Lemma progress_coherent (s : State) (p : nat) (k : Kind) (t t' : Task) :
  coherent s ->
  tasks s !! p = Some (k, t) -> is_running t = true -> is_running t' = true ->
  coherent (set_tasks (<[p := (k, t')]> (tasks s)) s).
Proof.
  intros [Hl Hv] Hp Ht Ht'.
  destruct (Hl _ _ _ Hp Ht) as [Hlock Hcache].
  split.
  - intros k2 q t2 Hq Hrun. rewrite creating_set_tasks, cached_set_tasks.
    simpl in Hq. destruct (decide (q = p)) as [->|Hqp].
    + rewrite list_lookup_insert_eq in Hq by (eapply lookup_lt_Some; exact Hp).
      injection Hq as <- <-. now split.
    + rewrite list_lookup_insert_ne in Hq by congruence. now apply (Hl _ _ t2).
  - intros k2 p2 Hc. rewrite creating_set_tasks in Hc.
    destruct (Hv _ _ Hc) as (t2 & Hp2 & Hrun). simpl.
    destruct (decide (p2 = p)) as [->|Hne].
    + exists t'. rewrite list_lookup_insert_eq by (eapply lookup_lt_Some; exact Hp).
      split; [|exact Ht']. congruence.
    + exists t2. now rewrite list_lookup_insert_ne by congruence.
Qed.

Lemma getEngine_coherent (k : Kind) (s : State) :
  coherent s -> coherent (snd (getEngine k s)).
Proof.
  intros [Hl Hv]. unfold getEngine.
  destruct (cached k s) eqn:Ec; [now split|].
  destruct (creating k s) eqn:Er; [now split|]. cbn [snd].
  split.
  - intros k2 q t2 Hq Hrun.
    rewrite tasks_set_creating in Hq. cbn [tasks set_tasks] in Hq.
    rewrite creating_set_creating, cached_set_creating, creating_set_tasks, cached_set_tasks.
    apply lookup_app_Some in Hq. destruct Hq as [Hq | [Hlen Hq]].
    + destruct (Hl _ _ _ Hq Hrun) as [Hc1 Hc2].
      destruct (decide (k2 = k)) as [->|Hk2]; [congruence | now split].
    + destruct (q - List.length (tasks s))%nat eqn:Eq; [|destruct n; discriminate].
      injection Hq as <- <-. rewrite decide_True by reflexivity.
      split; [f_equal; lia | exact Ec].
  - intros k2 p2 Hc.
    rewrite creating_set_creating, creating_set_tasks in Hc.
    rewrite tasks_set_creating. cbn [tasks set_tasks].
    destruct (decide (k2 = k)) as [->|Hk2].
    + injection Hc as <-. exists Probing. split; [|reflexivity].
      rewrite lookup_app_r by lia. now rewrite Nat.sub_diag.
    + destruct (Hv _ _ Hc) as (t2 & Hp2 & Hrun). exists t2. split; [|exact Hrun].
      now apply lookup_app_l_Some.
Qed.

Lemma safeDispose_frame (obj : option Z) (s : State) :
  tasks (safeDispose obj s) = tasks s
  /\ (forall k, creating k (safeDispose obj s) = creating k s)
  /\ (forall k, cached k (safeDispose obj s) = cached k s).
Proof. destruct obj; simpl; repeat split; intros []; reflexivity. Qed.

Lemma fail_task_coherent (s : State) (p : nat) (k : Kind) (t : Task) (e : JsError) :
  coherent s -> tasks s !! p = Some (k, t) -> is_running t = true ->
  coherent (fail_task p k e s).
Proof.
  intros Hc Ep Ht.
  apply (settled_coherent s (fail_task p k e s) p k t (Failed e)); auto; unfold fail_task.
  - now rewrite tasks_set_creating.
  - rewrite creating_set_creating. now rewrite decide_True.
  - intros k2 Hk2. rewrite creating_set_creating, cached_set_creating.
    rewrite decide_False by exact Hk2.
    now rewrite creating_set_tasks, cached_set_tasks.
Qed.

Lemma step_coherent (s : State) (ev : Event) :
  coherent s ->
  match ev with Ev_disposeModels => forall k, in_flight k s = [] | _ => True end ->
  coherent (step s ev).
Proof.
  intros Hc Hguard. destruct ev as [k | p a | p inst | p e | |]; cbn [step].
  - now apply getEngine_coherent.
  - unfold avail_resolved.
    destruct (tasks s !! p) as [[k [| | |]]|] eqn:Ep; try exact Hc.
    destruct a.
    + now apply (progress_coherent s p k Probing Creating).
    + now apply (progress_coherent s p k Probing Creating).
    + now apply (fail_task_coherent s p k Probing).
  - unfold create_resolved.
    destruct (tasks s !! p) as [[k [| | |]]|] eqn:Ep; try exact Hc.
    apply (settled_coherent s _ p k Creating (Done inst)); auto.
    + now rewrite tasks_set_creating, tasks_set_cached.
    + rewrite creating_set_creating. now rewrite decide_True.
    + intros k2 Hk2. rewrite creating_set_creating, cached_set_creating.
      rewrite creating_set_cached, cached_set_cached.
      rewrite !decide_False by exact Hk2.
      now rewrite creating_set_tasks, cached_set_tasks.
  - unfold create_rejected.
    destruct (tasks s !! p) as [[k [| | |]]|] eqn:Ep; try exact Hc.
    now apply (fail_task_coherent s p k Creating).
  - assert (Ht : tasks (disposeModels s) = tasks s).
    { unfold disposeModels. simpl.
      repeat match goal with |- context [safeDispose ?o ?x] =>
        rewrite (proj1 (safeDispose_frame o x)) end. reflexivity. }
    split.
    + intros k q t Hq Hrun. rewrite Ht in Hq.
      rewrite (in_flight_nil k s q t (Hguard k) Hq) in Hrun. discriminate.
    + intros k p H. destruct k; discriminate.
  - destruct Hc as [Hl Hv].
    assert (Ht : tasks (disposeNonProofreader s) = tasks s).
    { unfold disposeNonProofreader. simpl.
      repeat match goal with |- context [safeDispose ?o ?x] =>
        rewrite (proj1 (safeDispose_frame o x)) end. reflexivity. }
    assert (Hcr : forall k, creating k (disposeNonProofreader s) = creating k s).
    { intros k. unfold disposeNonProofreader.
      destruct (cachedWriter s), k; simpl;
        match goal with |- context [cachedRewriter ?x] =>
          destruct (cachedRewriter x) end; reflexivity. }
    assert (Hca : forall k, cached k s = None -> cached k (disposeNonProofreader s) = None).
    { intros k. unfold disposeNonProofreader.
      destruct (cachedWriter s), k; simpl; try reflexivity;
        match goal with |- context [cachedRewriter ?x] =>
          destruct (cachedRewriter x) end; auto. }
    split.
    + intros k q t Hq Hrun. rewrite Ht in Hq. rewrite Hcr.
      destruct (Hl _ _ _ Hq Hrun) as [H1 H2]. split; [exact H1 | now apply Hca].
    + intros k p H. rewrite Hcr in H. rewrite Ht. now apply Hv.
Qed.

Lemma run_coherent (tr : list Event) (s : State) :
  coherent s -> dispose_when_settled s tr -> coherent (run tr s).
Proof.
  revert s; induction tr as [|ev tr IH]; intros s Hc Hd; [exact Hc|].
  destruct Hd as [Hg Hd]. apply IH; [|exact Hd].
  apply step_coherent; [exact Hc|]. now destruct ev.
Qed.

(** X5: as long as [disposeModels] is not run while a creation is in flight,
    the registry keeps at most one creation in flight per kind; a caller
    that arrives meanwhile is handed that creation, again and again, and
    the registry is left untouched; a cached instance is returned at once. *)
Theorem creation_is_coalesced_while_locks_are_kept :
  forall (tr : list Event) (k : Kind),
    dispose_when_settled init tr ->
    let s := run tr init in
    (forall q q' t t',
        tasks s !! q = Some (k, t) -> is_running t = true ->
        tasks s !! q' = Some (k, t') -> is_running t' = true ->
        q = q')
    /\ (forall q t,
          tasks s !! q = Some (k, t) -> is_running t = true ->
          forall n, fst (getEngine k (run (repeat (Ev_get k) n) s)) = Awaiting q
                    /\ run (repeat (Ev_get k) n) s = s)
    /\ (forall inst, cached k s = Some inst -> getEngine k s = (Ready inst, s)).
Proof.
  intros tr k Hd s.
  assert (Hc : coherent s) by (apply run_coherent; [apply coherent_init | exact Hd]).
  destruct Hc as [Hl Hv].
  split; [|split].
  - intros q q' t t' Hq Ht Hq' Ht'.
    destruct (Hl _ _ _ Hq Ht) as [E1 _]. destruct (Hl _ _ _ Hq' Ht') as [E2 _]. congruence.
  - intros q t Hq Ht n. destruct (Hl _ _ _ Hq Ht) as [E1 E2].
    assert (Hget : getEngine k s = (Awaiting q, s))
      by (unfold getEngine; now rewrite E2, E1).
    assert (Hrun : run (repeat (Ev_get k) n) s = s).
    { induction n as [|n IH]; [reflexivity|].
      cbn [repeat]. change (run (Ev_get k :: repeat (Ev_get k) n) s)
        with (run (repeat (Ev_get k) n) (step s (Ev_get k))).
      cbn [step]. now rewrite Hget. }
    rewrite Hrun, Hget. now split.
  - intros inst E. unfold getEngine. now rewrite E.
Qed.

Lemma creation_is_coalesced_witness :
  let s := run [Ev_get Writer; Ev_avail 0 downloadable; Ev_get Writer] init in
  fst (getEngine Writer (run (repeat (Ev_get Writer) 3) s)) = Awaiting 0%nat.
Proof.
  destruct (creation_is_coalesced_while_locks_are_kept
              [Ev_get Writer; Ev_avail 0 downloadable; Ev_get Writer] Writer)
    as (_ & H & _); [repeat split|].
  exact (proj1 (H 0%nat Creating eq_refl eq_refl 3%nat)).
Defined.

(** X6: under the same condition, the outcome of a creation reaches every
    caller that awaits it: on success the instance is cached, the lock is
    cleared and the getter returns the instance from then on; on failure
    the lock is cleared, nothing is cached, the creation's promise is
    rejected with the error, and the next caller starts a creation anew. *)
Theorem creation_outcome_is_shared :
  forall (tr : list Event) (k : Kind) (q : nat),
    dispose_when_settled init tr ->
    let s := run tr init in
    tasks s !! q = Some (k, Creating) ->
    (forall inst,
        let s' := create_resolved q inst s in
        tasks s' !! q = Some (k, Done inst)
        /\ cached k s' = Some inst /\ creating k s' = None
        /\ getEngine k s' = (Ready inst, s'))
    /\ (forall e,
          let s' := create_rejected q e s in
          tasks s' !! q = Some (k, Failed e)
          /\ cached k s' = None /\ creating k s' = None
          /\ fst (getEngine k s') = Awaiting (List.length (tasks s'))
          /\ tasks (snd (getEngine k s')) !! List.length (tasks s') = Some (k, Probing)).
Proof.
  intros tr k q Hd s Hq.
  assert (Hc : coherent s) by (apply run_coherent; [apply coherent_init | exact Hd]).
  destruct Hc as [Hl _]. destruct (Hl _ _ _ Hq eq_refl) as [Elock Ecache].
  assert (Hlt : (q < List.length (tasks s))%nat) by (eapply lookup_lt_Some; exact Hq).
  split.
  - intros inst s'. unfold s', create_resolved. rewrite Hq.
    rewrite tasks_set_creating, tasks_set_cached. cbn [tasks set_tasks].
    rewrite list_lookup_insert_eq by exact Hlt.
    rewrite cached_set_creating, cached_set_cached, creating_set_creating.
    rewrite !decide_True by reflexivity.
    repeat split. unfold getEngine.
    rewrite cached_set_creating, cached_set_cached.
    now rewrite decide_True by reflexivity.
  - intros e s'. unfold s', create_rejected. rewrite Hq. unfold fail_task.
    rewrite tasks_set_creating. cbn [tasks set_tasks].
    rewrite list_lookup_insert_eq by exact Hlt.
    rewrite cached_set_creating, cached_set_tasks, creating_set_creating.
    rewrite decide_True by reflexivity.
    split; [reflexivity|]. split; [exact Ecache|]. split; [reflexivity|].
    unfold getEngine.
    rewrite cached_set_creating, cached_set_tasks, Ecache.
    rewrite creating_set_creating, decide_True by reflexivity.
    rewrite !tasks_set_creating. cbn [fst snd tasks set_tasks].
    split; [reflexivity|].
    rewrite tasks_set_creating. cbn [tasks set_tasks].
    rewrite lookup_app_r by lia. now rewrite Nat.sub_diag.
Qed.

Lemma creation_outcome_is_shared_witness :
  let s := run [Ev_get Writer; Ev_avail 0 available] init in
  cached Writer (create_rejected 0 (mkError "Error" "download failed") s) = None
  /\ fst (getEngine Writer (create_rejected 0 (mkError "Error" "download failed") s))
     = Awaiting 1%nat.
Proof.
  destruct (creation_outcome_is_shared [Ev_get Writer; Ev_avail 0 available] Writer 0)
    as [_ H]; [repeat split | reflexivity |].
  destruct (H (mkError "Error" "download failed")) as (_ & H2 & _ & H4 & _).
  exact (conj H2 H4).
Defined.

(** *** Disposal during a creation *)

Definition dispose_in_flight : list Event :=
  [Ev_get Proofreader; Ev_disposeModels; Ev_get Proofreader;
   Ev_avail 0 available; Ev_avail 1 available].

(** C2 fails on the code: a proofreader creation is started; while it is in
    flight [disposeModels] runs (as the idle monitor does after 30 s
    without activity) and clears the creation lock; the next caller then
    finds neither an instance nor a lock and starts a second creation. Two
    [create()] calls of one kind now run at once, and the two callers hold
    different promises. When the first creation completes it caches its
    instance and clears the lock of the second; when the second completes
    it overwrites the cached instance, and the first is never disposed. *)
Theorem C2_dispose_in_flight_duplicates_creation :
  fst (getEngine Proofreader init) = Awaiting 0%nat
  /\ in_flight Proofreader (disposeModels (snd (getEngine Proofreader init)))
     = [(Proofreader, Probing)]
  /\ fst (getEngine Proofreader (disposeModels (snd (getEngine Proofreader init))))
     = Awaiting 1%nat
  /\ creates_running Proofreader (run dispose_in_flight init) = 2%nat
  /\ (let s := run (dispose_in_flight ++ [Ev_created 0 10]) init in
      cachedProofreader s = Some 10 /\ proofreaderCreating s = None
      /\ creates_running Proofreader s = 1%nat)
  /\ (let s := run (dispose_in_flight ++ [Ev_created 0 10; Ev_created 1 11]) init in
      cachedProofreader s = Some 11 /\ disposed s = []).
Proof. repeat split. Qed.

End RegistryFacts.

(* ===================================================================== *)
(** * Further properties *)
(* ===================================================================== *)

(** ** More on strings *)

Section MoreStringFacts.

Lemma append_assoc (a b c : string) : (a +:+ b) +:+ c = a +:+ (b +:+ c).
Proof. apply chars_inj. rewrite !chars_app. now rewrite app_assoc. Qed.

Lemma append_empty_r (a : string) : a +:+ "" = a.
Proof. apply chars_inj. rewrite chars_app. apply app_nil_r. Qed.

Lemma take_then_take {A : Type} (n m : nat) (l : list A) :
  take n l ++ take m (drop n l) = take (n + m) l.
Proof.
  revert l; induction n as [|n IH]; intros [|x l]; simpl; try reflexivity.
  - now rewrite take_nil.
  - now rewrite IH.
Qed.

Lemma slice_join (text : string) (a b c : Z) :
  0 <= a <= b -> b <= c <= strlen text ->
  slice text a b +:+ slice text b c = slice text a c.
Proof.
  intros Hab Hbc. apply chars_inj. rewrite chars_app, !chars_slice by lia.
  replace (drop (Z.to_nat b) (list_ascii_of_string text))
    with (drop (Z.to_nat (b - a)) (drop (Z.to_nat a) (list_ascii_of_string text)))
    by (rewrite drop_drop; f_equal; lia).
  rewrite take_then_take. f_equal. lia.
Qed.

Lemma slice_empty (text : string) (a : Z) : 0 <= a <= strlen text -> slice text a a = "".
Proof.
  intros Ha. apply chars_inj. rewrite chars_slice by lia.
  now rewrite Z.sub_diag.
Qed.

Lemma slice_whole (text : string) : slice text 0 (strlen text) = text.
Proof.
  pose proof (strlen_nonneg text) as Hlen.
  apply chars_inj. rewrite chars_slice by lia.
  rewrite Z.sub_0_r. change (Z.to_nat 0) with 0%nat. rewrite drop_0.
  apply take_ge. rewrite strlen_chars. lia.
Qed.

Lemma slice_from_end (text : string) : slice_from text (strlen text) = "".
Proof.
  pose proof (strlen_nonneg text) as Hlen.
  apply chars_inj. rewrite chars_slice_from by lia.
  apply drop_ge. rewrite strlen_chars. lia.
Qed.

Lemma strlen_slice_from (text : string) (a : Z) :
  0 <= a <= strlen text -> strlen (slice_from text a) = strlen text - a.
Proof.
  intros Ha. rewrite (strlen_chars (slice_from text a)), chars_slice_from by lia.
  rewrite length_drop, (strlen_chars text). rewrite strlen_chars in Ha. lia.
Qed.

End MoreStringFacts.

(** ** More on the normalizer and the overlay *)

Module NormalizerMore.

Import Normalizer Overlay OverlayQueries NormalizerFacts.

Lemma mapM_resolve_fails (cs : list JsVal) (c : JsVal) :
  In c cs -> resolve c = None -> mapM resolve cs = None.
Proof.
  intros Hin Hc. induction cs as [|x cs IH]; [destruct Hin|].
  cbn [mapM]. destruct Hin as [->|Hin].
  - now rewrite Hc.
  - rewrite (IH Hin). now destruct (resolve x).
Qed.

(** X1. A [null] or [undefined] record among the corrections makes the
    whole normalization fail: no range is returned, and the corrected
    string is the one the engine supplied or, without one, the text. *)
Theorem null_record_discards_all_ranges :
  forall (base : string) (apiResult : JsVal) (cs : list JsVal),
    opt_get apiResult "corrections" = JArr cs ->
    In JNull cs \/ In JUndefined cs ->
    ranges (buildProofreadPayload base apiResult) = []
    /\ corrected (buildProofreadPayload base apiResult)
       = (if is_empty (supplied apiResult) then base else supplied apiResult).
Proof.
  intros base apiResult cs Hcs Hnull.
  assert (Hr : ranges (buildProofreadPayload base apiResult) = []).
  { unfold buildProofreadPayload. cbn [ranges]. rewrite Hcs. unfold normalizeRanges.
    destruct Hnull as [H|H]; now rewrite (mapM_resolve_fails cs _ H). }
  split; [exact Hr|].
  rewrite corrected_unfold, Hr. cbv zeta. cbn [List.length Z.of_nat Z.ltb Z.compare].
  rewrite andb_false_r. reflexivity.
Qed.

Definition null_among_corrections : JsVal :=
  JObj [("corrections",
         JArr [JObj [("start", JNum 0); ("end", JNum 3); ("replacement", JStr "The")];
               JNull])].

Lemma null_record_discards_all_ranges_witness :
  ranges (buildProofreadPayload "Teh cat" null_among_corrections) = []
  /\ corrected (buildProofreadPayload "Teh cat" null_among_corrections) = "Teh cat".
Proof.
  exact (null_record_discards_all_ranges "Teh cat" null_among_corrections
           [JObj [("start", JNum 0); ("end", JNum 3); ("replacement", JStr "The")]; JNull]
           eq_refl (or_introl (or_intror (or_introl eq_refl)))).
Defined.

(** A splice without a replacement puts back what it cut out. *)
Lemma splice_without_replacement (out : string) (r : Range) :
  replacement r = None -> splice out r = out.
Proof.
  intros Hr. unfold splice. rewrite Hr.
  pose proof (strlen_nonneg out) as Hlen.
  set (s := Z.max 0 (Z.min (strlen out) (start r))).
  set (e := Z.max s (Z.min (strlen out) (end_ r))).
  assert (Hs : 0 <= s <= strlen out) by (unfold s; lia).
  assert (He : s <= e <= strlen out) by (unfold e; lia).
  apply chars_inj. rewrite !chars_app.
  rewrite !chars_slice, chars_slice_from by lia.
  rewrite Z.sub_0_r. change (Z.to_nat 0) with 0%nat. rewrite drop_0.
  rewrite take_drop_commute.
  replace (Z.to_nat s + Z.to_nat (e - s))%nat with (Z.to_nat e) by lia.
  replace (take (Z.to_nat s) (list_ascii_of_string out))
    with (take (Z.to_nat s) (take (Z.to_nat e) (list_ascii_of_string out)))
    by (rewrite take_take; f_equal; lia).
  rewrite app_assoc, take_drop. apply take_drop.
Qed.

(** X2. Ranges that carry no replacement never change the text, wherever
    they lie and however they overlap: the synthesis returns the text, and
    so does the payload when the engine supplied no corrected string. *)
Theorem ranges_without_replacement_keep_the_text :
  forall (base : string) (apiResult : JsVal),
    Forall (fun r => replacement r = None) (ranges (buildProofreadPayload base apiResult)) ->
    synthesize base (ranges (buildProofreadPayload base apiResult)) = base
    /\ (is_empty (supplied apiResult) = true ->
        corrected (buildProofreadPayload base apiResult) = base).
Proof.
  intros base apiResult Hnone.
  set (rs := ranges (buildProofreadPayload base apiResult)) in *.
  assert (Hsyn : synthesize base rs = base).
  { unfold synthesize.
    assert (Hs : Forall (fun r => replacement r = None) (sort by_start_desc rs))
      by (now rewrite sort_perm).
    revert Hs. generalize (sort by_start_desc rs). intros l Hl.
    induction Hl as [|r l Hr Hl IH]; [reflexivity|].
    cbn [fold_left]. now rewrite splice_without_replacement. }
  split; [exact Hsyn|].
  intros Hsup. rewrite corrected_unfold. fold rs. cbv zeta. rewrite Hsup, Hsyn.
  destruct (0 <? Z.of_nat (List.length rs)); simpl.
  - now destruct (is_empty base).
  - rewrite Hsup. reflexivity.
Qed.

Definition bare_ranges : JsVal :=
  JObj [("corrections",
         JArr [JObj [("start", JNum 2); ("end", JNum 9)];
               JObj [("start", JNum (-4)); ("end", JNum 3)]])].

Lemma ranges_without_replacement_witness :
  corrected (buildProofreadPayload "abc" bare_ranges) = "abc".
Proof.
  apply (ranges_without_replacement_keep_the_text "abc" bare_ranges).
  - repeat constructor.
  - reflexivity.
Defined.

(** *** Spans of the overlay *)

Section Spans.

Variable text : string.

(** Every index below [b] lies in one of the segments. *)
Definition covered (segs : list Segment) (b : Z) : Prop :=
  forall i, 0 <= i < b -> exists g, In g segs /\ seg_start g <= i < seg_end g.

Lemma covered_snoc (segs : list Segment) (g : Segment) (m b : Z) :
  covered segs m -> seg_start g <= m -> b <= Z.max m (seg_end g) ->
  covered (segs ++ [g]) b.
Proof.
  intros Hc Hg Hb i Hi.
  destruct (Z.lt_ge_cases i m) as [Hlt|Hge].
  - destruct (Hc i) as (h & Hh & Hin); [lia|].
    exists h. split; [apply in_or_app; now left | exact Hin].
  - exists g. split; [apply in_or_app; right; now left | lia].
Qed.

Lemma covered_weaken (segs : list Segment) (m b : Z) :
  covered segs m -> b <= m -> covered segs b.
Proof. intros Hc Hb i Hi. apply Hc. lia. Qed.

Lemma cover_loop (l : list Range) :
  forall (segs : list Segment) (idx m : Z),
    0 <= idx <= m -> m <= strlen text -> covered segs m ->
    let r := fold_left (segment_step text) l (segs, idx) in
    exists m', 0 <= snd r <= m' /\ m' <= strlen text /\ covered (fst r) m'.
Proof.
  induction l as [|x l IH]; intros segs idx m Hidx Hm Hc; cbn [fold_left].
  - exists m. now repeat split.
  - cbn [segment_step].
    set (s := Z.max 0 (Z.min (strlen text) (start x))).
    set (e := Z.max s (Z.min (strlen text) (end_ x))).
    pose proof (strlen_nonneg text) as Hlen.
    apply (IH _ e (Z.max m e)); [lia | lia |].
    destruct (Z.ltb_spec idx s) as [H1|H1], (Z.ltb_spec s e) as [H2|H2].
    + apply (covered_snoc _ _ (Z.max m s)); simpl; [|lia|lia].
      apply (covered_snoc _ _ m); simpl; [exact Hc | lia | lia].
    + apply (covered_snoc _ _ m); simpl; [exact Hc | lia | lia].
    + apply (covered_snoc _ _ m); simpl; [exact Hc | lia | lia].
    + apply (covered_weaken _ m); [exact Hc | lia].
Qed.

Lemma segments_cover : forall rs, covered (segments_of text rs) (strlen text).
Proof.
  intros rs. unfold segments_of.
  pose proof (strlen_nonneg text) as Hlen.
  destruct (cover_loop (sort by_start_asc rs) [] 0 0) as (m & Hi & Hm & Hc);
    [lia | lia | intros i Hi; lia |].
  destruct (fold_left (segment_step text) (sort by_start_asc rs) ([], 0)) as [segs idx].
  simpl in Hi, Hc.
  destruct (Z.ltb_spec idx (strlen text)).
  - apply (covered_snoc _ _ m); simpl; [exact Hc | lia | lia].
  - apply (covered_weaken _ m); [exact Hc | lia].
Qed.

Lemma textContent_app (l1 l2 : list Segment) :
  textContent text (l1 ++ l2) = textContent text l1 +:+ textContent text l2.
Proof.
  induction l1 as [|g l1 IH]; [reflexivity|].
  cbn [app textContent fold_right]. fold (textContent text (l1 ++ l2)).
  fold (textContent text l1). now rewrite IH, append_assoc.
Qed.

(** Over a chain of ranges that starts at or after [idx], the loop appends
    to the content exactly the text from [idx] to the new [idx]. *)
Lemma mirror_loop (l : list Range) :
  StronglySorted before l ->
  forall (segs : list Segment) (idx : Z),
    0 <= idx <= strlen text ->
    Forall (fun r => idx <= Z.max 0 (Z.min (strlen text) (start r))) l ->
    let r := fold_left (segment_step text) l (segs, idx) in
    idx <= snd r <= strlen text
    /\ textContent text (fst r) = textContent text segs +:+ slice text idx (snd r).
Proof.
  induction 1 as [|x l Hl IH Hx]; intros segs idx Hidx Hfrom; cbn [fold_left].
  - simpl. split; [lia|]. now rewrite slice_empty, append_empty_r by lia.
  - inversion Hfrom as [|? ? Hx0 Hfrom']; subst.
    cbn [segment_step].
    set (s := Z.max 0 (Z.min (strlen text) (start x))) in *.
    set (e := Z.max s (Z.min (strlen text) (end_ x))).
    pose proof (strlen_nonneg text) as Hlen.
    match goal with |- context [fold_left _ l (?sg, e)] => set (segs' := sg) end.
    assert (Hcontent : textContent text segs'
                       = textContent text segs +:+ slice text idx e).
    { unfold segs'.
      destruct (Z.ltb_spec idx s) as [H1|H1], (Z.ltb_spec s e) as [H2|H2];
        rewrite ?textContent_app; cbn [textContent fold_right seg_start seg_end];
        rewrite ?append_empty_r.
      - rewrite append_assoc. now rewrite slice_join by lia.
      - now replace e with s by lia.
      - now replace idx with s by lia.
      - replace e with idx by lia. now rewrite slice_empty, append_empty_r by lia. }
    destruct (IH segs' e) as [Hi Ht]; [lia | |].
    { rewrite Forall_forall in *. intros y Hy.
      specialize (Hx y Hy). unfold before in Hx. unfold e, s. lia. }
    split; [lia|].
    rewrite Ht, Hcontent, append_assoc. now rewrite slice_join by lia.
Qed.

End Spans.

(** The spans drawn for a text leave no gap. *)
Lemma render_covered (text : string) (rs : list Range) :
  covered (render text rs) (strlen text).
Proof.
  destruct (is_empty text) eqn:Ht.
  - apply is_empty_strlen in Ht. intros i Hi. lia.
  - rewrite render_segments by exact Ht. apply segments_cover.
Qed.

Lemma rect_for_index_exists (text : string) (rs : list Range) (i : Z) :
  0 <= i < strlen text ->
  exists g, getRectForIndex (render text rs) i = Some g
            /\ In g (render text rs) /\ seg_start g <= i < seg_end g.
Proof.
  intros Hi. destruct (render_covered text rs i Hi) as (h & Hh & Hin).
  unfold getRectForIndex.
  destruct (List.find _ (render text rs)) as [g|] eqn:E.
  - apply List.find_some in E. destruct E as [Hg Hc].
    apply andb_true_iff in Hc. destruct Hc as [H1 H2].
    apply Z.leb_le in H1. apply Z.ltb_lt in H2. exists g. repeat split; assumption.
  - pose proof (List.find_none _ _ E h Hh) as Hn. simpl in Hn.
    apply andb_false_iff in Hn. destruct Hn as [Hn|Hn];
      [apply Z.leb_gt in Hn | apply Z.ltb_ge in Hn]; lia.
Qed.

Lemma rect_for_range_exists (text : string) (rs : list Range) (a b : Z) :
  a < b -> 0 < b -> a < strlen text -> 0 < strlen text ->
  exists g, getRectForRange (render text rs) a b = Some g
            /\ In g (render text rs) /\ seg_start g < b /\ a < seg_end g.
Proof.
  intros Hab Hb Ha Hne.
  assert (Hm : 0 <= Z.max a 0 < strlen text) by lia.
  destruct (render_covered text rs (Z.max a 0) Hm) as (h & Hh & Hin).
  unfold getRectForRange.
  destruct (List.find _ (render text rs)) as [g|] eqn:E.
  - apply List.find_some in E. destruct E as [Hg Hc].
    apply andb_true_iff in Hc. destruct Hc as [H1 H2].
    apply Z.ltb_lt in H1. apply Z.ltb_lt in H2. exists g. repeat split; assumption.
  - pose proof (List.find_none _ _ E h Hh) as Hn. simpl in Hn.
    apply andb_false_iff in Hn. destruct Hn as [Hn|Hn]; apply Z.ltb_ge in Hn; lia.
Qed.

(** X3. Whatever the ranges, the spans drawn for a text leave no gap:
    every character index of the text lies in a span, so the lookup of a
    span by index succeeds for every index inside the text, and the lookup
    by range succeeds for every non-empty range that meets a non-empty
    text. *)
Theorem every_character_has_a_span :
  forall (text : string) (rs : list Range),
    (forall i, 0 <= i < strlen text ->
       exists g, getRectForIndex (render text rs) i = Some g
                 /\ In g (render text rs) /\ seg_start g <= i < seg_end g)
    /\ (forall a b, a < b -> 0 < b -> a < strlen text -> 0 < strlen text ->
          exists g, getRectForRange (render text rs) a b = Some g
                    /\ In g (render text rs) /\ seg_start g < b /\ a < seg_end g).
Proof.
  intros text rs. split.
  - apply rect_for_index_exists.
  - apply rect_for_range_exists.
Qed.

Lemma every_character_has_a_span_witness :
  exists g, getRectForIndex
              (render "abcdef" [mkRange 0 4 (Some "X"); mkRange 2 6 (Some "Y")]) 5
            = Some g /\ seg_start g <= 5 < seg_end g.
Proof.
  destruct (every_character_has_a_span "abcdef"
              [mkRange 0 4 (Some "X"); mkRange 2 6 (Some "Y")]) as [H _].
  destruct (H 5) as (g & Hg & _ & Hin); [vm_compute; split; [discriminate | reflexivity]|].
  exists g. now split.
Defined.

(** Overlapping ranges make the overlay repeat text. *)
Example overlay_repeats_text_on_overlap :
  textContent "abcdef" (render "abcdef" [mkRange 0 4 None; mkRange 2 6 None])
  = "abcdcdef".
Proof. reflexivity. Qed.

(** X4. When the ranges do not overlap and start at distinct offsets, the
    overlay's text is exactly the text of the field, whatever their order
    and wherever they lie (also outside the text): the underlines sit over
    the characters they mark. *)
Theorem overlay_text_mirrors_the_field :
  forall (text : string) (rs : list Range),
    ForallOrdPairs separated rs ->
    textContent text (render text rs) = text.
Proof.
  intros text rs Hsep.
  destruct (is_empty text) eqn:Ht.
  - unfold render. rewrite Ht. apply is_empty_true in Ht. now subst.
  - rewrite render_segments by exact Ht. unfold segments_of.
    pose proof (strlen_nonneg text) as Hlen.
    destruct (mirror_loop text (sort by_start_asc rs)) with (segs := @nil Segment) (idx := 0)
      as [Hi Hc].
    + apply sorted_separated_chain; [apply sort_asc_sorted|].
      apply sort_pairs; [apply separated_sym | exact Hsep].
    + lia.
    + apply Forall_forall. intros r _. lia.
    + destruct (fold_left (segment_step text) (sort by_start_asc rs) ([], 0))
        as [segs idx].
      cbn [fst snd] in Hi, Hc. cbn [textContent fold_right] in Hc.
      destruct (Z.ltb_spec idx (strlen text)).
      * rewrite textContent_app, Hc. cbn [textContent fold_right seg_start seg_end].
        rewrite append_empty_r. change ("" +:+ slice text 0 idx) with (slice text 0 idx).
        rewrite slice_join by lia. apply slice_whole.
      * rewrite Hc. change ("" +:+ slice text 0 idx) with (slice text 0 idx).
        replace idx with (strlen text) by lia.
        apply slice_whole.
Qed.

Lemma overlay_text_mirrors_the_field_witness :
  textContent "Teh cat sat"
    (render "Teh cat sat" [mkRange 8 40 (Some "sat."); mkRange 0 3 (Some "The")])
  = "Teh cat sat".
Proof.
  apply overlay_text_mirrors_the_field.
  apply FOP_cons; [|apply FOP_cons; [apply List.Forall_nil | apply FOP_nil]].
  apply List.Forall_cons; [|apply List.Forall_nil].
  right. cbv. split; [discriminate | reflexivity].
Defined.

End NormalizerMore.

(** ** Editing a text control *)

Module EditingFacts.

Import Normalizer Editing.

Lemma to_uint32_small (x : Z) : 0 <= x < 2 ^ 32 -> to_uint32 x = x.
Proof. intros H. unfold to_uint32. now apply Z.mod_small. Qed.

(** Offsets that lie inside the value are taken as they are. *)
Lemma setSelectionRange_inside (v : string) (sel : Z * Z) (n : nat) (a b : Z) :
  0 <= a <= b -> b <= strlen v -> strlen v < 2 ^ 32 ->
  setSelectionRange a b (mkDom (mkControl v (Some sel)) n)
  = (mkDom (mkControl v (Some (a, b))) n, Normal).
Proof.
  intros Hab Hb Hlen. unfold setSelectionRange. cbn [control selection value inputs].
  rewrite !to_uint32_small by lia.
  repeat f_equal; lia.
Qed.

Lemma set_value_selectable (sanitize : string -> string) (v t : string) (sel : Z * Z)
    (n : nat) :
  exists sel',
    set_value sanitize t (mkDom (mkControl v (Some sel)) n)
    = (mkDom (mkControl (sanitize t) (Some sel')) n, Normal).
Proof.
  unfold set_value. cbn [control selection value inputs].
  destruct (String.eqb (sanitize t) v); eexists; reflexivity.
Qed.

(** Writing [t] over the selection [(a, b)] of a control that supports
    selection. *)
Lemma replaceSelection_inside (sanitize : string -> string) (v t : string) (n : nat)
    (a b : Z) :
  0 <= a <= b -> b <= strlen v -> strlen v + strlen t < 2 ^ 32 ->
  sanitize (slice v 0 a +:+ t +:+ slice_from v b) = slice v 0 a +:+ t +:+ slice_from v b ->
  replaceSelection sanitize t (mkDom (mkControl v (Some (a, b))) n)
  = (mkDom (mkControl (slice v 0 a +:+ t +:+ slice_from v b)
              (Some (a + strlen t, a + strlen t)))
       (S n),
     Normal).
Proof.
  intros Hab Hb Hlen Hsan.
  pose proof (strlen_nonneg t) as Ht.
  unfold replaceSelection. cbn [control selection value inputs].
  unfold and_then at 1.
  destruct (set_value_selectable sanitize v (slice v 0 a +:+ t +:+ slice_from v b) (a, b) n)
    as [sel' ->].
  rewrite Hsan. unfold and_then.
  rewrite strlen_slice by lia. rewrite Z.sub_0_r.
  rewrite setSelectionRange_inside.
  - reflexivity.
  - lia.
  - rewrite !strlen_app, strlen_slice, strlen_slice_from by lia. lia.
  - rewrite !strlen_app, strlen_slice, strlen_slice_from by lia. lia.
Qed.

(** X7. Accepting the bubble's suggestion on a text control that supports
    selection performs exactly the splice the normalizer performs for that
    range when it synthesizes the corrected string: the new value is the
    old one with the (clamped) range replaced, the caret is placed right
    after the inserted text, and one input event is dispatched. *)
Theorem applySuggestion_is_the_normalizer_splice :
  forall (sanitize : string -> string) (v : string) (sel : Z * Z) (n : nat)
         (a b : Z) (t : string),
    strlen v + strlen t < 2 ^ 32 ->
    sanitize (splice v (mkRange a b (Some t)))
    = splice v (mkRange a b (Some t)) ->
    applySuggestion sanitize (mkSuggest true t (Some (a, b)))
      (mkDom (mkControl v (Some sel)) n)
    = (mkDom
         (mkControl (synthesize v [mkRange a b (Some t)])
            (Some (clamp a 0 (strlen v) + strlen t,
                   clamp a 0 (strlen v) + strlen t)))
         (S n),
       Normal).
Proof.
  intros sanitize v sel n a b t Hlen Hsan.
  pose proof (strlen_nonneg v) as Hv. pose proof (strlen_nonneg t) as Ht.
  unfold applySuggestion. cbn [sg_open sg_text sg_range negb control value].
  unfold and_then. unfold clamp.
  rewrite setSelectionRange_inside by lia.
  unfold splice in Hsan. cbn [start end_ replacement] in Hsan.
  rewrite replaceSelection_inside by (try lia; exact Hsan).
  reflexivity.
Qed.

Lemma applySuggestion_is_the_normalizer_splice_witness :
  applySuggestion (fun s => s) (mkSuggest true "The" (Some (0, 3)))
    (mkDom (mkControl "Teh cat sat" (Some (7, 7))) 0)
  = (mkDom (mkControl "The cat sat" (Some (3, 3))) 1, Normal).
Proof.
  apply (applySuggestion_is_the_normalizer_splice (fun s => s) "Teh cat sat" (7, 7) 0%nat
           0 3 "The").
  - vm_compute. reflexivity.
  - reflexivity.
Defined.

(** X8. On a field to which selection does not apply (an [email] input,
    which [isEditable] accepts), [replaceSelection] and [replaceWhole] fail
    at [setSelectionRange] after they have assigned the value (the
    replacement is appended at the end, as both offsets default to the
    length): the value has changed, but no input event is dispatched. *)
Theorem edits_throw_on_fields_without_selection :
  forall (sanitize : string -> string) (v : string) (n : nat),
    (forall t,
        replaceSelection sanitize t (mkDom (mkControl v None) n)
        = (mkDom (mkControl (sanitize (v +:+ t)) None) n, Throws InvalidStateError))
    /\ (forall t emit,
           replaceWhole sanitize t emit (mkDom (mkControl v None) n)
           = (mkDom (mkControl (sanitize t) None) n, Throws InvalidStateError)).
Proof.
  intros sanitize v n. split.
  - intros t. unfold replaceSelection. cbn [control selection value inputs].
    rewrite slice_whole, slice_from_end, append_empty_r. reflexivity.
  - intros t emit. reflexivity.
Qed.

(** X9. [applyWrite] inserts the generated text over the selection the
    field had when the bubble was pressed ([captureSelection]), whatever the
    selection is when Apply is clicked: as long as the value is the same,
    the outcome is that of [replaceSelection] run at capture time. *)
Theorem applyWrite_uses_the_captured_selection :
  forall (sanitize : string -> string) (v : string) (a b : Z) (later : Z * Z)
         (n : nat) (w : string),
    well_formed (mkControl v (Some (a, b))) ->
    is_empty w = false ->
    strlen v + strlen w < 2 ^ 32 ->
    sanitize (slice v 0 a +:+ w +:+ slice_from v b) = slice v 0 a +:+ w +:+ slice_from v b ->
    applyWrite sanitize (Some (captureSelection (mkControl v (Some (a, b))))) w
      (mkDom (mkControl v (Some later)) n)
    = replaceSelection sanitize w (mkDom (mkControl v (Some (a, b))) n).
Proof.
  intros sanitize v a b later n w Hwf Hw Hlen Hsan.
  pose proof (strlen_nonneg w) as Hw0.
  unfold well_formed in Hwf. cbn [selection value] in Hwf.
  rewrite replaceSelection_inside by (try lia; exact Hsan).
  unfold applyWrite, captureSelection. rewrite Hw.
  cbn [control selection value inputs].
  replace (Z.max 0 (Z.min a (strlen v))) with a by lia.
  replace (Z.max 0 (Z.min b (strlen v))) with b by lia.
  unfold and_then at 1.
  destruct (set_value_selectable sanitize v (slice v 0 a +:+ w +:+ slice_from v b) later n)
    as [sel' ->].
  rewrite Hsan. unfold and_then.
  rewrite strlen_slice by lia. rewrite Z.sub_0_r.
  rewrite setSelectionRange_inside.
  - reflexivity.
  - lia.
  - rewrite !strlen_app, strlen_slice, strlen_slice_from by lia. lia.
  - rewrite !strlen_app, strlen_slice, strlen_slice_from by lia. lia.
Qed.

Lemma applyWrite_uses_the_captured_selection_witness :
  applyWrite (fun s => s) (Some (captureSelection (mkControl "Dear ," (Some (5, 5))))) "Ann"
    (mkDom (mkControl "Dear ," (Some (0, 6))) 0)
  = replaceSelection (fun s => s) "Ann" (mkDom (mkControl "Dear ," (Some (5, 5))) 0).
Proof.
  apply (applyWrite_uses_the_captured_selection (fun s => s) "Dear ," 5 5 (0, 6) 0%nat "Ann").
  - vm_compute. repeat split; discriminate.
  - reflexivity.
  - vm_compute. reflexivity.
  - reflexivity.
Defined.

End EditingFacts.

(** ** The suggestion bubble *)

Module SuggestionFacts.

Import Overlay OverlayQueries Realtime Suggestion NormalizerFacts NormalizerMore.

Lemma contains_spec (i : Z) (r : Range) :
  contains i r = true <-> start r <= i < end_ r.
Proof.
  unfold contains. rewrite andb_true_iff, Z.leb_le, Z.ltb_lt. tauto.
Qed.

(** Among ranges that do not overlap, at most one contains the caret. *)
Lemma find_separated (i : Z) (rs : list Range) (r : Range) :
  ForallOrdPairs separated rs -> In r rs -> contains i r = true ->
  List.find (contains i) rs = Some r.
Proof.
  intros Hsep. induction Hsep as [|x l Hx Hl IH]; intros Hin Hr; [destruct Hin|].
  cbn [List.find]. destruct (contains i x) eqn:Ex.
  - destruct Hin as [->|Hin]; [reflexivity|]. exfalso.
    rewrite List.Forall_forall in Hx. specialize (Hx r Hin).
    apply contains_spec in Ex. apply contains_spec in Hr.
    unfold separated in Hx. lia.
  - destruct Hin as [->|Hin]; [congruence|]. now apply IH.
Qed.

(** X10. A bubble that [updateSuggestionForCaret] opens is sound: when
    the call returns an open bubble and either the bubble was closed before
    or the closure that ran it had captured [suggest.open] as true, the
    bubble shows the non-empty replacement of a range of the last applied
    response that contains the caret, carries that range's offsets and is
    anchored at a span of the overlay. A call whose closure captured
    [suggest.open] as false never closes a bubble: without a caret, or with
    the caret in no range, an open bubble is left as it is. *)
Theorem bubble_shows_a_replacement_under_the_caret :
  forall (text : string) (idx : option Z) (s : Session) (captured_open : bool)
         (before : option Bubble),
    overlayRef s = true ->
    text = lastTextRef s ->
    (forall b,
        updateSuggestionForCaret text idx s captured_open before = Some b ->
        captured_open = true \/ before = None ->
        exists i r,
          idx = Some i /\ In r (lastRangesRef s) /\ start r <= i < end_ r
          /\ replacement r = Some (b_text b) /\ is_empty (b_text b) = false
          /\ b_start b = start r /\ b_end b = end_ r
          /\ In (b_anchor b) (spanNodes (overlay s)))
    /\ (captured_open = false ->
        idx = None
        \/ (exists i, idx = Some i /\ List.find (contains i) (lastRangesRef s) = None) ->
        updateSuggestionForCaret text idx s captured_open before = before).
Proof.
  intros text idx s captured_open before Hov Htext. split.
  - intros b Hres Hfresh.
    assert (Hclose : (if captured_open then None else before) = Some b -> False).
    { destruct Hfresh as [-> | ->]; [discriminate | destruct captured_open; discriminate]. }
    revert Hres. unfold updateSuggestionForCaret.
    rewrite Hov, Htext, String.eqb_refl. cbn [negb].
    destruct idx as [i|]; [|intros H; destruct (Hclose H)].
    destruct (List.find (contains i) (lastRangesRef s)) as [r|] eqn:Ef;
      [|intros H; destruct (Hclose H)].
    apply List.find_some in Ef. destruct Ef as [Hin Hc]. apply contains_spec in Hc.
    destruct (replacement r) as [t|] eqn:Er; [|intros H; destruct (Hclose H)].
    destruct (is_empty t) eqn:Et; [intros H; destruct (Hclose H)|].
    destruct (getRectForRange (spanNodes (overlay s)) (start r) (end_ r)) as [g|] eqn:Eg.
    + intros [= <-]. exists i, r. cbn [b_text b_start b_end b_anchor].
      apply List.find_some in Eg. tauto.
    + destruct (getRectForIndex (spanNodes (overlay s)) i) as [g|] eqn:Eg';
        [|intros H; destruct (Hclose H)].
      intros [= <-]. exists i, r. cbn [b_text b_start b_end b_anchor].
      apply List.find_some in Eg'. tauto.
  - intros -> Hnone. unfold updateSuggestionForCaret.
    rewrite Hov, Htext, String.eqb_refl. cbn [negb].
    destruct Hnone as [-> | (i & -> & ->)]; reflexivity.
Qed.

Definition one_fix : ProofreadPayload :=
  mkProofreadPayload "The cat" [] (Some [mkRange 0 3 (Some "The")]) None.

Definition one_fix_applied : Session :=
  run [Ev_setup; Ev_fire 1000 "Teh cat";
       Ev_respond 1 "Teh cat" (Returned (Some one_fix)) 1200] init.

Lemma bubble_shows_a_replacement_witness :
  (exists i r,
      Some 2 = Some i /\ In r (lastRangesRef one_fix_applied)
      /\ start r <= i < end_ r /\ replacement r = Some "The")
  /\ updateSuggestionForCaret "Teh cat" (Some 5) one_fix_applied false
       (Some (mkBubble "The" 0 3 (mkSegment 0 3 true)))
     = Some (mkBubble "The" 0 3 (mkSegment 0 3 true)).
Proof.
  split.
  - destruct (bubble_shows_a_replacement_under_the_caret "Teh cat" (Some 2)
                one_fix_applied false None eq_refl eq_refl) as [H _].
    destruct (H (mkBubble "The" 0 3 (mkSegment 0 3 true)) eq_refl (or_intror eq_refl))
      as (i & r & H1 & H2 & H3 & H4 & _).
    exists i, r. cbn [b_text] in H4. tauto.
  - destruct (bubble_shows_a_replacement_under_the_caret "Teh cat" (Some 5)
                one_fix_applied false (Some (mkBubble "The" 0 3 (mkSegment 0 3 true)))
                eq_refl eq_refl) as [_ H].
    apply H; [reflexivity|]. right. exists 5. split; reflexivity.
Defined.

(** The same call made by a closure that saw the bubble open closes it. *)
Example fresh_closure_closes_the_bubble :
  updateSuggestionForCaret "Teh cat" (Some 5) one_fix_applied true
    (Some (mkBubble "The" 0 3 (mkSegment 0 3 true)))
  = None.
Proof. reflexivity. Qed.

(** X11. Right after a response has been applied, a caret inside a range
    with a non-empty replacement opens the bubble for that range: when the
    ranges do not overlap, the range starts inside the (non-empty) text and
    the caret is not negative, the bubble carries the range's replacement
    and offsets and is anchored at a span that meets the range. *)
Theorem bubble_opens_after_an_applied_response :
  forall (s : Session) (text : string) (p : ProofreadPayload) (rs : list Range)
         (now i : Z) (r : Range) (t : string) (captured_open : bool)
         (before : option Bubble),
    overlayRef s = true ->
    pp_cancelled p <> Some true ->
    pp_ranges p = Some rs ->
    ForallOrdPairs separated rs ->
    In r rs ->
    replacement r = Some t ->
    is_empty t = false ->
    start r <= i < end_ r ->
    0 <= i ->
    start r < strlen text ->
    0 < strlen text ->
    exists g,
      updateSuggestionForCaret text (Some i)
        (respond (inflightRef s) text (Returned (Some p)) now s) captured_open before
      = Some (mkBubble t (start r) (end_ r) g)
      /\ seg_start g < end_ r /\ start r < seg_end g.
Proof.
  intros s text p rs now i r t captured_open before Hov Hc Hrs Hsep Hin Hr Ht Hi Hi0 Hst Hne.
  unfold respond. cbn [after_catch]. rewrite Z.eqb_refl. cbn [negb].
  assert (Hcan : match pp_cancelled p with Some true => true | _ => false end = false).
  { destruct (pp_cancelled p) as [[|]|]; congruence. }
  rewrite Hcan, Hrs.
  unfold updateSuggestionForCaret.
  cbn [overlayRef lastTextRef lastRangesRef overlay render_into spanNodes].
  rewrite Hov, String.eqb_refl. cbn [negb].
  rewrite (find_separated i rs r Hsep Hin) by (apply contains_spec; exact Hi).
  rewrite Hr, Ht.
  destruct (rect_for_range_exists text rs (start r) (end_ r)) as (g & Hg & _ & Hg1 & Hg2);
    try lia.
  rewrite Hg. exists g. repeat split; assumption.
Qed.

Lemma bubble_opens_after_an_applied_response_witness :
  exists g,
    updateSuggestionForCaret "Teh cat" (Some 2)
      (respond (inflightRef (run [Ev_setup; Ev_fire 1000 "Teh cat"] init)) "Teh cat"
         (Returned (Some one_fix)) 1200 (run [Ev_setup; Ev_fire 1000 "Teh cat"] init))
      false None
    = Some (mkBubble "The" 0 3 g).
Proof.
  destruct (bubble_opens_after_an_applied_response
              (run [Ev_setup; Ev_fire 1000 "Teh cat"] init) "Teh cat" one_fix
              [mkRange 0 3 (Some "The")] 1200 2 (mkRange 0 3 (Some "The")) "The" false None)
    as (g & Hg & _).
  - reflexivity.
  - discriminate.
  - reflexivity.
  - apply FOP_cons; [apply List.Forall_nil | apply FOP_nil].
  - left. reflexivity.
  - reflexivity.
  - reflexivity.
  - cbv. split; [discriminate | reflexivity].
  - discriminate.
  - reflexivity.
  - reflexivity.
  - exists g. exact Hg.
Defined.

End SuggestionFacts.

(** ** The overlay of a session *)

Module OverlayLifeFacts.

Import Editing Realtime Suggestion Panel EditingFacts.

(** The overlay is attached exactly while [overlayRef.current] holds it. *)
Definition ref_tracks_mount (s : Session) : Prop :=
  Overlay.mounted (overlay s) = overlayRef s.

Ltac split_tests :=
  repeat match goal with
         | |- context [if ?c then _ else _] => destruct c eqn:?
         end;
  cbn; try reflexivity; try assumption.

Lemma ref_tracks_mount_step (s : Session) (ev : Event) :
  ref_tracks_mount s -> ref_tracks_mount (step s ev).
Proof.
  unfold ref_tracks_mount. destruct s as [ov ref deb infl lt lr lp cs].
  cbn [overlay overlayRef]. intros <-.
  destruct ev as [b | v | now text | token text o now | text o | |]; cbn [step].
  - reflexivity.
  - reflexivity.
  - unfold fire. cbn. destruct deb as [[d [imm|]]|]; cbn; try reflexivity.
    unfold debounced, drop_overlay. cbn. split_tests.
  - unfold respond. destruct (after_catch text o) as [res|]; [|reflexivity].
    cbn. split_tests.
  - unfold proofreadNow_done. destruct o; [|reflexivity]. cbn. split_tests.
  - reflexivity.
  - reflexivity.
Qed.

Lemma ref_tracks_mount_run (tr : list Event) (s : Session) :
  ref_tracks_mount s -> ref_tracks_mount (run tr s).
Proof.
  revert s; induction tr as [|ev tr IH]; intros s H; [exact H|].
  apply IH. now apply ref_tracks_mount_step.
Qed.

Definition is_setup (ev : Event) : bool :=
  match ev with Ev_setup => true | _ => false end.

(** Nothing but the effect body brings an overlay back. *)
Lemma detached_step (s : Session) (ev : Event) :
  is_setup ev = false ->
  overlayRef s = false -> Overlay.mounted (overlay s) = false ->
  overlayRef (step s ev) = false /\ Overlay.mounted (overlay (step s ev)) = false.
Proof.
  intros Hev Hr Hm.
  destruct ev as [b | v | now text | token text o now | text o | |]; cbn [step];
    try discriminate.
  - now split.
  - now split.
  - unfold fire. destruct (debounceRef s) as [[d [imm|]]|]; cbn; try now split.
    unfold debounced. cbn.
    destruct (MAX_REALTIME_CHARS <? strlen text).
    + unfold drop_overlay. cbn. rewrite Hr. now split.
    + destruct ((now - lastProofreadAtRef s <? MIN_INTERVAL_MS) && negb imm); now split.
  - unfold respond. destruct (after_catch text o) as [res|]; [|now split].
    destruct (negb (token =? inflightRef s)); [now split|].
    destruct (match res with
              | Some p => match pp_cancelled p with Some true => true | _ => false end
              | None => false
              end); now split.
  - unfold proofreadNow_done. destruct o; [|now split]. cbn. rewrite Hr. now split.
  - now split.
Qed.

Lemma detached_run (tr : list Event) (s : Session) :
  forallb (fun ev => negb (is_setup ev)) tr = true ->
  overlayRef s = false -> Overlay.mounted (overlay s) = false ->
  overlayRef (run tr s) = false /\ Overlay.mounted (overlay (run tr s)) = false.
Proof.
  revert s; induction tr as [|ev tr IH]; intros s Htr Hr Hm; [now split|].
  cbn [forallb] in Htr. apply andb_true_iff in Htr. destruct Htr as [Hev Htr].
  apply negb_true_iff in Hev.
  destruct (detached_step s ev Hev Hr Hm) as [Hr' Hm'].
  now apply IH.
Qed.

Lemma long_text_detaches (now : Z) (text : string) (d : Z) (immediate : bool)
    (s : Session) :
  ref_tracks_mount s ->
  debounceRef s = Some (mkTimer d (Debounced immediate)) ->
  MAX_REALTIME_CHARS < strlen text ->
  overlayRef (fire now text s) = false
  /\ Overlay.mounted (overlay (fire now text s)) = false.
Proof.
  unfold ref_tracks_mount. destruct s as [ov ref deb infl lt lr lp cs].
  cbn [overlay overlayRef debounceRef]. intros <- -> Hlong.
  apply Z.ltb_lt in Hlong.
  unfold fire, debounced, drop_overlay. cbn. rewrite Hlong.
  destruct (Overlay.mounted ov) eqn:E; cbn; now split.
Qed.

(** X19. A field that once holds more than 2000 characters loses its
    underlines for the rest of the session: the check that sees the long
    text detaches the overlay, and until the effect runs again nothing
    attaches one, not even a later response for a text that has shrunk
    back under the limit. From then on the overlay stays detached and the
    suggestion bubble is never updated. *)
Theorem long_text_ends_the_underlines :
  forall (before after : list Event) (now : Z) (text : string) (d : Z) (immediate : bool),
    debounceRef (run before init) = Some (mkTimer d (Debounced immediate)) ->
    MAX_REALTIME_CHARS < strlen text ->
    forallb (fun ev => negb (is_setup ev)) after = true ->
    let s := run (before ++ Ev_fire now text :: after) init in
    Overlay.mounted (overlay s) = false
    /\ overlayRef s = false
    /\ (forall t idx captured_open bubble,
          updateSuggestionForCaret t idx s captured_open bubble = bubble).
Proof.
  intros before after now text d immediate Hd Hlong Hafter s.
  assert (Hs : overlayRef s = false /\ Overlay.mounted (overlay s) = false).
  { unfold s, run. rewrite fold_left_app. cbn [fold_left].
    fold (run before init). fold (run after (step (run before init) (Ev_fire now text))).
    pose proof (ref_tracks_mount_run before init eq_refl) as Hinv.
    destruct (long_text_detaches now text d immediate (run before init) Hinv Hd Hlong)
      as [Hr Hm].
    apply detached_run; [exact Hafter | exact Hr | exact Hm]. }
  destruct Hs as [Hr Hm]. split; [exact Hm|]. split; [exact Hr|].
  intros t idx captured_open bubble. unfold updateSuggestionForCaret. now rewrite Hr.
Qed.

Definition long_text : string :=
  string_of_list_ascii (repeat "a"%char 2001).

Definition shrunk_reply : ProofreadPayload :=
  mkProofreadPayload "The cat" [] (Some [mkRange 0 3 (Some "The")]) None.

Lemma long_text_ends_the_underlines_witness :
  Overlay.mounted
    (overlay
       (run ([Ev_setup]
             ++ Ev_fire 1000 long_text
                :: [Ev_input "Teh cat"; Ev_fire 2000 "Teh cat";
                    Ev_respond 1 "Teh cat" (Returned (Some shrunk_reply)) 2100])
          init))
  = false.
Proof.
  destruct (long_text_ends_the_underlines [Ev_setup]
              [Ev_input "Teh cat"; Ev_fire 2000 "Teh cat";
               Ev_respond 1 "Teh cat" (Returned (Some shrunk_reply)) 2100]
              1000 long_text 0 true) as [H _].
  - reflexivity.
  - vm_compute. reflexivity.
  - reflexivity.
  - exact H.
Defined.

(** In that session the call for the shortened text is still issued and
    its result is still rendered, into the detached overlay. *)
Example underlines_are_computed_but_not_shown :
  let s := run [Ev_setup; Ev_fire 1000 long_text; Ev_input "Teh cat";
                Ev_fire 2000 "Teh cat";
                Ev_respond 1 "Teh cat" (Returned (Some shrunk_reply)) 2100] init in
  calls s = [(1, "Teh cat")]
  /\ Overlay.spanNodes (overlay s)
     = [Overlay.mkSegment 0 3 true; Overlay.mkSegment 3 7 false]
  /\ Overlay.mounted (overlay s) = false.
Proof. vm_compute. repeat split. Qed.

Lemma replaceWhole_selectable (sanitize : string -> string) (v t : string)
    (sel : Z * Z) (n : nat) :
  strlen (sanitize t) < 2 ^ 32 ->
  replaceWhole sanitize t false (mkDom (mkControl v (Some sel)) n)
  = (mkDom (mkControl (sanitize t) (Some (strlen (sanitize t), strlen (sanitize t)))) n,
     Normal).
Proof.
  intros Hlen. pose proof (strlen_nonneg (sanitize t)) as H0.
  unfold replaceWhole, and_then.
  destruct (set_value_selectable sanitize v t sel n) as [sel' ->].
  cbn [control value].
  rewrite setSelectionRange_inside by lia. reflexivity.
Qed.

(** X20. Applying the corrected text from the panel replaces the whole
    value without an input event and clears the overlay for good: the
    ['gx:clear'] listener detaches the overlay and forgets it, and until
    the effect runs again nothing attaches one, so the proofread calls that
    later typing still issues never show an underline. *)
Theorem apply_ends_the_underlines :
  forall (sanitize : string -> string) (v pResult : string) (sel : Z * Z) (n : nat)
         (before after : list Event) (suggest : option Bubble),
    is_empty pResult = false ->
    strlen (sanitize pResult) < 2 ^ 32 ->
    forallb (fun ev => negb (is_setup ev)) after = true ->
    let r := applyProofread sanitize pResult (mkDom (mkControl v (Some sel)) n)
               (run before init) suggest in
    snd r = Normal
    /\ value (control (fst (fst r))) = sanitize pResult
    /\ inputs (fst (fst r)) = n
    /\ snd (snd (fst r)) = None
    /\ Overlay.mounted (overlay (run after (fst (snd (fst r))))) = false
    /\ overlayRef (run after (fst (snd (fst r)))) = false.
Proof.
  intros sanitize v pResult sel n before after suggest Hne Hlen Hafter r.
  unfold r, applyProofread. rewrite Hne.
  rewrite replaceWhole_selectable by exact Hlen.
  cbn [fst snd onClear control value inputs].
  repeat (split; [reflexivity|]).
  pose proof (ref_tracks_mount_run before init eq_refl) as Hinv.
  assert (Hd : overlayRef (drop_overlay (run before init)) = false
               /\ Overlay.mounted (overlay (drop_overlay (run before init))) = false).
  { unfold ref_tracks_mount in Hinv. unfold drop_overlay.
    destruct (overlayRef (run before init)) eqn:E; cbn; [now split|].
    split; [exact E | now rewrite Hinv]. }
  destruct Hd as [Hr Hm].
  destruct (detached_run after _ Hafter Hr Hm) as [Hr' Hm']. now split.
Qed.

Lemma apply_ends_the_underlines_witness :
  Overlay.mounted
    (overlay
       (run [Ev_input "The cat sat."; Ev_fire 5000 "The cat sat."]
          (fst (snd (fst (applyProofread (fun s => s) "The cat sat"
                            (mkDom (mkControl "Teh cat sat" (Some (3, 3))) 0)
                            (run [Ev_setup; Ev_fire 1000 "Teh cat sat"] init) None))))))
  = false.
Proof.
  destruct (apply_ends_the_underlines (fun s => s) "Teh cat sat" "The cat sat" (3, 3) 0%nat
              [Ev_setup; Ev_fire 1000 "Teh cat sat"]
              [Ev_input "The cat sat."; Ev_fire 5000 "The cat sat."] None)
    as (_ & _ & _ & _ & H & _).
  - reflexivity.
  - vm_compute. reflexivity.
  - reflexivity.
  - exact H.
Defined.

End OverlayLifeFacts.

(** ** Injection and heartbeat *)

Module InjectorFacts.

Import Injector.

(** Once the script has loaded, its element is gone and the promise is
    settled. *)
Definition after_load (s : State) : Prop :=
  loaded s = true -> script_in_document s = false /\ inpageReady s = Some true.

(** The element is in the document only while the promise exists, and the
    script is appended with the promise. *)
Definition injected_once (s : State) : Prop :=
  match inpageReady s with
  | None =>
      script_in_document s = false /\ injections s = 0%nat /\ loaded s = false
      /\ pings s = 0%nat /\ idle_disposals s = 0%nat
  | Some _ => injections s = 1%nat
  end.

Lemma step_after_load (s : State) (ev : Event) :
  after_load s -> after_load (step s ev).
Proof.
  unfold after_load.
  destruct s as [doc [[|]|] ld inj pg dsp]; destruct ev as [| | | |idle];
    try destruct idle; destruct doc; destruct ld; cbn; intros H; intuition congruence.
Qed.

Lemma step_injected_once (s : State) (ev : Event) :
  injected_once s -> injected_once (step s ev).
Proof.
  unfold injected_once.
  destruct s as [doc [[|]|] ld inj pg dsp]; destruct ev as [| | | |idle];
    try destruct idle; destruct doc; cbn; intros H; intuition congruence.
Qed.

Lemma run_invariants (tr : list Event) (s : State) :
  after_load s -> injected_once s ->
  after_load (run tr s) /\ injected_once (run tr s).
Proof.
  revert s; induction tr as [|ev tr IH]; intros s H1 H2; [now split|].
  apply IH; [now apply step_after_load | now apply step_injected_once].
Qed.

Lemma run_app (tr1 tr2 : list Event) (s : State) :
  run (tr1 ++ tr2) s = run tr2 (run tr1 s).
Proof. apply fold_left_app. Qed.

Lemma quiet_after_load (tr : list Event) (s : State) :
  loaded s = true -> script_in_document s = false -> inpageReady s = Some true ->
  loaded (run tr s) = true
  /\ pings (run tr s) = pings s
  /\ idle_disposals (run tr s) = idle_disposals s
  /\ injections (run tr s) = injections s.
Proof.
  revert s; induction tr as [|ev tr IH]; intros s Hl Hd Hr; [now repeat split|].
  cbn [run fold_left]. fold (run tr (step s ev)).
  assert (Hs : step s ev = s).
  { destruct s as [doc rdy ld inj pg dsp]. cbn in Hl, Hd, Hr. subst.
    destruct ev as [| | | |[|]]; reflexivity. }
  rewrite Hs. now apply IH.
Qed.

(** X12. The script element is appended at most once, and once the
    in-page script has loaded (its [load] handler removes the element) the
    guards that look the element up never pass again: whatever happens
    afterwards, no heartbeat ping is posted and the client idle timer never
    asks for disposal. Before the script is injected none is posted
    either, so pings are posted only while the script is loading or after
    its load failed. *)
Theorem no_heartbeat_once_the_script_has_loaded :
  forall (before after : list Event),
    (injections (run before init) <= 1)%nat
    /\ (loaded (run before init) = true ->
        pings (run (before ++ after) init) = pings (run before init)
        /\ idle_disposals (run (before ++ after) init) = idle_disposals (run before init)
        /\ injections (run (before ++ after) init) = 1%nat)
    /\ (inpageReady (run before init) = None ->
        pings (run before init) = 0%nat /\ idle_disposals (run before init) = 0%nat).
Proof.
  intros before after.
  destruct (run_invariants before init) as [Hal Hinj].
  { unfold after_load. cbn. discriminate. }
  { unfold injected_once. cbn. now repeat split. }
  split; [|split].
  - unfold injected_once in Hinj. destruct (inpageReady (run before init)); lia.
  - intros Hl. rewrite run_app. destruct (Hal Hl) as [Hd Hr].
    destruct (quiet_after_load after (run before init) Hl Hd Hr) as (_ & Hp & Hi & Hn).
    unfold injected_once in Hinj. rewrite Hr in Hinj.
    repeat split; congruence.
  - intros Hn. unfold injected_once in Hinj. rewrite Hn in Hinj. tauto.
Qed.

Lemma no_heartbeat_once_loaded_witness :
  pings (run ([Ev_ensure; Ev_heartbeat; Ev_load]
              ++ [Ev_heartbeat; Ev_ensure; Ev_heartbeat; Ev_client_idle true]) init)
  = 1%nat.
Proof.
  destruct (no_heartbeat_once_the_script_has_loaded [Ev_ensure; Ev_heartbeat; Ev_load]
              [Ev_heartbeat; Ev_ensure; Ev_heartbeat; Ev_client_idle true]) as (_ & H & _).
  destruct (H eq_refl) as [Hp _]. exact Hp.
Defined.

End InjectorFacts.

(** ** The two clocks of the in-page script and the warmup *)

Module PageFacts.

Import Registry InPage Page.

Lemma handle_ping (now : Z) (env : Env) (params : JsVal) (s : State) :
  handle now env "ping" params s = (touch_ping now s, Resolves (RPing now)).
Proof. reflexivity. Qed.

Lemma warmupModels_frame (env : Env) (s : State) :
  reg (fst (warmupModels env s)) = reg s
  /\ lastActivityAt (fst (warmupModels env s)) = lastActivityAt s
  /\ lastPingAt (fst (warmupModels env s)) = lastPingAt s
  /\ (GX_WARMUP_STARTED s = true -> GX_WARMUP_STARTED (fst (warmupModels env s)) = true).
Proof.
  unfold warmupModels.
  destruct (warmupRunning s || GX_WARMUP_STARTED s); [now repeat split|].
  destruct (_ && _); now repeat split.
Qed.

Ltac handle_cases method :=
  unfold handle;
  repeat match goal with
         | |- context [String.eqb method ?m] =>
             let E := fresh "E" in destruct (String.eqb method m) eqn:E
         end.

(** Only the ['ping'] case writes [lastPingAt]. *)
Lemma handle_keeps_lastPingAt (now : Z) (env : Env) (method : string) (params : JsVal)
    (s : State) :
  String.eqb method "ping" = false ->
  lastPingAt (fst (handle now env method params s)) = lastPingAt s.
Proof.
  intros Hp. handle_cases method; try discriminate; try reflexivity.
  destruct (warmupModels env (touch_activity now s)) as [s1 o] eqn:Ew.
  pose proof (warmupModels_frame env (touch_activity now s)) as (_ & _ & H & _).
  rewrite Ew in H. exact H.
Qed.

(** No handler resets the warmup mark. *)
Lemma handle_keeps_warmup_mark (now : Z) (env : Env) (method : string) (params : JsVal)
    (s : State) :
  GX_WARMUP_STARTED s = true ->
  GX_WARMUP_STARTED (fst (handle now env method params s)) = true.
Proof.
  intros Hg. handle_cases method; try exact Hg.
  destruct (warmupModels env (touch_activity now s)) as [s1 o] eqn:Ew.
  pose proof (warmupModels_frame env (touch_activity now s)) as (_ & _ & _ & H).
  rewrite Ew in H. apply H. exact Hg.
Qed.

Lemma on_message_state (now : Z) (env : Env) (data : Request) (s : State) :
  fst (on_message now env data s) = s
  \/ fst (on_message now env data s)
     = fst (handle now env (q_method data) (q_params data) s).
Proof.
  unfold on_message.
  destruct (negb (q_gx data) || negb (String.eqb (q_direction data) "cs->inpage"));
    [now left|].
  right. now destruct (handle now env (q_method data) (q_params data) s).
Qed.

Lemma pings_keep_activity (env : Env) (tr : list Input) (s : State) :
  forallb is_ping tr = true ->
  lastActivityAt (run env tr s) = lastActivityAt s /\ reg (run env tr s) = reg s.
Proof.
  revert s; induction tr as [|i tr IH]; intros s Hp; [now split|].
  cbn [forallb] in Hp. apply andb_true_iff in Hp. destruct Hp as [Hi Hp].
  cbn [run fold_left]. fold (run env tr (step env s i)).
  destruct (IH (step env s i) Hp) as [-> ->].
  destruct i as [now data|now hidden]; [|discriminate].
  cbn [is_ping] in Hi. cbn [step].
  destruct (on_message_state now env data s) as [-> | ->]; [now split|].
  apply String.eqb_eq in Hi. rewrite Hi, handle_ping. now split.
Qed.

Lemma requests_keep_ping (env : Env) (tr : list Input) (s : State) :
  forallb is_request tr = true ->
  lastPingAt (run env tr s) = lastPingAt s.
Proof.
  revert s; induction tr as [|i tr IH]; intros s Hp; [reflexivity|].
  cbn [forallb] in Hp. apply andb_true_iff in Hp. destruct Hp as [Hi Hp].
  cbn [run fold_left]. fold (run env tr (step env s i)).
  rewrite (IH (step env s i) Hp).
  destruct i as [now data|now hidden]; [|discriminate].
  cbn [is_request] in Hi. apply negb_true_iff in Hi. cbn [step].
  destruct (on_message_state now env data s) as [-> | ->]; [reflexivity|].
  now apply handle_keeps_lastPingAt.
Qed.

(** X13. The two clocks of the idle monitor are independent. A heartbeat
    never counts as model activity: after any number of pings the models
    are still disposed by the first check that finds the activity limit
    exceeded. And model activity never counts as a heartbeat: however many
    requests are handled, the first check that finds no ping for more than
    30 s disposes the models. *)
Theorem heartbeat_and_activity_are_separate_clocks :
  forall (env : Env) (tr : list Input) (s : State) (now : Z) (hidden : bool),
    (forallb is_ping tr = true ->
     MODEL_IDLE_MS < now - lastActivityAt s ->
     reg (idle_check now hidden (run env tr s)) = disposeModels (reg s))
    /\ (forallb is_request tr = true ->
        PING_MISS_MS < now - lastPingAt s ->
        reg (idle_check now hidden (run env tr s))
        = disposeModels (reg (run env tr s))).
Proof.
  intros env tr s now hidden. split.
  - intros Hp Hidle. destruct (pings_keep_activity env tr s Hp) as [Ha Hr].
    unfold idle_check, shouldDispose. rewrite Ha.
    assert (Hlim : ((if hidden then HIDDEN_IDLE_MS else MODEL_IDLE_MS)
                    <? now - lastActivityAt s) = true).
    { apply Z.ltb_lt. unfold HIDDEN_IDLE_MS, MODEL_IDLE_MS in *. destruct hidden; lia. }
    rewrite Hlim. cbn [orb reg]. now rewrite Hr.
  - intros Hp Hidle. pose proof (requests_keep_ping env tr s Hp) as Hk.
    unfold idle_check, shouldDispose. rewrite Hk.
    assert (Hlim : (PING_MISS_MS <? now - lastPingAt s) = true) by now apply Z.ltb_lt.
    rewrite Hlim, orb_true_r. reflexivity.
Qed.

Definition idle_env : Env :=
  mkEnv (fun _ _ _ => Resolves tt) (fun _ => Resolves (JObj [])) (fun _ => Resolves (JStr ""))
    (fun _ _ => Resolves (JStr "")).

Definition ping_at (t : Z) : Input :=
  In_message t (mkRequest true "cs->inpage" 0 "ping" (JObj [])).

Definition proofread_at (t : Z) : Input :=
  In_message t
    (mkRequest true "cs->inpage" 1 "proofread" (JObj [("text", JStr "Teh cat")])).

Lemma heartbeat_and_activity_witness :
  reg (idle_check 45000 false
         (run idle_env [ping_at 15000; ping_at 30000; ping_at 45000] (init 0)))
  = disposeModels (reg (init 0))
  /\ reg (idle_check 45000 false
            (run idle_env [proofread_at 20000; proofread_at 44000] (init 0)))
     = disposeModels
         (reg (run idle_env [proofread_at 20000; proofread_at 44000] (init 0))).
Proof.
  split.
  - destruct (heartbeat_and_activity_are_separate_clocks idle_env
                [ping_at 15000; ping_at 30000; ping_at 45000] (init 0) 45000 false)
      as [H _].
    apply H; reflexivity.
  - destruct (heartbeat_and_activity_are_separate_clocks idle_env
                [proofread_at 20000; proofread_at 44000] (init 0) 45000 false)
      as [_ H].
    apply H; reflexivity.
Defined.

Lemma step_keeps_warmup_mark (env : Env) (s : State) (i : Input) :
  GX_WARMUP_STARTED s = true -> GX_WARMUP_STARTED (step env s i) = true.
Proof.
  intros Hg. destruct i as [now data|now hidden]; cbn [step].
  - destruct (on_message_state now env data s) as [-> | ->]; [exact Hg|].
    now apply handle_keeps_warmup_mark.
  - unfold idle_check. now destruct (shouldDispose now hidden s).
Qed.

Lemma run_keeps_warmup_mark (env : Env) (tr : list Input) (s : State) :
  GX_WARMUP_STARTED s = true -> GX_WARMUP_STARTED (run env tr s) = true.
Proof.
  revert s; induction tr as [|i tr IH]; intros s Hg; [exact Hg|].
  apply IH. now apply step_keeps_warmup_mark.
Qed.

(** [warmupRunning] is only set together with the mark. *)
Definition running_is_marked (s : State) : Prop :=
  warmupRunning s = true -> GX_WARMUP_STARTED s = true.

Lemma handle_running_is_marked (now : Z) (env : Env) (method : string) (params : JsVal)
    (s : State) :
  running_is_marked s -> running_is_marked (fst (handle now env method params s)).
Proof.
  unfold running_is_marked. intros Hs. handle_cases method; try exact Hs.
  unfold warmupModels. cbn [touch_activity warmupRunning GX_WARMUP_STARTED].
  destruct (warmupRunning s || GX_WARMUP_STARTED s); [exact Hs|].
  destruct (_ && _); cbn; congruence.
Qed.

Lemma step_running_is_marked (env : Env) (s : State) (i : Input) :
  running_is_marked s -> running_is_marked (step env s i).
Proof.
  intros Hs. destruct i as [now data|now hidden]; cbn [step].
  - destruct (on_message_state now env data s) as [-> | ->]; [exact Hs|].
    now apply handle_running_is_marked.
  - unfold idle_check. destruct (shouldDispose now hidden s); [|exact Hs]. exact Hs.
Qed.

Lemma run_running_is_marked (env : Env) (tr : list Input) (s : State) :
  running_is_marked s -> running_is_marked (run env tr s).
Proof.
  revert s; induction tr as [|i tr IH]; intros s Hs; [exact Hs|].
  apply IH. now apply step_running_is_marked.
Qed.

Lemma warmup_sets_the_mark (now : Z) (env : Env) (params : JsVal) (s : State) :
  running_is_marked s ->
  GX_WARMUP_STARTED (fst (handle now env "warmup" params s)) = true.
Proof.
  unfold running_is_marked. intros Hs.
  unfold handle. cbn [String.eqb Ascii.eqb Bool.eqb].
  unfold warmupModels. cbn [touch_activity warmupRunning GX_WARMUP_STARTED].
  destruct (warmupRunning s) eqn:Ew; cbn [orb].
  - cbn [fst]. now apply Hs.
  - destruct (GX_WARMUP_STARTED s) eqn:Eg; [cbn [fst]; exact Eg|].
    destruct (_ && _); reflexivity.
Qed.

Lemma warmup_when_marked (now : Z) (env : Env) (params : JsVal) (s : State) :
  GX_WARMUP_STARTED s = true ->
  handle now env "warmup" params s = (touch_activity now s, Resolves ROk).
Proof.
  intros Hg. unfold handle. cbn [String.eqb Ascii.eqb Bool.eqb].
  unfold warmupModels. cbn [touch_activity warmupRunning GX_WARMUP_STARTED].
  rewrite Hg, orb_true_r. reflexivity.
Qed.

(** X14. The warmup runs at most once per page. After a first warmup
    request has been handled, every later one is answered [{ ok: true }]
    without consulting any engine, whatever happened in between: also when
    the first warmup is still waiting for an engine, and also after the
    models have been disposed, so a warmup never brings disposed models
    back. *)
Theorem warmup_runs_once_per_page :
  forall (env env' : Env) (t0 now now' : Z) (params params' : JsVal)
         (before between : list Input),
    let s1 := fst (handle now env "warmup" params (run env before (init t0))) in
    handle now' env' "warmup" params' (run env between s1)
    = (touch_activity now' (run env between s1), Resolves ROk).
Proof.
  intros env env' t0 now now' params params' before between s1.
  apply warmup_when_marked. apply run_keeps_warmup_mark.
  apply warmup_sets_the_mark. apply run_running_is_marked.
  unfold running_is_marked. cbn. discriminate.
Qed.

End PageFacts.

(** ** Options of the getters *)

Module EngineOptionsFacts.

Import Registry EngineOptions RegistryFacts.

(** The model with options drives the registry exactly as [getEngine]. *)
Lemma getEngine_registry (k : Kind) (o : Options) (s : State) :
  fst (getEngine k o s) = fst (Registry.getEngine k (registry s))
  /\ registry (snd (getEngine k o s)) = snd (Registry.getEngine k (registry s)).
Proof.
  unfold getEngine, Registry.getEngine.
  destruct (cached k (registry s)); [now split|].
  destruct (creating k (registry s)); now split.
Qed.

Lemma held_step (k : Kind) (s : State) (ev : Event) :
  quiet ev = true -> held k (registry s) = true ->
  held k (registry (step s ev)) = true
  /\ options_used k (step s ev) = options_used k s.
Proof.
  intros Hq Hh. unfold held in *.
  destruct ev as [k' o|p a|p inst|p e| |]; try discriminate; cbn [step].
  - unfold getEngine.
    destruct (cached k' (registry s)) eqn:Ec'; [now split|].
    destruct (creating k' (registry s)) eqn:Er'; [now split|].
    cbn [snd registry].
    assert (Hne : k <> k').
    { intros ->. now rewrite Ec', Er' in Hh. }
    rewrite cached_set_creating, creating_set_creating, cached_set_tasks,
      creating_set_tasks, decide_False by exact Hne.
    split; [exact Hh|].
    unfold options_used. cbn [captured]. rewrite List.filter_app. cbn [List.filter fst].
    rewrite bool_decide_eq_false_2 by congruence. now rewrite app_nil_r.
  - unfold lift, options_used. cbn [registry captured]. split; [|reflexivity].
    unfold avail_resolved.
    destruct (tasks (registry s) !! p) as [[k' [| | |]]|]; try exact Hh.
    destruct a; try discriminate; now rewrite cached_set_tasks, creating_set_tasks.
  - unfold lift, options_used. cbn [registry captured]. split; [|reflexivity].
    unfold create_resolved.
    destruct (tasks (registry s) !! p) as [[k' [| | |]]|]; try exact Hh.
    rewrite cached_set_creating, creating_set_creating, cached_set_cached,
      creating_set_cached, cached_set_tasks, creating_set_tasks.
    destruct (decide (k = k')); [reflexivity | exact Hh].
Qed.

(** X15. The options of a getter reach the engine only when the call
    starts a creation. While a kind has a cached instance or a creation
    under way, and until a disposal or a failed creation, every getter call
    for it returns that instance or creation, so no later tone or length is
    ever passed to [create()]: an engine first obtained without options
    (by an [ensure] or warmup request) serves all later [write] and
    [rewrite] requests whatever tone and length they ask for. *)
Theorem later_options_never_reach_the_engine :
  forall (k : Kind) (tr : list Event) (s : State),
    held k (registry s) = true ->
    forallb quiet tr = true ->
    options_used k (run tr s) = options_used k s
    /\ held k (registry (run tr s)) = true.
Proof.
  intros k tr. induction tr as [|ev tr IH]; intros s Hh Hq; [now split|].
  cbn [forallb] in Hq. apply andb_true_iff in Hq. destruct Hq as [Hev Hq].
  cbn [run fold_left]. fold (run tr (step s ev)).
  destruct (held_step k s ev Hev Hh) as [Hh' Ho].
  destruct (IH (step s ev) Hh' Hq) as [-> H]. now split.
Qed.

Definition formal_long : Options := mkOptions (Some "formal") (Some "long").
Definition casual_short : Options := mkOptions (Some "casual") (Some "short").

Lemma later_options_witness :
  options_used Writer
    (run [Ev_avail 0 available; Ev_get Writer formal_long; Ev_created 0 7;
          Ev_get Writer casual_short]
       (step init (Ev_get Writer no_options)))
  = [no_options].
Proof.
  destruct (later_options_never_reach_the_engine Writer
              [Ev_avail 0 available; Ev_get Writer formal_long; Ev_created 0 7;
               Ev_get Writer casual_short]
              (step init (Ev_get Writer no_options)))
    as [H _]; [reflexivity | reflexivity |].
  rewrite H. reflexivity.
Defined.

End EngineOptionsFacts.

(** ** The getters with and without creation locks *)

Module LegacyFacts.

Import Registry.

Lemma legacy_cached_set_tasks (k : Kind) (ts : list (Kind * Task)) (s : Legacy.State) :
  Legacy.cached k (Legacy.set_tasks ts s) = Legacy.cached k s.
Proof. destruct k; reflexivity. Qed.

(** Without locks every caller starts a body of its own. *)
Lemma legacy_calls (k : Kind) (n : nat) (s : Legacy.State) :
  Legacy.cached k s = None ->
  Legacy.tasks (Legacy.run (repeat (Ev_get k) n) s)
  = Legacy.tasks s ++ repeat (k, Probing) n.
Proof.
  revert s; induction n as [|n IH]; intros s Hc; cbn [repeat Legacy.run fold_left].
  - now rewrite app_nil_r.
  - fold (Legacy.run (repeat (Ev_get k) n) (Legacy.step s (Ev_get k))).
    cbn [Legacy.step]. unfold Legacy.getEngine. rewrite Hc. cbn [snd].
    rewrite IH by (now rewrite legacy_cached_set_tasks).
    cbn [Legacy.tasks Legacy.set_tasks]. now rewrite <- app_assoc.
Qed.

Lemma legacy_probes (k : Kind) (m : nat) :
  forall (i : nat) (s : Legacy.State),
    Legacy.tasks s = repeat (k, Creating) i ++ repeat (k, Probing) m ->
    Legacy.tasks
      (Legacy.run (map (fun p => Ev_avail p available) (seq i m)) s)
    = repeat (k, Creating) (i + m).
Proof.
  induction m as [|m IH]; intros i s Hs; cbn [seq map Legacy.run fold_left].
  - rewrite Hs, app_nil_r. f_equal. lia.
  - fold (Legacy.run (map (fun p => Ev_avail p available) (seq (S i) m))
            (Legacy.step s (Ev_avail i available))).
    rewrite (IH (S i)); [f_equal; lia|].
    cbn [Legacy.step]. unfold Legacy.avail_resolved. rewrite Hs.
    assert (Hlen : List.length (repeat (k, Creating) i) = i) by apply repeat_length.
    rewrite lookup_app_r by lia. rewrite Hlen, Nat.sub_diag.
    replace (repeat (k, Probing) (S m) !! 0%nat) with (Some (k, Probing)) by reflexivity.
    cbn [Legacy.tasks Legacy.set_tasks].
    rewrite insert_app_r_alt by lia. rewrite Hlen, Nat.sub_diag.
    replace (<[0%nat := (k, Creating)]> (repeat (k, Probing) (S m)))
      with ((k, Creating) :: repeat (k, Probing) m) by reflexivity.
    change (repeat (k, Creating) (S i)) with ((k, Creating) :: repeat (k, Creating) i).
    rewrite repeat_cons, <- app_assoc. reflexivity.
Qed.

Lemma count_creating (k : Kind) (n : nat) :
  List.length
    (List.filter
       (fun kt : Kind * Task =>
          bool_decide (fst kt = k) && match snd kt with Creating => true | _ => false end)
       (repeat (k, Creating) n))
  = n.
Proof.
  induction n as [|n IH]; [reflexivity|].
  cbn [repeat List.filter fst snd]. rewrite bool_decide_eq_true_2 by reflexivity.
  cbn [andb List.length]. now rewrite IH.
Qed.

(** With the locks the later callers start nothing. *)
Lemma locked_calls (k : Kind) (n : nat) (s : State) :
  creating k s <> None -> cached k s = None ->
  Registry.run (repeat (Ev_get k) n) s = s.
Proof.
  intros Hl Hc. induction n as [|n IH]; [reflexivity|].
  cbn [repeat Registry.run fold_left]. fold (Registry.run (repeat (Ev_get k) n)).
  cbn [Registry.step]. unfold getEngine. rewrite Hc.
  destruct (creating k s); [exact IH | congruence].
Qed.

Lemma stray_probes (m : nat) :
  forall (i : nat) (s : State),
    (List.length (tasks s) <= i)%nat ->
    Registry.run (map (fun p => Ev_avail p available) (seq i m)) s = s.
Proof.
  induction m as [|m IH]; intros i s Hi; [reflexivity|].
  cbn [seq map Registry.run fold_left].
  fold (Registry.run (map (fun p => Ev_avail p available) (seq (S i) m))).
  cbn [Registry.step]. unfold avail_resolved.
  rewrite lookup_ge_None_2 by lia. apply IH. lia.
Qed.

(** X16. The creation locks are what keeps concurrent callers from
    duplicating work: when [n] callers ask for the same engine before
    anything is created, the earlier script (no locks) runs [n] [create()]
    calls at once, one per caller, while the current script runs exactly
    one, however many callers there are. *)
Theorem locks_coalesce_concurrent_creation :
  forall (k : Kind) (n : nat),
    Legacy.creates_running k (Legacy.run (Legacy.concurrent_calls k n) Legacy.init) = n
    /\ creates_running k (Registry.run (Legacy.concurrent_calls k (S n)) init) = 1%nat.
Proof.
  intros k n. unfold Legacy.concurrent_calls. split.
  - unfold Legacy.run. rewrite fold_left_app.
    fold (Legacy.run (repeat (Ev_get k) n) Legacy.init).
    fold (Legacy.run (map (fun p => Ev_avail p available) (seq 0 n))
            (Legacy.run (repeat (Ev_get k) n) Legacy.init)).
    unfold Legacy.creates_running.
    rewrite (legacy_probes k n 0).
    + apply count_creating.
    + rewrite legacy_calls by (destruct k; reflexivity). reflexivity.
  - unfold Registry.run. rewrite fold_left_app.
    cbn [repeat fold_left seq map].
    fold (Registry.run (repeat (Ev_get k) n) (Registry.step init (Ev_get k))).
    rewrite locked_calls by (destruct k; cbn; congruence).
    fold (Registry.run (map (fun p => Ev_avail p available) (seq 1 n))
            (Registry.step (Registry.step init (Ev_get k)) (Ev_avail 0 available))).
    rewrite stray_probes by (destruct k; cbn; lia).
    destruct k; reflexivity.
Qed.

End LegacyFacts.

(** ** A call and its answer *)

Module ChannelFacts.

Import Bridge Channel BridgeFacts.

(** How the promise of a call ends for each outcome of the handler. An
    error whose text is empty travels as [error: ''], which the listener
    takes for a success without result. *)
Definition settlement_of (o : InPage.Outcome HandleResult) : Settlement :=
  match o with
  | InPage.Resolves r => Fulfilled (Some r)
  | InPage.Rejects e =>
      if is_empty (InPage.error_text e) then Fulfilled None
      else Rejected (InPage.error_text e)
  | InPage.Hangs => Unsettled
  end.

(** X17. A call through the bridge ends as its handler ends. The request
    posted by [callInpage] carries a fresh id; when the in-page listener
    handles it and its response is delivered, the call's promise is
    fulfilled with the handler's result, or rejected with the text of the
    handler's error, and its entry leaves the pending table; while the
    handler has not settled nothing is posted and the call stays pending.
    The one distortion: an error with an empty text fulfils the promise
    with [undefined]. *)
Theorem call_ends_as_its_handler_ends :
  forall (method : string) (params : JsVal) (s : State) (now : Z) (env : InPage.Env)
         (page : InPage.State),
    let id := fst (callInpage method params s) in
    let s1 := snd (callInpage method params s) in
    let request := mkRequest true "cs->inpage" id method params in
    let outcome := snd (InPage.handle now env method params page) in
    let s2 := deliver (snd (InPage.on_message now env request page)) s1 in
    last (posted s1) = Some request
    /\ promises s2 !! id = Some (settlement_of outcome)
    /\ pending s2 !! id
       = match outcome with InPage.Hangs => Some id | _ => None end.
Proof.
  intros method params s now env page. cbv zeta.
  unfold callInpage. cbn [fst snd].
  split; [cbn [posted]; apply last_snoc|].
  unfold InPage.on_message. cbn [q_gx q_direction q_method q_params q_id negb orb].
  change (String.eqb "cs->inpage" "cs->inpage") with true. cbn [negb].
  destruct (InPage.handle now env method params page) as [page' o].
  cbn [snd]. unfold deliver.
  destruct o as [r|e|]; cbn [fold_left settlement_of].
  - unfold on_message, InPage.postResponse.
    cbn [r_gx r_direction r_id r_error r_result negb orb pending].
    change (String.eqb "inpage->cs" "inpage->cs") with true. cbn [negb].
    rewrite lookup_insert_eq.
    split.
    + apply settle_unsettled. cbn [set_pending promises]. apply lookup_insert_eq.
    + destruct (settle_frame (reqCounter s) (Fulfilled (Some r))
                  (set_pending (delete (reqCounter s) (<[reqCounter s:=reqCounter s]> (pending s)))
                     (mkState (Bridge.now s) (reqCounter s + 1)
                        (<[reqCounter s:=reqCounter s]> (pending s))
                        (<[reqCounter s:=Unsettled]> (promises s))
                        (timers s ++ [(Bridge.now s + TIMEOUT_MS, reqCounter s)])
                        (posted s ++ [mkRequest true "cs->inpage" (reqCounter s) method params]))))
        as (_ & _ & -> & _).
      cbn [set_pending pending]. apply lookup_delete_eq.
  - unfold on_message, InPage.postResponse.
    cbn [r_gx r_direction r_id r_error r_result negb orb pending].
    change (String.eqb "inpage->cs" "inpage->cs") with true. cbn [negb].
    rewrite lookup_insert_eq.
    destruct (is_empty (InPage.error_text e)).
    + split.
      * apply settle_unsettled. cbn [set_pending promises]. apply lookup_insert_eq.
      * match goal with
        | |- pending (settle ?p ?v ?st) !! _ = _ =>
            destruct (settle_frame p v st) as (_ & _ & -> & _)
        end.
        cbn [set_pending pending]. apply lookup_delete_eq.
    + split.
      * apply settle_unsettled. cbn [set_pending promises]. apply lookup_insert_eq.
      * match goal with
        | |- pending (settle ?p ?v ?st) !! _ = _ =>
            destruct (settle_frame p v st) as (_ & _ & -> & _)
        end.
        cbn [set_pending pending]. apply lookup_delete_eq.
  - cbn [promises pending]. split; apply lookup_insert_eq.
Qed.

(** *** Request ids *)

(** Every entry of the pending table has a positive id below the counter,
    and the requests posted so far carry the ids 1, 2, 3, ... in order. *)
Definition ids_in_order (s : State) : Prop :=
  1 <= reqCounter s
  /\ (forall j p, pending s !! j = Some p -> 1 <= j < reqCounter s)
  /\ map q_id (posted s)
     = map Z.of_nat (seq 1 (List.length (posted s)))
  /\ reqCounter s = 1 + Z.of_nat (List.length (posted s)).

Lemma timeouts_pending (l : list (Z * Z)) (s : State) (j p : Z) :
  pending (timeouts l s) !! j = Some p -> pending s !! j = Some p.
Proof.
  revert s; induction l as [|t l IH]; intros s H; [exact H|].
  cbn [timeouts fold_left] in H. fold (timeouts l (on_timeout (snd t) s)) in H.
  apply IH in H. rewrite on_timeout_pending in H.
  destruct (decide (snd t = j)); [discriminate | exact H].
Qed.

Lemma timeouts_posted (l : list (Z * Z)) (s : State) :
  posted (timeouts l s) = posted s.
Proof.
  revert s; induction l as [|t l IH]; intros s; [reflexivity|].
  cbn [timeouts fold_left]. fold (timeouts l (on_timeout (snd t) s)).
  rewrite IH. unfold on_timeout. destruct (pending s !! snd t); [|reflexivity].
  unfold settle. now destruct (promises _ !! _) as [[]|].
Qed.

Lemma settle_posted (p : Z) (v : Settlement) (s : State) :
  posted (settle p v s) = posted s.
Proof. unfold settle. now destruct (promises s !! p) as [[]|]. Qed.

Lemma ids_in_order_step (s : State) (ev : Event) :
  ids_in_order s -> ids_in_order (step s ev).
Proof.
  intros Hall. pose proof Hall as (H1 & H2 & H3 & H4).
  destruct ev as [m p | data | dt]; cbn [step].
  - unfold callInpage. cbn [snd]. unfold ids_in_order.
    cbn [reqCounter pending posted].
    rewrite length_app, map_app, H3. cbn [List.length map].
    split; [lia|]. split; [|split].
    + intros j q. destruct (decide (reqCounter s = j)) as [<-|Hj].
      * intros _. lia.
      * rewrite lookup_insert_ne by exact Hj. intros Hq. specialize (H2 j q Hq). lia.
    + rewrite Nat.add_1_r, seq_S, map_app. cbn [map]. do 2 f_equal. cbn [q_id]. lia.
    + lia.
  - unfold on_message.
    destruct (negb (r_gx data) || negb (String.eqb (r_direction data) "inpage->cs"));
      [exact Hall|].
    destruct (pending s !! r_id data) as [p|] eqn:E; [|exact Hall].
    assert (H : forall v,
               ids_in_order (settle p v (set_pending (delete (r_id data) (pending s)) s))).
    { intros v.
      destruct (settle_frame p v (set_pending (delete (r_id data) (pending s)) s))
        as (_ & F2 & F3 & _).
      unfold ids_in_order. rewrite F2, F3, settle_posted. cbn [set_pending reqCounter pending posted].
      split; [exact H1|]. split; [|now split].
      intros j q Hq. apply (H2 j q).
      destruct (decide (r_id data = j)) as [Ej|Hj].
      - rewrite Ej in Hq. now rewrite lookup_delete_eq in Hq.
      - now rewrite lookup_delete_ne in Hq. }
    destruct (r_error data) as [err|]; [destruct (is_empty err)|]; apply H.
  - rewrite elapse_unfold.
    match goal with |- ids_in_order (timeouts ?l ?st) =>
      destruct (timeouts_frame l st) as (_ & F2 & _);
      pose proof (timeouts_posted l st) as F4;
      pose proof (timeouts_pending l st) as F3
    end.
    unfold ids_in_order. rewrite F2, F4. cbn [set_clock reqCounter posted].
    split; [exact H1|]. split; [|now split].
    intros j q Hq. apply F3 in Hq. cbn [set_clock pending] in Hq. now apply (H2 j q).
Qed.

Lemma ids_in_order_run (tr : list Event) (s : State) :
  ids_in_order s -> ids_in_order (run tr s).
Proof.
  revert s; induction tr as [|ev tr IH]; intros s H; [exact H|].
  apply IH. now apply ids_in_order_step.
Qed.

Lemma ids_in_order_init : ids_in_order init.
Proof.
  unfold ids_in_order. cbn [init reqCounter pending posted List.length seq map].
  split; [lia|]. split; [|split; [reflexivity | lia]].
  intros j p H. now rewrite lookup_empty in H.
Qed.

(** X18. Request ids are never reused and never clash with the
    heartbeat: in every state the bridge can reach, the requests posted so
    far carry the ids 1, 2, 3, ... in posting order, and the reply the
    in-page script posts to a heartbeat ping (id 0) changes nothing in the
    bridge, so a heartbeat can never settle a call. *)
Theorem heartbeat_replies_settle_no_call :
  forall (tr : list Event) (now : Z) (env : InPage.Env) (page : InPage.State),
    map q_id (posted (run tr init))
    = map Z.of_nat (seq 1 (List.length (posted (run tr init))))
    /\ snd (InPage.on_message now env heartbeat_ping page)
       = [InPage.postResponse 0 (Some (RPing now)) None]
    /\ deliver (snd (InPage.on_message now env heartbeat_ping page)) (run tr init)
       = run tr init.
Proof.
  intros tr now env page.
  destruct (ids_in_order_run tr init ids_in_order_init) as (H1 & H2 & H3 & H4).
  split; [exact H3|]. split; [reflexivity|].
  change (snd (InPage.on_message now env heartbeat_ping page))
    with [InPage.postResponse 0 (Some (RPing now)) None].
  unfold deliver. cbn [fold_left]. apply late_message_dropped.
  cbn [InPage.postResponse r_id].
  destruct (pending (run tr init) !! 0) as [p|] eqn:E; [|reflexivity].
  specialize (H2 0 p E). lia.
Qed.

End ChannelFacts.

(** ** Offsets and positions in a contentEditable host *)

Module OffsetsFacts.

Import Offsets.

Lemma total_nonneg (nodes : list string) : 0 <= total nodes.
Proof.
  induction nodes as [|t nodes IH]; cbn [total fold_right]; [lia|].
  fold (total nodes). pose proof (strlen_nonneg t). lia.
Qed.

Lemma total_app (a b : list string) : total (a ++ b) = total a + total b.
Proof.
  induction a as [|t a IH]; cbn [app total fold_right]; [reflexivity|].
  fold (total (a ++ b)). fold (total a). lia.
Qed.

(** The boundary point lies in a text node of the host, [off] characters
    into the host's text. *)
Definition at_offset (nodes : list string) (b : Boundary) (off : Z) : Prop :=
  exists j t,
    container b = TextNode j /\ nodes !! j = Some t
    /\ 0 <= offset b <= strlen t
    /\ total (take j nodes) + offset b = off.

Lemma caret_walk_at (pre rest : list string) (b : Boundary) (off : Z) :
  at_offset (pre ++ rest) b off ->
  (forall j, container b = TextNode j -> (List.length pre <= j)%nat) ->
  caret_walk rest (List.length pre) (total pre) b = off.
Proof.
  revert pre. induction rest as [|t rest IH]; intros pre (j & u & Hc & Hj & Ho & Hoff) Hge.
  - exfalso. rewrite app_nil_r in Hj. apply lookup_lt_Some in Hj.
    specialize (Hge j Hc). lia.
  - cbn [caret_walk]. rewrite Hc.
    destruct (Nat.eqb_spec (List.length pre) j) as [E|E].
    + subst j. rewrite take_app_length in Hoff. exact Hoff.
    + replace (S (List.length pre)) with (List.length (pre ++ [t]))
        by (rewrite length_app; cbn; lia).
      replace (total pre + strlen t) with (total (pre ++ [t]))
        by (rewrite total_app; cbn; lia).
      apply IH.
      * exists j, u. rewrite <- app_assoc. cbn [app]. now repeat split.
      * intros j' Hj'. rewrite Hc in Hj'. injection Hj' as <-.
        specialize (Hge j Hc). rewrite length_app. cbn. lia.
Qed.

Lemma caret_at_offset (nodes : list string) (b : Boundary) (off : Z) :
  at_offset nodes b off -> getCaretIndexInEditable nodes b = off.
Proof.
  intros H. unfold getCaretIndexInEditable.
  apply (caret_walk_at [] nodes b off H). intros j _. cbn. lia.
Qed.

Lemma node_within_total (nodes : list string) (j : nat) (t : string) :
  nodes !! j = Some t -> strlen t <= total nodes.
Proof.
  revert j; induction nodes as [|u nodes IH]; intros j Hj; [discriminate|].
  cbn [total fold_right]. fold (total nodes).
  pose proof (total_nonneg nodes). pose proof (strlen_nonneg u).
  destruct j as [|j]; cbn in Hj.
  - injection Hj as ->. lia.
  - specialize (IH j Hj). lia.
Qed.

Lemma at_offset_boundary (nodes : list string) (b : Boundary) (off : Z) :
  total nodes < 2 ^ 32 -> at_offset nodes b off -> boundary nodes b = Some b.
Proof.
  intros Hlt (j & t & Hc & Hj & Ho & _). unfold boundary. rewrite Hc, Hj.
  pose proof (node_within_total nodes j t Hj) as Ht.
  unfold Editing.to_uint32. rewrite Z.mod_small by lia.
  destruct (Z.leb_spec (offset b) (strlen t)); [|lia].
  destruct b as [c o]. cbn in *. now subst.
Qed.

(** The loop, started anywhere in the host with the end still ahead. *)
Lemma walk_at (pre rest : list string) (sOff eOff : Z) (sNode : option Boundary) :
  total pre <= eOff <= total pre + total rest ->
  rest <> [] ->
  match sNode with
  | None => total pre <= sOff <= eOff
  | Some b => at_offset (pre ++ rest) b sOff
  end ->
  exists bs be,
    walk rest (List.length pre) (total pre) sOff eOff sNode = (Some bs, Some be)
    /\ at_offset (pre ++ rest) bs sOff
    /\ at_offset (pre ++ rest) be eOff.
Proof.
  revert pre sNode. induction rest as [|t rest IH]; intros pre sNode He Hne Hs;
    [congruence|].
  cbn [walk]. cbn [total fold_right] in He. fold (total rest) in He.
  pose proof (strlen_nonneg t) as Ht.
  assert (Hhere : forall off, total pre <= off <= total pre + strlen t ->
            at_offset (pre ++ t :: rest) (mkBoundary (TextNode (List.length pre)) (off - total pre)) off).
  { intros off Hoff. exists (List.length pre), t. cbn [container offset].
    split; [reflexivity|]. split; [apply list_lookup_middle; reflexivity|].
    split; [lia|]. rewrite take_app_length. lia. }
  set (sNode' := match sNode with
                 | None => if sOff <=? total pre + strlen t
                           then Some (mkBoundary (TextNode (List.length pre)) (sOff - total pre))
                           else None
                 | Some b => Some b
                 end).
  destruct (Z.leb_spec eOff (total pre + strlen t)) as [Hle|Hgt].
  - destruct sNode as [b|]; cbn [sNode'] in *.
    + exists b, (mkBoundary (TextNode (List.length pre)) (eOff - total pre)).
      split; [reflexivity|]. split; [exact Hs|]. apply Hhere. lia.
    + unfold sNode'. destruct (Z.leb_spec sOff (total pre + strlen t)); [|lia].
      eexists _, _. split; [reflexivity|]. split; apply Hhere; lia.
  - replace (S (List.length pre)) with (List.length (pre ++ [t]))
      by (rewrite length_app; cbn; lia).
    replace (total pre + strlen t) with (total (pre ++ [t]))
      by (rewrite total_app; cbn; lia).
    assert (Hrest : rest <> []).
    { intros ->. cbn [total fold_right] in He. lia. }
    assert (Htot : total (pre ++ [t]) = total pre + strlen t)
      by (rewrite total_app; cbn; lia).
    destruct (IH (pre ++ [t]) sNode') as (bs & be & Hw & Hbs & Hbe).
    + rewrite Htot. lia.
    + exact Hrest.
    + unfold sNode'. destruct sNode as [b|].
      * rewrite <- app_assoc. exact Hs.
      * destruct (Z.leb_spec sOff (total pre + strlen t)).
        -- rewrite <- app_assoc. apply Hhere. lia.
        -- rewrite Htot. lia.
    + exists bs, be. rewrite <- app_assoc in Hbs, Hbe. now repeat split.
Qed.

Lemma at_offset_order (nodes : list string) (a b : Boundary) (x y : Z) :
  at_offset nodes a x -> at_offset nodes b y -> x <= y -> precedes b a = true -> x = y.
Proof.
  intros (i & t & Hc & Hi & Ho & Hx) (j & u & Hc' & Hj & Ho' & Hy) Hxy Hp.
  unfold precedes in Hp. rewrite Hc, Hc' in Hp.
  apply orb_true_iff in Hp. destruct Hp as [Hp|Hp].
  - apply Nat.ltb_lt in Hp.
    assert (Hji : total (take j nodes) + strlen u <= total (take i nodes)).
    { rewrite <- (take_drop j nodes) at 2.
      rewrite take_app_ge by (rewrite length_take; lia).
      rewrite length_take. apply lookup_lt_Some in Hj as Hlt.
      replace (i - j `min` List.length nodes)%nat with (S (i - j - 1)) by lia.
      rewrite (drop_S nodes u j Hj). cbn [take]. rewrite total_app.
      cbn [total fold_right].
      pose proof (total_nonneg (take (i - j - 1) (drop (S j) nodes))) as H0.
      unfold total in H0. lia. }
    lia.
  - apply andb_true_iff in Hp. destruct Hp as [Hp1 Hp2].
    apply Nat.eqb_eq in Hp1. apply Z.ltb_lt in Hp2. subst j. lia.
Qed.

(** X21. In a contentEditable host the two offset algorithms agree: for
    offsets 0 <= s <= e <= (characters of the host's text nodes),
    [setRangeByOffsets] returns a range whose two boundary points
    [getCaretIndexInEditable] maps back to [s] and [e] (the host's text
    being shorter than 2^32 characters). *)
Theorem offsets_round_trip :
  forall (nodes : list string) (s e : Z),
    0 <= s <= e ->
    e <= total nodes ->
    total nodes < 2 ^ 32 ->
    exists bs be,
      setRangeByOffsets nodes s e = Some (bs, be)
      /\ getCaretIndexInEditable nodes bs = s
      /\ getCaretIndexInEditable nodes be = e.
Proof.
  intros nodes s e Hse He Hlt.
  destruct nodes as [|t nodes].
  - cbn [total fold_right] in He. assert (s = 0) by lia. assert (e = 0) by lia. subst.
    exists (mkBoundary Root 0), (mkBoundary Root 0). now repeat split.
  - destruct (walk_at [] (t :: nodes) s e None) as (bs & be & Hw & Hbs & Hbe).
    + cbn [total fold_right] in *. lia.
    + discriminate.
    + cbn [total fold_right]. lia.
    + cbn [app List.length] in Hw, Hbs, Hbe.
      change (total []) with 0 in Hw.
      unfold setRangeByOffsets. rewrite Hw.
      rewrite (at_offset_boundary _ _ _ Hlt Hbs), (at_offset_boundary _ _ _ Hlt Hbe).
      destruct (precedes be bs) eqn:Hp.
      * assert (s = e) by (eapply at_offset_order; eauto; lia). subst e.
        exists be, be. repeat split; now apply caret_at_offset.
      * exists bs, be. repeat split; now apply caret_at_offset.
Qed.

Lemma offsets_round_trip_witness :
  exists bs be,
    setRangeByOffsets ["Teh "; "cat"; " sat"] 4 7 = Some (bs, be)
    /\ getCaretIndexInEditable ["Teh "; "cat"; " sat"] bs = 4
    /\ getCaretIndexInEditable ["Teh "; "cat"; " sat"] be = 7.
Proof.
  apply (offsets_round_trip ["Teh "; "cat"; " sat"] 4 7).
  - lia.
  - vm_compute. discriminate.
  - vm_compute. reflexivity.
Defined.

(** An end offset past the host's text is not clamped: the range collapses
    at its start and selects nothing, while the splice of a text control
    replaces up to the end of its value. *)
Example end_past_the_text_collapses_the_range :
  setRangeByOffsets ["Teh cat"; " sat"] 8 40
  = Some (mkBoundary (TextNode 1) 1, mkBoundary (TextNode 1) 1)
  /\ Normalizer.splice "Teh cat sat" (mkRange 8 40 (Some "sat.")) = "Teh cat sat.".
Proof. vm_compute. split; reflexivity. Qed.

End OffsetsFacts.
